(** * WebModelDelivery: filemap resolver, progress tracker and packager

    A shallow embedding of the model-delivery code base:
    - [model-sw.js], the service worker: module [SW] for one request at a
      time, module [Dedup] for the interleavings of its shard fetches;
    - [model-resolver-node.mjs], the Node.js resolver: module [Node];
    - [model-packager.sh], phase 4 (byte-split): module [Packager].

    JavaScript numbers are modelled as [Z] (every quantity here is a byte
    count far below 2^53), byte buffers as [list byte], JS [Map]s keyed by
    strings as [gmap string _], JS [Set]s as [gset string].  Exceptions and
    mutable state are threaded through a small state-and-exception monad.

    A filemap is modelled as the typed content of [filemap.json]: sizes
    are numbers, [files] holds entries, a manifest has [files] and
    [size].  A manifest name supplied by the page or the caller is
    looked up as JavaScript does, through [Object.prototype] as well
    (module [Obj]).  Virtual paths are looked up among the members the
    document gives [files] only: a path such as [constructor], which
    the code finds on the prototype as a function without [size] or
    [shards], counts as unknown here. *)

From Stdlib Require Import ZArith Lia List String Ascii DecimalString.
From Stdlib.Strings Require Import Byte.
From stdpp Require Import base option list gmap strings sorting.

Open Scope Z_scope.

(** ** JavaScript primitives used by the code *)

Module JS.

(** [ArrayBuffer.prototype.slice] / [Buffer.prototype.subarray]: a
    negative index counts from the end, and both are clamped. *)
Definition rel_index (len k : Z) : Z :=
  if k <? 0 then Z.max (len + k) 0 else Z.min k len.

Definition slice {A} (l : list A) (b e : Z) : list A :=
  let len := Z.of_nat (length l) in
  let b' := rel_index len b in
  let e' := rel_index len e in
  take (Z.to_nat (e' - b')) (drop (Z.to_nat b') l).

(** [Math.round(a / b * 100)] for [b > 0], in exact arithmetic:
    round-half-up of [100 a / b].  The code computes the quotient and
    the product in double precision, where a value that is exactly
    half-way can come out just below it (29 of 200 is reported as 14,
    here 15); range, monotonicity in [a] and the value 100 at [a = b]
    are the same for both. *)
Definition round_percent (a b : Z) : Z := (200 * a + b) / (2 * b).

(** Template-literal rendering of an integer. *)
Definition num_to_string (z : Z) : string :=
  NilZero.string_of_int (Z.to_int z).

(** [s.split('/').pop()] *)
Fixpoint last_segment_aux (acc : string) (s : string) : string :=
  match s with
  | EmptyString => acc
  | String c s' =>
      if Ascii.eqb c "/"%char then last_segment_aux EmptyString s'
      else last_segment_aux (acc ++ String c EmptyString)%string s'
  end.
Definition last_segment (s : string) : string := last_segment_aux EmptyString s.

End JS.

(** Bytes [a..b] (inclusive) of a buffer; the reference against which
    ranged reads are compared. *)
Definition bytes_between {A} (a b : Z) (l : list A) : list A :=
  take (Z.to_nat (b + 1) - Z.to_nat a)%nat (drop (Z.to_nat a) l).

(** ** Filemap data model (filemap.json, version 5) *)

Record shard := Shard {
  shard_file : string;
  shard_offset : Z;
  shard_size : Z;
  shard_sha256 : string;
}.

Record file_entry := FileEntry {
  entry_size : Z;
  entry_sha256 : string;
  entry_cdn_file : option string;
  entry_shards : option (list shard);
}.

Record manifest := Manifest {
  manifest_files : list string;
  manifest_size : Z;
}.

(** [fm_manifests] lists the members of the [manifests] object in the
    order in which they were created, which is the order of the
    document; [assoc] reads a member, the first binding of a name being
    the one that counts.  [fm_files] is a finite map: the order of its
    members is not modelled. *)
Record filemap := Filemap {
  fm_files : gmap string file_entry;
  fm_manifests : option (list (string * manifest));
}.

Fixpoint assoc {A} (k : string) (l : list (string * A)) : option A :=
  match l with
  | [] => None
  | (k', v) :: l' => if String.eqb k k' then Some v else assoc k l'
  end.

(** ** Plain JavaScript objects

    The objects [JSON.parse] builds inherit from [Object.prototype]:
    reading [obj[k]] finds a member of the object itself, or else a
    member of the prototype, or else [undefined]; [Object.keys] lists the
    object's own members only, array indices first. *)

Module Obj.

(** The property names of [Object.prototype]. *)
Definition prototype_names : list string :=
  ["constructor"; "__defineGetter__"; "__defineSetter__"; "hasOwnProperty";
   "__lookupGetter__"; "__lookupSetter__"; "isPrototypeOf";
   "propertyIsEnumerable"; "toString"; "valueOf"; "__proto__";
   "toLocaleString"]%string.

Definition inherited (k : string) : bool := bool_decide (k ∈ prototype_names).

(** What [obj[k]] evaluates to.  An inherited member is a built-in
    function (for [__proto__], the prototype object): a truthy value
    without any of the fields of a manifest or a file entry. *)
Inductive property (A : Type) :=
| Own (a : A)
| Inherited
| Undefined.
Arguments Own {A} a.
Arguments Inherited {A}.
Arguments Undefined {A}.

Definition get {A} (members : list (string * A)) (k : string) : property A :=
  match assoc k members with
  | Some a => Own a
  | None => if inherited k then Inherited else Undefined
  end.

(** An array index: the canonical decimal form of an integer from 0 to
    2^32 - 2. *)
Definition array_index (s : string) : option N :=
  match NilZero.uint_of_string s with
  | Some u =>
      let n := N.of_uint u in
      if String.eqb (NilZero.string_of_uint (N.to_uint n)) s
         && (n <? 4294967295)%N
      then Some n else None
  | None => None
  end.

Definition is_index (s : string) : bool :=
  match array_index s with Some _ => true | None => false end.

Definition index_le (a b : string) : Prop :=
  (default 0 (array_index a) <=? default 0 (array_index b))%N = true.

Global Instance index_le_dec : RelDecision index_le.
Proof. intros a b. unfold index_le. apply _. Defined.

(** The names of a member list, each at its first occurrence. *)
Fixpoint first_occurrences (seen : list string) (l : list string) : list string :=
  match l with
  | [] => []
  | k :: rest =>
      if bool_decide (k ∈ seen) then first_occurrences seen rest
      else k :: first_occurrences (k :: seen) rest
  end.

(** [Object.keys(obj)]: the array indices in ascending numeric order,
    then the other names in creation order. *)
Definition keys {A} (members : list (string * A)) : list string :=
  let names := first_occurrences [] members.*1 in
  merge_sort index_le (filter (fun k => is_index k = true) names)
  ++ filter (fun k => is_index k = false) names.

End Obj.

(** [filemap.manifests || {}] *)
Definition manifests_of (fm : filemap) : list (string * manifest) :=
  default [] (fm_manifests fm).

(** [Object.keys(filemap.files)], as far as membership goes: [fm_files]
    does not record the order of the members. *)
Definition file_keys (fm : filemap) : list string :=
  (map_to_list (fm_files fm)).*1.

(** Invariants 1-3 of the data model for a shard list laid out from
    offset [o]: ascending contiguous offsets and non-negative sizes. *)
Fixpoint contiguous_from (o : Z) (l : list shard) : Prop :=
  match l with
  | [] => True
  | s :: l' => shard_offset s = o /\ 0 <= shard_size s
               /\ contiguous_from (o + shard_size s) l'
  end.

Definition sum_sizes (l : list shard) : Z :=
  foldr (fun s acc => shard_size s + acc) 0 l.

Definition shards_wf (e_size : Z) (l : list shard) : Prop :=
  contiguous_from 0 l /\ sum_sizes l = e_size.

(** ** HTTP-shaped values *)

Record response := Response {
  resp_status : Z;
  resp_headers : list (string * string);
  resp_body : option (list byte);
}.

Inductive http_reply :=
| HttpReply (status : Z) (body : list byte)
| NetworkError.

(** [r.ok] *)
Definition reply_ok (status : Z) : bool := (200 <=? status) && (status <=? 299).

(** The network as seen by the resolver: the [n]-th request issued, for
    a URL and an optional [Range] header, gets a reply. *)
Definition network := nat -> string -> option (Z * Z) -> http_reply.

(** ** State and exceptions *)

Inductive result (A : Type) :=
| Ok (a : A)
| Throw (err : string).
Arguments Ok {A} a.
Arguments Throw {A} err.

Definition M (W A : Type) : Type := W -> result A * W.

Definition ret {W A} (a : A) : M W A := fun w => (Ok a, w).
Definition throw {W A} (e : string) : M W A := fun w => (Throw e, w).
Definition bind {W A B} (m : M W A) (k : A -> M W B) : M W B :=
  fun w => match m w with
           | (Ok a, w') => k a w'
           | (Throw e, w') => (Throw e, w')
           end.
Definition try_catch {W A} (m : M W A) (h : string -> M W A) : M W A :=
  fun w => match m w with
           | (Ok a, w') => (Ok a, w')
           | (Throw e, w') => h e w'
           end.
Definition try_finally {W A} (m : M W A) (f : W -> W) : M W A :=
  fun w => let '(r, w') := m w in (r, f w').
Definition get {W} : M W W := fun w => (Ok w, w).
Definition modify {W} (f : W -> W) : M W unit := fun w => (Ok tt, f w).

Notation "x <- m ;; k" := (bind m (fun x => k))
  (at level 100, m at next level, right associativity).
Notation "m ;;; k" := (bind m (fun _ => k))
  (at level 100, right associativity).

Fixpoint mapM {W A B} (f : A -> M W B) (l : list A) : M W (list B) :=
  match l with
  | [] => ret []
  | a :: l' => b <- f a ;; bs <- mapM f l' ;; ret (b :: bs)
  end.

(** ** The range planner shared by both resolvers

    The loop of [respondRange] / [_respondRange] that selects, for each
    shard overlapping [start, end], the sub-range to read. *)

Record part := Part {
  part_file : string;
  subStart : Z;
  subEnd : Z;
  shardSize : Z;
}.

Fixpoint range_parts (start end_ : Z) (l : list shard) : list part :=
  match l with
  | [] => []
  | sh :: rest =>
      let sEnd := shard_offset sh + shard_size sh - 1 in
      if sEnd <? start then range_parts start end_ rest          (* continue *)
      else if shard_offset sh >? end_ then []                    (* break *)
      else Part (shard_file sh)
                (Z.max start (shard_offset sh) - shard_offset sh)
                (Z.min end_ sEnd - shard_offset sh)
                (shard_size sh)
           :: range_parts start end_ rest
  end.

Definition whole_shard (p : part) : bool :=
  (subStart p =? 0) && (subEnd p =? shardSize p - 1).

Definition content_range_unsatisfied (size : Z) : string :=
  ("bytes */" ++ JS.num_to_string size)%string.

Definition content_range (start end_ size : Z) : string :=
  ("bytes " ++ JS.num_to_string start ++ "-" ++ JS.num_to_string end_
            ++ "/" ++ JS.num_to_string size)%string.

Definition response_416 (size : Z) : response :=
  Response 416 [("Content-Range"%string, content_range_unsatisfied size)] None.

Definition response_206 (tag : string * string) (start end_ size : Z)
    (body : list byte) : response :=
  Response 206
    [("Content-Type", "application/octet-stream");
     ("Content-Range", content_range start end_ size);
     ("Content-Length", JS.num_to_string (end_ - start + 1));
     ("Accept-Ranges", "bytes");
     tag]%string
    (Some body).

(** ** Progress bookkeeping shared by both resolvers *)

Inductive pmode := Explicit | Adaptive | Fallback.

Global Instance pmode_eq_dec : EqDecision pmode.
Proof. solve_decision. Defined.

(** One value of the [files] map of a progress state: [{ size, loaded }]. *)
Record fprog := FProg { f_size : Z; f_loaded : Z }.

(** The progress message built by [doBroadcast] / [_recordProgress]. *)
Record progress_msg := ProgressMsg {
  msg_pathPrefix : string;
  msg_file : string;
  msg_fileLoaded : Z;
  msg_fileTotal : Z;
  msg_modelLoaded : Z;
  msg_modelTotal : Z;
  msg_percent : Z;
  msg_done : bool;
  msg_manifest : option string;
  msg_mode : pmode;
}.

(** [totalBytes > 0 ? Math.min(100, Math.round(loaded / total * 100)) : 0] *)
Definition percent_of (loaded total : Z) : Z :=
  if total >? 0 then Z.min 100 (JS.round_percent loaded total) else 0.

(** [st.finalized || (loadedBytes >= totalBytes && totalBytes > 0)] *)
Definition done_of (finalized : bool) (loaded total : Z) : bool :=
  finalized || ((loaded >=? total) && (total >? 0)).

(** The loop of [setFilesFromList] / [_setFiles], run on a cleared map and
    a zero total: one [files.set] and one [totalBytes +=] per listed path
    that the filemap knows. *)
Definition set_files_step (fm : filemap) (acc : gmap string fprog * Z) (vp : string)
    : gmap string fprog * Z :=
  match fm_files fm !! vp with
  | Some e => (<[vp := FProg (entry_size e) 0]> acc.1, acc.2 + entry_size e)
  | None => acc
  end.

Definition set_files_loop (fm : filemap) (vpList : list string)
    : gmap string fprog * Z :=
  fold_left (set_files_step fm) vpList (∅, 0).

(** [manifests[n].size]; the code only evaluates it for names it has just
    read from the same object. *)
Definition size_of_manifest (ms : list (string * manifest)) (n : string) : Z :=
  default 0 (manifest_size <$> assoc n ms).

(** [names.reduce((a, b) => manifests[a].size >= manifests[b].size ? a : b)] *)
Definition largest_of (ms : list (string * manifest)) (first : string)
    (others : list string) : string :=
  fold_left (fun a b => if size_of_manifest ms a >=? size_of_manifest ms b
                        then a else b) others first.

(** The member [manifests[st.selectedManifest]] names: a [null] is
    converted to the string ["null"]. *)
Definition selected_key (sel : option string) : string :=
  default "null"%string sel.

(** [f.loaded = Math.min(f.loaded + bytes, f.size)] *)
Definition bump (f : fprog) (bytes : Z) : fprog :=
  FProg (f_size f) (Z.min (f_loaded f + bytes) (f_size f)).

Definition sum_loaded (files : gmap string fprog) : Z :=
  map_fold (fun _ f acc => acc + f_loaded f) 0 files.

Definition path_join (a b : string) : string := (a ++ "/" ++ b)%string.

(** * model-resolver-node.mjs *)

Module Node.

Record source := Source {
  pathPrefix : string;
  cdnBase : string;
  localBase : string;
  manifest_name : string;
  progress : bool;
}.

Definition _sourceKey (s : source) : string :=
  if decide (localBase s = EmptyString) then cdnBase s else localBase s.

Record pstate := PState {
  mode : pmode;
  totalBytes : Z;
  loadedBytes : Z;
  files : gmap string fprog;
  activeFiles : gset string;
  candidates : list string;
  selectedManifest : option string;
  finalized : bool;
  lastFile : string;
}.

(** The state object [addSource] registers for a source with progress
    enabled. *)
Definition initial_state (manifest : string) : pstate :=
  let named := negb (String.eqb manifest EmptyString) in
  PState (if named then Explicit else Adaptive) 0 0 ∅ ∅ []
         (if named then Some manifest else None) false EmptyString.

Record world := World {
  cacheDir : string;
  retries : nat;
  fs : gmap string (list byte);       (* the local file system *)
  fs_writable : bool;                  (* whether writes succeed *)
  net : network;
  requests : nat;                      (* network requests issued so far *)
  _sources : list source;
  _filemaps : gmap string filemap;
  _filemapLoading : gset string;
  _progressState : gmap string pstate;
  delivered : list progress_msg;       (* what onProgress has received *)
}.

Definition set_fs (v : gmap string (list byte)) (w : world) : world :=
  World (cacheDir w) (retries w) v (fs_writable w) (net w) (requests w)
        (_sources w) (_filemaps w) (_filemapLoading w) (_progressState w)
        (delivered w).
Definition set_requests (v : nat) (w : world) : world :=
  World (cacheDir w) (retries w) (fs w) (fs_writable w) (net w) v
        (_sources w) (_filemaps w) (_filemapLoading w) (_progressState w)
        (delivered w).
Definition set_filemaps (v : gmap string filemap) (w : world) : world :=
  World (cacheDir w) (retries w) (fs w) (fs_writable w) (net w) (requests w)
        (_sources w) v (_filemapLoading w) (_progressState w) (delivered w).
Definition set_filemapLoading (v : gset string) (w : world) : world :=
  World (cacheDir w) (retries w) (fs w) (fs_writable w) (net w) (requests w)
        (_sources w) (_filemaps w) v (_progressState w) (delivered w).
Definition set_progressState (v : gmap string pstate) (w : world) : world :=
  World (cacheDir w) (retries w) (fs w) (fs_writable w) (net w) (requests w)
        (_sources w) (_filemaps w) (_filemapLoading w) v (delivered w).
Definition set_delivered (v : list progress_msg) (w : world) : world :=
  World (cacheDir w) (retries w) (fs w) (fs_writable w) (net w) (requests w)
        (_sources w) (_filemaps w) (_filemapLoading w) (_progressState w) v.

Section Resolver.

(** [crypto.createHash('sha256').update(s).digest('hex')] and the JSON
    codec are library functions; the resolver is generic in them. *)
Variable sha256_hex : string -> string.
Variable JSON_parse : list byte -> option filemap.
Variable JSON_stringify : filemap -> list byte.

(** *** File I/O *)

Definition _readLocal (base filename : string) : M world (list byte) :=
  fun w => match fs w !! path_join base filename with
           | Some buf => (Ok buf, w)
           | None => (Throw "[model-resolver] Local file not found", w)
           end.

(** [fs.mkdirSync(path.dirname(fp), { recursive: true });
    fs.writeFileSync(fp, buf)]: directories are implicit in [fs].  The
    volume either takes the write or, being read-only or closed to
    the process ([fs_writable] false), refuses it before anything
    changes.  Failures that strike between the two calls or in the
    middle of the write, and leave a new directory or a shortened
    file behind, are not represented. *)
Definition writeFileSync (fp : string) (buf : list byte) : M world unit :=
  fun w => if fs_writable w
           then (Ok tt, set_fs (<[fp := buf]> (fs w)) w)
           else (Throw "EACCES: permission denied", w).

Definition fetchFn (url : string) : M world http_reply :=
  fun w => (Ok (net w (requests w) url None), set_requests (S (requests w)) w).

Definition _shardCachePath (w : world) (url : string) : string :=
  path_join (path_join (cacheDir w) "shards")
            (substring 0 16 (sha256_hex url) ++ "_" ++ JS.last_segment url).

(** One iteration of the retry loop's [try] block. *)
Definition fetch_attempt (url cp : string) : M world (list byte) :=
  r <- fetchFn url ;;
  match r with
  | NetworkError => throw "fetch failed"
  | HttpReply status body =>
      if reply_ok status
      then (writeFileSync cp body ;;; ret body)
      else throw ("HTTP " ++ JS.num_to_string status ++ " for " ++ url)
  end.

(** [for (let i = 0; i < this.retries; i++) try {...} catch (e) { lastErr = e }]
    followed by [throw lastErr]; [n] counts the iterations left (the
    back-off sleeps between attempts leave the state alone). *)
Fixpoint retry_loop (url cp : string) (n : nat) (lastErr : string)
    : M world (list byte) :=
  match n with
  | O => throw lastErr
  | S n' => try_catch (fetch_attempt url cp)
                      (fun e => retry_loop url cp n' e)
  end.

Definition _fetchShardBuf (url : string) : M world (list byte) :=
  fun w =>
    let cp := _shardCachePath w url in
    match fs w !! cp with
    | Some buf => (Ok buf, w)
    | None => retry_loop url cp (retries w) "undefined" w
    end.

Definition read_shard (s : source) (file : string) : M world (list byte) :=
  if decide (localBase s = EmptyString)
  then _fetchShardBuf (cdnBase s ++ "/" ++ file)
  else _readLocal (localBase s) file.

(** *** Progress tracking *)

Definition _setFiles (st : pstate) (fm : filemap) (vpList : list string) : pstate :=
  let r := set_files_loop fm vpList in
  PState (mode st) r.2 (loadedBytes st) r.1 (activeFiles st)
         (candidates st) (selectedManifest st) (finalized st) (lastFile st).

(** The body of [_initProgressFromFilemap] once the state is found:
    the outcome and the state it leaves.  In explicit mode
    [manifests[st.selectedManifest]] is truthy also for a name that
    only [Object.prototype] defines; [m.files] is then [undefined],
    and [_setFiles] resets [totalBytes] and [files] before its loop
    over [undefined] throws. *)
Definition init_state (fm : filemap) (st : pstate) : result unit * pstate :=
  let manifests := manifests_of fm in
  let names := Obj.keys manifests in
  match mode st with
  | Explicit =>
      match Obj.get manifests (selected_key (selectedManifest st)) with
      | Obj.Own m => (Ok tt, _setFiles st fm (manifest_files m))
      | Obj.Inherited =>
          (Throw "TypeError: vpList is not iterable", _setFiles st fm [])
      | Obj.Undefined => (Ok tt, _setFiles st fm (file_keys fm))
      end
  | _ =>
      match names with
      | first :: others =>
          let largest := largest_of manifests first others in
          let st1 := PState Adaptive (totalBytes st) (loadedBytes st) (files st)
                            (activeFiles st) names (Some largest)
                            (finalized st) (lastFile st) in
          (Ok tt, _setFiles st1 fm
                    (default [] (manifest_files <$> assoc largest manifests)))
      | [] =>
          let st1 := PState Fallback (totalBytes st) (loadedBytes st) (files st)
                            (activeFiles st) (candidates st) (selectedManifest st)
                            (finalized st) (lastFile st) in
          (Ok tt, _setFiles st1 fm (file_keys fm))
      end
  end.

Definition _initProgressFromFilemap (sourceKey : string) (fm : filemap)
    : M world unit :=
  fun w =>
    match find (fun s => bool_decide (_sourceKey s = sourceKey)) (_sources w) with
    | Some s =>
        if progress s then
          match _progressState w !! pathPrefix s with
          | Some st =>
              let r := init_state fm st in
              (r.1, set_progressState
                      (<[pathPrefix s := r.2]> (_progressState w)) w)
          | None => (Ok tt, w)
          end
        else (Ok tt, w)
    | None => (Ok tt, w)
    end.

Definition track_state (rp : string) (sz : Z) (st : pstate) : pstate :=
  let act := {[rp]} ∪ activeFiles st in
  match files st !! rp with
  | Some _ =>
      PState (mode st) (totalBytes st) (loadedBytes st) (files st) act
             (candidates st) (selectedManifest st) (finalized st) (lastFile st)
  | None =>
      PState (mode st) (totalBytes st + sz) (loadedBytes st)
             (<[rp := FProg sz 0]> (files st)) act
             (candidates st) (selectedManifest st) (finalized st) (lastFile st)
  end.

Definition _trackFile (pp rp : string) (sz : Z) (w : world) : world :=
  match _progressState w !! pp with
  | Some st => set_progressState (<[pp := track_state rp sz st]> (_progressState w)) w
  | None => w
  end.

(** The counter update of [_recordProgress] on a state that tracks
    [relPath] as [f]. *)
Definition record_state (relPath : string) (f : fprog) (bytes : Z)
    (st : pstate) : pstate :=
  let f' := bump f bytes in
  let delta := f_loaded f' - f_loaded f in
  let fs' := <[relPath := f']> (files st) in
  if delta >? 0
  then PState (mode st) (totalBytes st) (loadedBytes st + delta) fs'
              (activeFiles st) (candidates st) (selectedManifest st)
              (finalized st) relPath
  else PState (mode st) (totalBytes st) (loadedBytes st) fs'
              (activeFiles st) (candidates st) (selectedManifest st)
              (finalized st) (lastFile st).

Definition progress_message (pp relPath : string) (st : pstate) : progress_msg :=
  let f := default (FProg 0 0) (files st !! relPath) in
  ProgressMsg pp relPath (f_loaded f) (f_size f)
              (loadedBytes st) (totalBytes st)
              (percent_of (loadedBytes st) (totalBytes st))
              (done_of (finalized st) (loadedBytes st) (totalBytes st))
              (selectedManifest st) (mode st).

Definition _recordProgress (s : source) (relPath : string) (bytes : Z)
    (w : world) : world :=
  if progress s then
    match _progressState w !! pathPrefix s with
    | Some st =>
        match files st !! relPath with
        | Some f =>
            let st' := record_state relPath f bytes st in
            set_delivered
              (delivered w ++ [progress_message (pathPrefix s) relPath st'])
              (set_progressState (<[pathPrefix s := st']> (_progressState w)) w)
        | None => w
        end
    | None => w
    end
  else w.

(** *** Responses *)

Definition full_headers (size : Z) : list (string * string) :=
  [("Content-Type", "application/octet-stream");
   ("Content-Length", JS.num_to_string size);
   ("Accept-Ranges", "bytes");
   ("X-Model-Resolver", "reassembled")]%string.

Definition shards_or_throw {A} (e : file_entry) (k : list shard -> M world A)
    : M world A :=
  match entry_shards e with
  | Some l => k l
  | None => throw "TypeError: entry.shards is not iterable"
  end.

Definition _respondFull (e : file_entry) (s : source) (relPath : string)
    : M world response :=
  shards_or_throw e (fun l =>
    buffers <- mapM (fun sh =>
                 buf <- read_shard s (shard_file sh) ;;
                 modify (_recordProgress s relPath (shard_size sh)) ;;;
                 ret buf) l ;;
    ret (Response 200 (full_headers (entry_size e)) (Some (concat buffers)))).

Definition read_part (s : source) (p : part) : M world (list byte) :=
  full <- read_shard s (part_file p) ;;
  ret (if whole_shard p then full
       else JS.slice full (subStart p) (subEnd p + 1)).

Definition _respondRange (e : file_entry) (s : source) (start end_ : Z)
    (relPath : string) : M world response :=
  let end_ := Z.min end_ (entry_size e - 1) in
  if (start >? end_) || (start >=? entry_size e)
  then ret (response_416 (entry_size e))
  else
    let length := end_ - start + 1 in
    shards_or_throw e (fun l =>
      match range_parts start end_ l with
      | [] => ret (response_416 (entry_size e))
      | parts =>
          buffers <- mapM (read_part s) parts ;;
          modify (_recordProgress s relPath length) ;;;
          ret (response_206 ("X-Model-Resolver", "range")%string
                            start end_ (entry_size e) (concat buffers))
      end).

(** *** Filemap loading *)

Definition filemap_cache_path (w : world) (sourceKey : string) : string :=
  path_join (path_join (cacheDir w) "filemaps")
            (substring 0 16 (sha256_hex sourceKey) ++ ".json").

Definition parse_or_throw (buf : list byte) : M world filemap :=
  match JSON_parse buf with
  | Some d => ret d
  | None => throw "SyntaxError: Unexpected token in JSON"
  end.

(** [let data; if (isLocal) { ... } else { ... }]: the document, from
    the flat directory, from the filemap cache, or from the CDN with a
    copy written to the cache. *)
Definition read_document (sourceKey : string) (isLocal : bool)
    : M world filemap :=
  if isLocal then
    fun w => match fs w !! path_join sourceKey "filemap.json" with
             | Some buf => parse_or_throw buf w
             | None => (Throw "filemap.json not found", w)
             end
  else
    fun w =>
      let cp := filemap_cache_path w sourceKey in
      match fs w !! cp with
      | Some buf => parse_or_throw buf w
      | None =>
          (r <- fetchFn (sourceKey ++ "/filemap.json") ;;
           match r with
           | NetworkError => throw "fetch failed"
           | HttpReply status body =>
               if reply_ok status then
                 d <- parse_or_throw body ;;
                 writeFileSync cp (JSON_stringify d) ;;;
                 ret d
               else throw ("HTTP " ++ JS.num_to_string status)
           end) w
      end.

(** The [try] block of the loader: obtain the document, whatever it
    says, store it and initialise progress from it. *)
Definition load_body (sourceKey : string) (isLocal : bool) : M world filemap :=
  data <- read_document sourceKey isLocal ;;
  modify (fun w => set_filemaps (<[sourceKey := data]> (_filemaps w)) w) ;;;
  _initProgressFromFilemap sourceKey data ;;;
  ret data.

(** Whether the loader reaches its [await]: only a remote source whose
    filemap is not in the cache directory is fetched. *)
Definition awaits_fetch (sourceKey : string) (isLocal : bool) (w : world) : bool :=
  negb isLocal
  && negb (bool_decide (is_Some (fs w !! filemap_cache_path w sourceKey))).

(** [_filemapLoading.set(sourceKey, (async () => { ... })())]: the
    async function runs up to its first [await] before its promise is
    stored.  A load that fails without reaching the [await] has run
    its [catch], and the [delete] in it, by then, so its promise, which
    resolves to [null], stays registered: a key in [_filemapLoading]
    without a filemap is such a promise, and every later call gets its
    [null].  A load that fails after the [await] removes its key. *)
Definition _loadFilemap (sourceKey : string) (isLocal : bool)
    : world -> option filemap * world :=
  fun w =>
    match _filemaps w !! sourceKey with
    | Some fm => (Some fm, w)
    | None =>
        if decide (sourceKey ∈ _filemapLoading w) then (None, w)
        else
          let register w' :=
            set_filemapLoading ({[sourceKey]} ∪ _filemapLoading w') w' in
          match load_body sourceKey isLocal w with
          | (Ok data, w2) => (Some data, register w2)
          | (Throw _, w2) =>
              if awaits_fetch sourceKey isLocal w then (None, w2)
              else (None, register w2)
          end
    end.

End Resolver.

End Node.

(** * model-sw.js *)

Module SW.

Definition PROGRESS_THROTTLE_MS : Z := 250.
Definition IDLE_TIMEOUT_MS : Z := 2000.

Record source := Source {
  pathPrefix : string;
  cdnBase : string;
  progress : bool;
  manifest_name : string;
}.

(** A pending timer is represented by the time at which it is due. *)
Record pstate := PState {
  mode : pmode;
  totalBytes : Z;
  loadedBytes : Z;
  files : gmap string fprog;
  activeFiles : gset string;
  candidates : list string;
  selectedManifest : option string;
  pendingFetches : Z;
  idleTimer : option Z;
  finalized : bool;
  lastBroadcast : Z;
  broadcastTimer : option Z;
  lastFile : string;
}.

Definition set_pendingFetches (v : Z) (st : pstate) : pstate :=
  PState (mode st) (totalBytes st) (loadedBytes st) (files st) (activeFiles st)
         (candidates st) (selectedManifest st) v (idleTimer st)
         (finalized st) (lastBroadcast st) (broadcastTimer st) (lastFile st).
Definition set_idleTimer (v : option Z) (st : pstate) : pstate :=
  PState (mode st) (totalBytes st) (loadedBytes st) (files st) (activeFiles st)
         (candidates st) (selectedManifest st) (pendingFetches st) v
         (finalized st) (lastBroadcast st) (broadcastTimer st) (lastFile st).
Definition set_finalized (v : bool) (st : pstate) : pstate :=
  PState (mode st) (totalBytes st) (loadedBytes st) (files st) (activeFiles st)
         (candidates st) (selectedManifest st) (pendingFetches st) (idleTimer st)
         v (lastBroadcast st) (broadcastTimer st) (lastFile st).
Definition set_lastBroadcast (v : Z) (st : pstate) : pstate :=
  PState (mode st) (totalBytes st) (loadedBytes st) (files st) (activeFiles st)
         (candidates st) (selectedManifest st) (pendingFetches st) (idleTimer st)
         (finalized st) v (broadcastTimer st) (lastFile st).
Definition set_broadcastTimer (v : option Z) (st : pstate) : pstate :=
  PState (mode st) (totalBytes st) (loadedBytes st) (files st) (activeFiles st)
         (candidates st) (selectedManifest st) (pendingFetches st) (idleTimer st)
         (finalized st) (lastBroadcast st) v (lastFile st).
(** [files], [totalBytes] and [loadedBytes] change together. *)
Definition set_counts (fs : gmap string fprog) (total loaded : Z) (st : pstate)
    : pstate :=
  PState (mode st) total loaded fs (activeFiles st)
         (candidates st) (selectedManifest st) (pendingFetches st) (idleTimer st)
         (finalized st) (lastBroadcast st) (broadcastTimer st) (lastFile st).
Definition set_selection (m : pmode) (cands : list string) (sel : option string)
    (st : pstate) : pstate :=
  PState m (totalBytes st) (loadedBytes st) (files st) (activeFiles st)
         cands sel (pendingFetches st) (idleTimer st)
         (finalized st) (lastBroadcast st) (broadcastTimer st) (lastFile st).
Definition set_activeFiles (v : gset string) (st : pstate) : pstate :=
  PState (mode st) (totalBytes st) (loadedBytes st) (files st) v
         (candidates st) (selectedManifest st) (pendingFetches st) (idleTimer st)
         (finalized st) (lastBroadcast st) (broadcastTimer st) (lastFile st).
Definition set_lastFile (v : string) (st : pstate) : pstate :=
  PState (mode st) (totalBytes st) (loadedBytes st) (files st) (activeFiles st)
         (candidates st) (selectedManifest st) (pendingFetches st) (idleTimer st)
         (finalized st) (lastBroadcast st) (broadcastTimer st) v.

(** The worker's global state.  [shardInflight] maps a URL to the outcome
    of the promise stored for it; [posted] is what window clients have
    been sent, oldest first; [now] is [performance.now()]. *)
Record world := World {
  sources : list source;
  filemaps : gmap string filemap;
  filemapLoading : gset string;
  shardInflight : gmap string (result (list byte));
  cache : gmap string (list byte);
  cache_available : bool;
  net : network;
  requests : nat;
  progressState : gmap string pstate;
  posted : list progress_msg;
  now : Z;
}.

Definition set_sources (v : list source) (w : world) : world :=
  World v (filemaps w) (filemapLoading w) (shardInflight w) (cache w)
        (cache_available w) (net w) (requests w) (progressState w) (posted w) (now w).
Definition set_filemaps (v : gmap string filemap) (w : world) : world :=
  World (sources w) v (filemapLoading w) (shardInflight w) (cache w)
        (cache_available w) (net w) (requests w) (progressState w) (posted w) (now w).
Definition set_filemapLoading (v : gset string) (w : world) : world :=
  World (sources w) (filemaps w) v (shardInflight w) (cache w)
        (cache_available w) (net w) (requests w) (progressState w) (posted w) (now w).
Definition set_shardInflight (v : gmap string (result (list byte))) (w : world) : world :=
  World (sources w) (filemaps w) (filemapLoading w) v (cache w)
        (cache_available w) (net w) (requests w) (progressState w) (posted w) (now w).
Definition set_cache (v : gmap string (list byte)) (w : world) : world :=
  World (sources w) (filemaps w) (filemapLoading w) (shardInflight w) v
        (cache_available w) (net w) (requests w) (progressState w) (posted w) (now w).
Definition set_requests (v : nat) (w : world) : world :=
  World (sources w) (filemaps w) (filemapLoading w) (shardInflight w) (cache w)
        (cache_available w) (net w) v (progressState w) (posted w) (now w).
Definition set_progressState (v : gmap string pstate) (w : world) : world :=
  World (sources w) (filemaps w) (filemapLoading w) (shardInflight w) (cache w)
        (cache_available w) (net w) (requests w) v (posted w) (now w).
Definition set_posted (v : list progress_msg) (w : world) : world :=
  World (sources w) (filemaps w) (filemapLoading w) (shardInflight w) (cache w)
        (cache_available w) (net w) (requests w) (progressState w) v (now w).
Definition set_now (v : Z) (w : world) : world :=
  World (sources w) (filemaps w) (filemapLoading w) (shardInflight w) (cache w)
        (cache_available w) (net w) (requests w) (progressState w) (posted w) v.

(** Run [f] on the progress state registered for [pp], if any. *)
Definition with_state (pp : string) (f : pstate -> pstate) (w : world) : world :=
  match progressState w !! pp with
  | Some st => set_progressState (<[pp := f st]> (progressState w)) w
  | None => w
  end.

Definition makeProgressState (manifestName : string) : pstate :=
  let named := negb (String.eqb manifestName EmptyString) in
  PState (if named then Explicit else Adaptive) 0 0 ∅ ∅ []
         (if named then Some manifestName else None)
         0 None false 0 None EmptyString.

(** *** Filemap -> progress init *)

Definition setFilesFromList (st : pstate) (fm : filemap) (vpList : list string)
    : pstate :=
  let r := set_files_loop fm vpList in
  set_counts r.1 r.2 (loadedBytes st) st.

(** The body of [initProgressFromFilemap] once the state is found: the
    outcome and the state it leaves.  In explicit mode
    [manifests[st.selectedManifest]] is truthy also for a name that only
    [Object.prototype] defines; [m.files] is then [undefined], and
    [setFilesFromList] resets [totalBytes] and [files] before its loop
    over [undefined] throws. *)
Definition init_state (fm : filemap) (st : pstate) : result unit * pstate :=
  let manifests := manifests_of fm in
  let names := Obj.keys manifests in
  match mode st with
  | Explicit =>
      match Obj.get manifests (selected_key (selectedManifest st)) with
      | Obj.Own m => (Ok tt, setFilesFromList st fm (manifest_files m))
      | Obj.Inherited =>
          (Throw "TypeError: vpList is not iterable", setFilesFromList st fm [])
      | Obj.Undefined => (Ok tt, setFilesFromList st fm (file_keys fm))
      end
  | _ =>
      match names with
      | first :: others =>
          let largest := largest_of manifests first others in
          (Ok tt,
           setFilesFromList (set_selection Adaptive names (Some largest) st) fm
             (default [] (manifest_files <$> assoc largest manifests)))
      | [] =>
          (Ok tt,
           setFilesFromList
             (set_selection Fallback (candidates st) (selectedManifest st) st)
             fm (file_keys fm))
      end
  end.

Definition initProgressFromFilemap (base : string) (fm : filemap)
    : M world unit :=
  fun w =>
    match find (fun s => bool_decide (cdnBase s = base)) (sources w) with
    | Some s =>
        if progress s then
          match progressState w !! pathPrefix s with
          | Some st =>
              let r := init_state fm st in
              (r.1, set_progressState
                      (<[pathPrefix s := r.2]> (progressState w)) w)
          | None => (Ok tt, w)
          end
        else (Ok tt, w)
    | None => (Ok tt, w)
    end.

(** *** Adaptive narrowing *)

(** [fm.manifests[n]?.files?.includes(relPath)] *)
Definition lists_file (ms : list (string * manifest)) (relPath n : string) : bool :=
  match assoc n ms with
  | Some m => bool_decide (relPath ∈ manifest_files m)
  | None => false
  end.

(** The save / repopulate / restore block. *)
Definition restore (saved : gmap string Z) (vp : string) (f : fprog) : fprog :=
  match saved !! vp with
  | Some old => FProg (f_size f) (Z.min old (f_size f))
  | None => f
  end.

Definition switch_manifest (fm : filemap) (largest : string) (st : pstate)
    : pstate :=
  let saved := f_loaded <$> files st in
  let st1 := setFilesFromList
               (set_selection (mode st) (candidates st) (Some largest) st) fm
               (default [] (manifest_files <$> assoc largest (manifests_of fm))) in
  let fs := map_imap (fun vp f => Some (restore saved vp f)) (files st1) in
  set_counts fs (totalBytes st1) (sum_loaded fs) st1.

Definition narrow_state (fm : filemap) (relPath : string) (st : pstate) : pstate :=
  match fm_manifests fm with
  | None => st
  | Some ms =>
      let remaining := filter (fun n => lists_file ms relPath n = true)
                              (candidates st) in
      match remaining with
      | [] => st
      | first :: others =>
          if decide (length remaining = length (candidates st)) then st
          else
            let st1 := set_selection (mode st) remaining (selectedManifest st) st in
            let largest := largest_of ms first others in
            if decide (Some largest = selectedManifest st1) then st1
            else switch_manifest fm largest st1
      end
  end.

Definition narrowManifest (pp relPath : string) (w : world) : world :=
  match progressState w !! pp with
  | Some st =>
      match mode st, finalized st with
      | Adaptive, false =>
          match find (fun s => bool_decide (pathPrefix s = pp)) (sources w) with
          | Some s =>
              match filemaps w !! cdnBase s with
              | Some fm => with_state pp (narrow_state fm relPath) w
              | None => w
              end
          | None => w
          end
      | _, _ => w
      end
  | None => w
  end.

(** *** Broadcasting *)

Definition broadcast_message (pp : string) (st : pstate) : progress_msg :=
  let f := files st !! lastFile st in
  ProgressMsg pp (lastFile st)
              (default 0 (f_loaded <$> f)) (default 0 (f_size <$> f))
              (loadedBytes st) (totalBytes st)
              (percent_of (loadedBytes st) (totalBytes st))
              (done_of (finalized st) (loadedBytes st) (totalBytes st))
              (selectedManifest st) (mode st).

Definition doBroadcast (pp : string) (w : world) : world :=
  match progressState w !! pp with
  | Some st =>
      let st' := set_lastBroadcast (now w) st in
      set_posted (posted w ++ [broadcast_message pp st'])
                 (set_progressState (<[pp := st']> (progressState w)) w)
  | None => w
  end.

Definition scheduleProgress (pp : string) (w : world) : world :=
  match progressState w !! pp with
  | Some st =>
      if done_of (finalized st) (loadedBytes st) (totalBytes st)
      then doBroadcast pp (with_state pp (set_broadcastTimer None) w)
      else
        let elapsed := now w - lastBroadcast st in
        if elapsed >=? PROGRESS_THROTTLE_MS then doBroadcast pp w
        else match broadcastTimer st with
             | None => with_state pp
                         (set_broadcastTimer
                            (Some (now w + (PROGRESS_THROTTLE_MS - elapsed)))) w
             | Some _ => w
             end
  | None => w
  end.

(** The callback of the throttle timer. *)
Definition broadcastTimer_fires (pp : string) (w : world) : world :=
  match progressState w !! pp with
  | Some st =>
      match broadcastTimer st with
      | Some due =>
          if due <=? now w
          then doBroadcast pp (with_state pp (set_broadcastTimer None) w)
          else w
      | None => w
      end
  | None => w
  end.

(** *** Idle detection and finalization *)

Definition onFetchStart (pp : string) (w : world) : world :=
  with_state pp (fun st =>
    set_idleTimer None (set_pendingFetches (pendingFetches st + 1) st)) w.

Definition onFetchEnd (pp : string) (w : world) : world :=
  with_state pp (fun st =>
    let st1 := set_pendingFetches (Z.max 0 (pendingFetches st - 1)) st in
    if (pendingFetches st1 =? 0) && negb (finalized st1)
       && negb (bool_decide (mode st1 = Explicit))
    then set_idleTimer (Some (now w + IDLE_TIMEOUT_MS)) st1
    else st1) w.

(** The loop over [activeFiles]: sum the sizes of the tracked ones and
    mark each of them fully loaded. *)
Definition finalize_step (vp : string) (acc : gmap string fprog * Z)
    : gmap string fprog * Z :=
  match acc.1 !! vp with
  | Some f => (<[vp := FProg (f_size f) (f_size f)]> acc.1, acc.2 + f_size f)
  | None => acc
  end.

Definition finalize_state (st : pstate) : pstate :=
  let st1 := set_broadcastTimer None (set_idleTimer None (set_finalized true st)) in
  let r := foldr finalize_step (files st1, 0) (elements (activeFiles st1)) in
  let total := if r.2 =? 0 then loadedBytes st1 else r.2 in
  set_counts r.1 total total st1.

Definition finalizeProgress (pp : string) (w : world) : world :=
  match progressState w !! pp with
  | Some st =>
      if finalized st then w
      else doBroadcast pp (with_state pp finalize_state w)
  | None => w
  end.

(** The callback of the idle timer. *)
Definition idleTimer_fires (pp : string) (w : world) : world :=
  match progressState w !! pp with
  | Some st =>
      match idleTimer st with
      | Some due =>
          if due <=? now w then
            let w1 := with_state pp (set_idleTimer None) w in
            if (pendingFetches st =? 0) && negb (finalized st)
            then finalizeProgress pp w1 else w1
          else w
      | None => w
      end
  | None => w
  end.

(** *** Core progress helpers *)

Definition track_state (relPath : string) (fileSize : Z) (st : pstate) : pstate :=
  let st1 := set_activeFiles ({[relPath]} ∪ activeFiles st) st in
  match files st1 !! relPath with
  | Some _ => st1
  | None => set_counts (<[relPath := FProg fileSize 0]> (files st1))
                       (totalBytes st1 + fileSize) (loadedBytes st1) st1
  end.

Definition trackFile (pp relPath : string) (fileSize : Z) (w : world) : world :=
  with_state pp (track_state relPath fileSize) w.

Definition record_state (relPath : string) (bytes : Z) (st : pstate) : pstate :=
  match files st !! relPath with
  | Some f =>
      let f' := bump f bytes in
      let delta := f_loaded f' - f_loaded f in
      let fs' := <[relPath := f']> (files st) in
      if delta >? 0
      then set_lastFile relPath
             (set_counts fs' (totalBytes st) (loadedBytes st + delta) st)
      else set_counts fs' (totalBytes st) (loadedBytes st) st
  | None => st
  end.

Definition recordProgress (pp relPath : string) (bytes : Z) (w : world) : world :=
  with_state pp (record_state relPath bytes) w.

(** *** Network and Cache Storage *)

(** [fetch(url, { mode: 'cors', headers })]: a rejected promise is an
    exception at the [await]. *)
Definition fetch (url : string) (range : option (Z * Z)) : M world (Z * list byte) :=
  fun w =>
    let w' := set_requests (S (requests w)) w in
    match net w (requests w) url range with
    | HttpReply status body => (Ok (status, body), w')
    | NetworkError => (Throw "TypeError: Failed to fetch", w')
    end.

(** [try { (await caches.open(..)).match(url) } catch (_) {}] *)
Definition cache_match (url : string) (w : world) : option (list byte) :=
  if cache_available w then cache w !! url else None.

(** [try { await c.put(url, new Response(buf.slice(0))) } catch (_) {}] *)
Definition cache_put (url : string) (buf : list byte) (w : world) : world :=
  if cache_available w then set_cache (<[url := buf]> (cache w)) w else w.

Definition proxiedFetch (url : string) : M world response :=
  r <- fetch url None ;;
  if reply_ok r.1
  then ret (Response r.1
              [("Content-Type", "application/octet-stream");
               ("Content-Length", JS.num_to_string (Z.of_nat (length r.2)));
               ("X-Model-SW", "proxied-fallback")]%string
              (Some r.2))
  else ret (Response r.1 [] None).

(** *** Shard fetching *)

(** The promise started in step 3 of [fetchShard]. *)
Definition shard_task (url : string) : M world (list byte) :=
  r <- fetch url None ;;
  if reply_ok r.1
  then (modify (cache_put url r.2) ;;; ret r.2)
  else throw ("[model-sw] " ++ JS.num_to_string r.1 ++ " " ++ url).

Definition fetchShard (file : string) (s : source) : M world (list byte) :=
  let url := (cdnBase s ++ "/" ++ file)%string in
  fun w =>
    match cache_match url w with
    | Some hit => (Ok hit, w)
    | None =>
        match shardInflight w !! url with
        | Some settled => (settled, w)
        | None =>
            try_finally
              (fun w0 =>
                 let '(r, w1) := shard_task url w0 in
                 (r, set_shardInflight (<[url := r]> (shardInflight w1)) w1))
              (fun w2 => set_shardInflight (delete url (shardInflight w2)) w2)
              w
        end
    end.

Definition fetchShardSlice (file : string) (s : source) (sub0 sub1 : Z)
    : M world (list byte) :=
  let url := (cdnBase s ++ "/" ++ file)%string in
  fun w =>
    match cache_match url w with
    | Some full => (Ok (JS.slice full sub0 (sub1 + 1)), w)
    | None =>
        (* the [try] block either returns or falls through *)
        (direct <- try_catch
                     (r <- fetch url (Some (sub0, sub1)) ;;
                      if r.1 =? 206 then ret (Some r.2)
                      else if reply_ok r.1
                      then (modify (cache_put url r.2) ;;;
                            ret (Some (JS.slice r.2 sub0 (sub1 + 1))))
                      else ret None)
                     (fun _ => ret None) ;;
         match direct with
         | Some buf => ret buf
         | None => full <- fetchShard file s ;; ret (JS.slice full sub0 (sub1 + 1))
         end) w
    end.

(** *** Responses *)

Definition full_headers (size : Z) : list (string * string) :=
  [("Content-Type", "application/octet-stream");
   ("Content-Length", JS.num_to_string size);
   ("Accept-Ranges", "bytes");
   ("X-Model-SW", "reassembled")]%string.

Definition fetch_end (s : source) (w : world) : world :=
  if progress s then onFetchEnd (pathPrefix s) w else w.

(** [respondFull] hands back a stream; this is the stream read to its
    end, an exception standing for [controller.error]. *)
Definition respondFull (e : file_entry) (s : source) (relPath : string)
    : M world response :=
  try_finally
    (chunks <- mapM (fun sh =>
                 buf <- fetchShard (shard_file sh) s ;;
                 modify (fun w =>
                   if progress s
                   then scheduleProgress (pathPrefix s)
                          (recordProgress (pathPrefix s) relPath (shard_size sh) w)
                   else w) ;;;
                 ret buf) (default [] (entry_shards e)) ;;
     ret (Response 200 (full_headers (entry_size e)) (Some (concat chunks))))
    (fetch_end s).

Definition fetch_part (s : source) (p : part) : M world (list byte) :=
  if whole_shard p then fetchShard (part_file p) s
  else fetchShardSlice (part_file p) s (subStart p) (subEnd p).

Definition respondRange (e : file_entry) (s : source) (start end_ : Z)
    (relPath : string) : M world response :=
  let end_ := Z.min end_ (entry_size e - 1) in
  if (start >? end_) || (start >=? entry_size e)
  then ret (response_416 (entry_size e))
  else
    let length := end_ - start + 1 in
    match entry_shards e with
    | None => throw "TypeError: entry.shards is not iterable"
    | Some l =>
        match range_parts start end_ l with
        | [] => ret (response_416 (entry_size e))
        | parts =>
            buffers <- mapM (fetch_part s) parts ;;
            modify (recordProgress (pathPrefix s) relPath length) ;;;
            modify (scheduleProgress (pathPrefix s)) ;;;
            ret (response_206 ("X-Model-SW", "range")%string
                              start end_ (entry_size e) (concat buffers))
        end
    end.

(** *** Registration helpers *)

Fixpoint ends_with_slash (s : string) : bool :=
  match s with
  | EmptyString => false
  | String c EmptyString => Ascii.eqb c "/"
  | String _ s' => ends_with_slash s'
  end.

(** [s.replace(/\/+$/, '')] *)
Fixpoint strip_trailing_slashes (s : string) : string :=
  match s with
  | EmptyString => EmptyString
  | String c s' =>
      let r := strip_trailing_slashes s' in
      if Ascii.eqb c "/" && String.eqb r EmptyString then EmptyString else String c r
  end.

Definition normalise (s : source) : source :=
  Source (if ends_with_slash (pathPrefix s) then pathPrefix s
          else (pathPrefix s ++ "/")%string)
         (strip_trailing_slashes (cdnBase s))
         (progress s) (manifest_name s).

Definition matchSource (pathname : string) (w : world) : option (source * string) :=
  match find (fun s =>
                String.prefix (pathPrefix s) pathname
                && negb (String.eqb
                           (substring (String.length (pathPrefix s))
                                      (String.length pathname) pathname) EmptyString))
             (sources w) with
  | Some s => Some (s, substring (String.length (pathPrefix s))
                                 (String.length pathname) pathname)
  | None => None
  end.

Section Worker.

(** [r.json()]: the body parsed into a filemap; [None] when it throws. *)
Variable JSON_parse : list byte -> option filemap.

(** *** Filemap loading *)

Definition load_body (base : string) : M world filemap :=
  r <- fetch (base ++ "/filemap.json") None ;;
  if reply_ok r.1 then
    match JSON_parse r.2 with
    | Some data =>
        modify (fun w => set_filemaps (<[base := data]> (filemaps w)) w) ;;;
        initProgressFromFilemap base data ;;;
        ret data
    | None => throw "SyntaxError: Unexpected token in JSON"
    end
  else throw ("HTTP " ++ JS.num_to_string r.1).

(** The async function is suspended at [await fetch(...)] when its
    promise is stored, so the [delete] of its [catch] removes the key:
    a key in [filemapLoading] without a filemap would be a load still
    pending.  The [catch] also takes an exception thrown by
    [initProgressFromFilemap], after the document has been stored. *)
Definition loadFilemap (base : string) : world -> option filemap * world :=
  fun w =>
    match filemaps w !! base with
    | Some fm => (Some fm, w)
    | None =>
        if decide (base ∈ filemapLoading w) then (None, w)
        else
          let w1 := set_filemapLoading ({[base]} ∪ filemapLoading w) w in
          match load_body base w1 with
          | (Ok data, w2) => (Some data, w2)
          | (Throw _, w2) =>
              (None, set_filemapLoading (filemapLoading w2 ∖ {[base]}) w2)
          end
    end.

(** *** Fetch interception *)

Definition handleModelFetch (range : option (Z * option Z)) (s : source)
    (relPath : string) : M world response :=
  fun w =>
    let '(map, w1) := loadFilemap (cdnBase s) w in
    let proxied := proxiedFetch (cdnBase s ++ "/" ++ relPath) in
    match map ≫= (fun fm => fm_files fm !! relPath) with
    | None => proxied w1
    | Some e =>
        let pp := pathPrefix s in
        let w2 := if progress s
                  then onFetchStart pp
                         (trackFile pp relPath (entry_size e)
                            (narrowManifest pp relPath w1))
                  else w1 in
        match entry_shards e with
        | None =>
            let cdnFile := default relPath (entry_cdn_file e) in
            try_finally
              (body <- fetchShard cdnFile s ;;
               modify (recordProgress pp relPath (entry_size e)) ;;;
               modify (scheduleProgress pp) ;;;
               ret (Response 200
                      [("Content-Type", "application/octet-stream");
                       ("Content-Length",
                        JS.num_to_string (Z.of_nat (length body)));
                       ("X-Model-SW", "proxied")]%string
                      (Some body)))
              (fetch_end s) w2
        | Some _ =>
            match range with
            | None => respondFull e s relPath w2
            | Some (start, oend) =>
                try_finally
                  (respondRange e s start (default (entry_size e - 1) oend)
                                relPath)
                  (fetch_end s) w2
            end
        end
    end.

(** *** The worker's event loop

    What can happen to the worker: a control message from the page, an
    intercepted request (its [Range] header already parsed into a
    start and an optional end), the passing of time, and a timer
    coming due. *)
Inductive event :=
| MODEL_SW_INIT (cfg : list source)
| MODEL_SW_COMPLETE (pp : string)
| FetchEvent (pathname : string) (range : option (Z * option Z))
| Elapse (ms : Z)
| IdleTimerDue (pp : string)
| BroadcastTimerDue (pp : string).

Definition on_init (cfg : list source) (w : world) : world :=
  let srcs := normalise <$> cfg in
  let w1 := set_progressState ∅
              (set_filemapLoading ∅ (set_filemaps ∅ (set_sources srcs w))) in
  let w2 := fold_left (fun w s =>
              if progress s
              then set_progressState
                     (<[pathPrefix s := makeProgressState (manifest_name s)]>
                        (progressState w)) w
              else w) srcs w1 in
  (* the loads were started first but complete after the handler *)
  fold_left (fun w s => (loadFilemap (cdnBase s) w).2) srcs w2.

Definition step (ev : event) (w : world) : world :=
  match ev with
  | MODEL_SW_INIT cfg => on_init cfg w
  | MODEL_SW_COMPLETE pp => finalizeProgress pp w
  | FetchEvent pathname range =>
      match matchSource pathname w with
      | Some (s, relPath) => (handleModelFetch range s relPath w).2
      | None => w
      end
  | Elapse ms => set_now (now w + Z.max 0 ms) w
  | IdleTimerDue pp => idleTimer_fires pp w
  | BroadcastTimerDue pp => broadcastTimer_fires pp w
  end.

Definition run (evs : list event) (w : world) : world :=
  fold_left (fun w ev => step ev w) evs w.

End Worker.

End SW.

(** * model-sw.js: interleavings of shard fetches

    The worker runs on one event loop: code between two [await]s is
    atomic, and any other request may run at an [await].  This is the
    transition system of [fetchShard] and [fetchShardSlice] at that
    granularity.  A task is the promise stored in [shardInflight]; a
    caller is one invocation of either function. *)

Module Dedup.

Inductive outcome :=
| Fulfilled (buf : list byte)
| Rejected.

Inductive task_state :=
| Fetching                       (* [fetch(url)] and its body are under way *)
| Writing (buf : list byte)      (* awaiting the write-through [c.put] *)
| Settled (o : outcome).

Record task := Task { t_url : string; t_state : task_state }.

Inductive pc :=
| SliceAtCache (url : string)    (* fetchShardSlice awaiting its cache lookup *)
| SliceFetching (url : string)   (* fetchShardSlice awaiting its Range request *)
| AtCache (url : string)         (* fetchShard step 1: awaiting the cache lookup *)
| Joined (pid : nat)             (* fetchShard step 2: awaiting the stored promise *)
| Owner (url : string) (pid : nat)  (* fetchShard step 3: awaiting its own promise *)
| Returned (o : outcome).

(** [c_slice] is the sub-range a [fetchShardSlice] caller cuts out of
    whatever full buffer it ends up with. *)
Record caller := Caller { c_slice : option (Z * Z); c_pc : pc }.

Record state := State {
  cache : gmap string (list byte);
  shardInflight : gmap string nat;
  tasks : list task;
  callers : list caller;
}.

Definition initial (c : gmap string (list byte)) : state := State c ∅ [] [].

Inductive label :=
| CallFetchShard (url : string)
| CallFetchShardSlice (url : string) (sub0 sub1 : Z)
| CacheLookupDone (c : nat) (cache_ok : bool)
| NetworkDone (pid : nat) (reply : http_reply)
| CachePutDone (pid : nat) (cache_ok : bool)
| RangeDone (c : nat) (reply : http_reply)
| Resume (c : nat).

Definition cut (sl : option (Z * Z)) (buf : list byte) : list byte :=
  match sl with
  | Some (sub0, sub1) => JS.slice buf sub0 (sub1 + 1)
  | None => buf
  end.

Definition cut_outcome (sl : option (Z * Z)) (o : outcome) : outcome :=
  match o with
  | Fulfilled buf => Fulfilled (cut sl buf)
  | Rejected => Rejected
  end.

Definition set_caller (c : nat) (p : pc) (s : state) : state :=
  match callers s !! c with
  | Some k => State (cache s) (shardInflight s) (tasks s)
                    (<[c := Caller (c_slice k) p]> (callers s))
  | None => s
  end.

Definition set_task (pid : nat) (ts : task_state) (s : state) : state :=
  match tasks s !! pid with
  | Some t => State (cache s) (shardInflight s)
                    (<[pid := Task (t_url t) ts]> (tasks s)) (callers s)
  | None => s
  end.

(** Steps 2 and 3 of [fetchShard], which run without an [await] in
    between: join the stored promise, or start the fetch and store it. *)
Definition join_or_start (c : nat) (url : string) (s : state) : state :=
  match shardInflight s !! url with
  | Some pid => set_caller c (Joined pid) s
  | None =>
      let pid := length (tasks s) in
      set_caller c (Owner url pid)
        (State (cache s) (<[url := pid]> (shardInflight s))
               (tasks s ++ [Task url Fetching]) (callers s))
  end.

Definition step (l : label) (s : state) : option state :=
  match l with
  | CallFetchShard url =>
      Some (State (cache s) (shardInflight s) (tasks s)
                  (callers s ++ [Caller None (AtCache url)]))
  | CallFetchShardSlice url sub0 sub1 =>
      Some (State (cache s) (shardInflight s) (tasks s)
                  (callers s ++ [Caller (Some (sub0, sub1)) (SliceAtCache url)]))
  | CacheLookupDone c cache_ok =>
      k ← callers s !! c;
      let hit url := if cache_ok then cache s !! url else None in
      match c_pc k with
      | AtCache url =>
          match hit url with
          | Some buf => Some (set_caller c (Returned (Fulfilled (cut (c_slice k) buf))) s)
          | None => Some (join_or_start c url s)
          end
      | SliceAtCache url =>
          match hit url with
          | Some buf => Some (set_caller c (Returned (Fulfilled (cut (c_slice k) buf))) s)
          | None => Some (set_caller c (SliceFetching url) s)
          end
      | _ => None
      end
  | NetworkDone pid reply =>
      t ← tasks s !! pid;
      match t_state t with
      | Fetching =>
          match reply with
          | HttpReply status body =>
              if reply_ok status then Some (set_task pid (Writing body) s)
              else Some (set_task pid (Settled Rejected) s)
          | NetworkError => Some (set_task pid (Settled Rejected) s)
          end
      | _ => None
      end
  | CachePutDone pid cache_ok =>
      t ← tasks s !! pid;
      match t_state t with
      | Writing buf =>
          let s' := if cache_ok
                    then State (<[t_url t := buf]> (cache s)) (shardInflight s)
                               (tasks s) (callers s)
                    else s in
          Some (set_task pid (Settled (Fulfilled buf)) s')
      | _ => None
      end
  | RangeDone c reply =>
      k ← callers s !! c;
      match c_pc k with
      | SliceFetching url =>
          match reply with
          | HttpReply status body =>
              if status =? 206 then Some (set_caller c (Returned (Fulfilled body)) s)
              else if reply_ok status
              then Some (set_caller c (Returned (Fulfilled (cut (c_slice k) body)))
                           (State (<[url := body]> (cache s)) (shardInflight s)
                                  (tasks s) (callers s)))
              else Some (set_caller c (AtCache url) s)
          | NetworkError => Some (set_caller c (AtCache url) s)
          end
      | _ => None
      end
  | Resume c =>
      k ← callers s !! c;
      match c_pc k with
      | Joined pid =>
          t ← tasks s !! pid;
          match t_state t with
          | Settled o => Some (set_caller c (Returned (cut_outcome (c_slice k) o)) s)
          | _ => None
          end
      | Owner url pid =>
          t ← tasks s !! pid;
          match t_state t with
          | Settled o =>
              (* [finally { shardInflight.delete(url) }] *)
              Some (set_caller c (Returned (cut_outcome (c_slice k) o))
                      (State (cache s) (delete url (shardInflight s))
                             (tasks s) (callers s)))
          | _ => None
          end
      | _ => None
      end
  end.

Fixpoint exec (ls : list label) (s : state) : option state :=
  match ls with
  | [] => Some s
  | l :: ls' => s' ← step l s; exec ls' s'
  end.

Definition fetching (url : string) (t : task) : bool :=
  bool_decide (t_url t = url) &&
  match t_state t with Fetching => true | _ => false end.

Definition range_fetching (url : string) (k : caller) : bool :=
  match c_pc k with
  | SliceFetching u => bool_decide (u = url)
  | _ => false
  end.

(** Network fetches under way for [url]: full-shard fetches started by
    [fetchShard], and Range requests issued by [fetchShardSlice]. *)
Definition full_fetches (url : string) (s : state) : nat :=
  length (List.filter (fetching url) (tasks s)).
Definition range_fetches (url : string) (s : state) : nat :=
  length (List.filter (range_fetching url) (callers s)).
Definition network_fetches (url : string) (s : state) : nat :=
  (full_fetches url s + range_fetches url s)%nat.

End Dedup.

(** * model-packager.sh, phase 4: byte-split

    Phase 4 for a run in which no deliverable is a dedup reference
    ([DELIV_SKIP] is ["no"] throughout), as in every run that finds no
    [filemap.json] in the output directory.  The output directory is
    flat: a finite map from file names to contents.  [FILEMAP_ENTRIES],
    the JSON text the loop appends to, is modelled by the list of the
    entries it describes; phase 5, which hands that text to Python, is
    not modelled. *)

Module Packager.

(** One index of the arrays [DELIV_VP], [DELIV_PP] (as the bytes of the
    file at that path), [DELIV_SRC] and [DELIV_FLAT]. *)
Record deliverable := Deliverable {
  d_vp : string;
  d_pp : list byte;
  d_src : string;
  d_flat : string;
}.

(** Byte order, the collation of the C locale. *)
Definition collate_le (a b : string) : Prop := String.leb a b = true.

Global Instance collate_le_dec : RelDecision collate_le.
Proof. intros a b. unfold collate_le. apply _. Defined.

Section Phase4.

Variable CHUNK_SIZE : Z.
Variable file_sha256 : list byte -> string.
Variable KEEP_INTERMEDIATES : bool.

(** [get_size] *)
Definition get_size (content : list byte) : Z := Z.of_nat (length content).

(** [needs_byte_split]: [(( size > CHUNK_SIZE ))] *)
Definition needs_byte_split (content : list byte) : bool :=
  get_size content >? CHUNK_SIZE.

(** The pieces [split -b n] cuts a file into. *)
Fixpoint pieces (fuel : nat) (n : nat) (l : list byte) : list (list byte) :=
  match fuel with
  | O => []
  | S fuel' =>
      match l with
      | [] => []
      | _ => take n l :: pieces fuel' n (drop n l)
      end
  end.

(** [split -b "$CHUNK_SIZE" -d -a 3]: numeric suffixes of exactly three
    digits, so at most 1000 output files; with more to write (or a
    size that is not positive) [split] exits non-zero, which under
    [set -e] aborts the run. *)
Definition split_b_d_a3 (content : list byte) : option (list (list byte)) :=
  if CHUNK_SIZE <=? 0 then None
  else if 1000 * CHUNK_SIZE <? get_size content then None
  else Some (pieces (length content) (Z.to_nat CHUNK_SIZE) content).

Definition digit (n : nat) : ascii := ascii_of_nat (48 + n mod 10).

Definition suffix3 (i : nat) : string :=
  String (digit (i / 100)) (String (digit (i / 10)) (String (digit i) EmptyString)).

Definition shard_name (fn : string) (i : nat) : string :=
  (fn ++ ".shard." ++ suffix3 i)%string.

(** What [split ... "$pp" "$OUTPUT_DIR/${fn}.shard."] leaves in the
    output directory: piece [i] under [fn.shard.NNN], in place of any
    file of that name. *)
Definition write_pieces (fn : string) (sfs : list (list byte))
    (out : gmap string (list byte)) : gmap string (list byte) :=
  list_to_map (imap (fun i sf => (shard_name fn i, sf)) sfs) ∪ out.

(** The expansion of ["$OUTPUT_DIR/${fn}".shard.*]: every name in the
    directory that starts with [fn.shard.], whoever wrote it, sorted.
    Bash sorts by the collation of the locale; names that differ only
    in their digits are ordered alike in all of them. *)
Definition glob_shards (fn : string) (out : gmap string (list byte))
    : list string :=
  merge_sort collate_le
    (filter (fun n => String.prefix (fn ++ ".shard.") n = true)
            (map_to_list out).*1).

(** The loop over the expansion: name, running offset, size and hash
    of each file as the directory holds it. *)
Fixpoint shard_loop (out : gmap string (list byte)) (shard_offset : Z)
    (sfs : list string) : list shard :=
  match sfs with
  | [] => []
  | sfn :: rest =>
      let sf := default [] (out !! sfn) in
      let ss := get_size sf in
      Shard sfn shard_offset ss (file_sha256 sf)
      :: shard_loop out (shard_offset + ss) rest
  end.

(** One iteration of the loop of phase 4, on the output directory and
    the entries built so far; [None] when a command fails and the
    script stops.  A pattern that matches nothing is passed on as it
    is, and [get_size] fails on it. *)
Definition write_deliverable (d : deliverable)
    (st : gmap string (list byte) * list (string * file_entry))
    : option (gmap string (list byte) * list (string * file_entry)) :=
  let file_size := get_size (d_pp d) in
  let hash := file_sha256 (d_pp d) in
  let fn := d_flat d in
  if needs_byte_split (d_pp d) then
    sfs ← split_b_d_a3 (d_pp d);
    let out1 := write_pieces fn sfs st.1 in
    let out2 := if KEEP_INTERMEDIATES && negb (String.eqb (d_src d) EmptyString)
                then <[fn := d_pp d]> out1 else out1 in
    match glob_shards fn out2 with
    | [] => None
    | names =>
        Some (out2,
              st.2 ++ [(d_vp d, FileEntry file_size hash None
                                  (Some (shard_loop out2 0 names)))])
    end
  else
    Some (<[fn := d_pp d]> st.1,
          st.2 ++ [(d_vp d, FileEntry file_size hash (Some fn) None)]).

(** The loop: the deliverables in order, from the output directory as
    phase 3 left it. *)
Definition phase4 (ds : list deliverable) (out : gmap string (list byte))
    : option (gmap string (list byte) * list (string * file_entry)) :=
  fold_left (fun st d => st ≫= write_deliverable d) ds (Some (out, [])).

End Phase4.

End Packager.
(** ** Specification vocabulary *)

(** No tracked file is counted beyond its size. *)
Definition bounded (files : gmap string fprog) : Prop :=
  map_Forall (fun _ f => f_loaded f <= f_size f) files.

Definition SW_bounded (w : SW.world) : Prop :=
  map_Forall (fun _ st => bounded (SW.files st)) (SW.progressState w).

Definition Node_bounded (w : Node.world) : Prop :=
  map_Forall (fun _ st => bounded (Node.files st)) (Node._progressState w).









(** The concatenation of the shard contents in listed order: the bytes a
    full read delivers.  [content] maps a shard's file name to the bytes
    stored under it. *)
Definition shard_bytes (content : string -> list byte) (l : list shard) : list byte :=
  concat ((fun sh => content (shard_file sh)) <$> l).

(** Section 6.2 of the format: a stored shard is as long as its record says. *)
Definition sizes_match (content : string -> list byte) (l : list shard) : Prop :=
  Forall (fun sh => Z.of_nat (length (content (shard_file sh))) = shard_size sh) l.

(** What a part of the plan contributes to the response body. *)
Definition piece (content : string -> list byte) (p : part) : list byte :=
  if whole_shard p then content (part_file p)
  else JS.slice (content (part_file p)) (subStart p) (subEnd p + 1).

Definition shard_url (base file : string) : string := (base ++ "/" ++ file)%string.

(** The Node resolver can obtain each of [names] with the bytes [content]
    gives it: from the local flat directory, or, for a remote source, from
    a CDN that answers 200 with those bytes through a writable cache whose
    entries (and keys) agree with [content]. *)
Definition Node_serves (sha : string -> string) (s : Node.source)
    (content : string -> list byte) (names : list string) (w : Node.world) : Prop :=
  if decide (Node.localBase s = EmptyString) then
    (0 < Node.retries w)%nat /\ Node.fs_writable w = true
    /\ (forall n file, file ∈ names ->
          Node.net w n (shard_url (Node.cdnBase s) file) None
          = HttpReply 200 (content file))
    /\ (forall file c, file ∈ names ->
          Node.fs w !! Node._shardCachePath sha w (shard_url (Node.cdnBase s) file)
          = Some c -> c = content file)
    /\ (forall f f', f ∈ names -> f' ∈ names ->
          Node._shardCachePath sha w (shard_url (Node.cdnBase s) f)
          = Node._shardCachePath sha w (shard_url (Node.cdnBase s) f') ->
          content f = content f')
  else
    forall file, file ∈ names ->
      Node.fs w !! path_join (Node.localBase s) file = Some (content file).

(** The service worker can obtain each of [names] with the bytes [content]
    gives it: the CDN answers a plain GET with 200 and those bytes, a
    [Range] GET with either a correct 206, the whole object, or a
    failure; Cache Storage holds nothing else under these URLs; no fetch
    of them is in flight. *)
Definition SW_serves (s : SW.source) (content : string -> list byte)
    (names : list string) (w : SW.world) : Prop :=
  (forall n file, file ∈ names ->
     SW.net w n (shard_url (SW.cdnBase s) file) None = HttpReply 200 (content file))
  /\ (forall n file a b status body, file ∈ names ->
        SW.net w n (shard_url (SW.cdnBase s) file) (Some (a, b))
        = HttpReply status body ->
        if status =? 206 then body = JS.slice (content file) a (b + 1)
        else reply_ok status = true -> body = content file)
  /\ (forall file c, file ∈ names ->
        SW.cache w !! shard_url (SW.cdnBase s) file = Some c -> c = content file)
  /\ (forall file, file ∈ names ->
        SW.shardInflight w !! shard_url (SW.cdnBase s) file = None).

(** Two worker states with the same network, Cache Storage and in-flight
    map. *)
Definition same_store (w w' : SW.world) : Prop :=
  SW.net w' = SW.net w /\ SW.cache w' = SW.cache w
  /\ SW.shardInflight w' = SW.shardInflight w.

(** The invariant of the dedup transition system: every task that has not
    settled is the one registered in [shardInflight] for its URL; every
    caller awaiting the promise it started finds that promise registered;
    and no promise has two such owners. *)
Definition unsettled (t : Dedup.task) : Prop :=
  match Dedup.t_state t with Dedup.Settled _ => False | _ => True end.

Definition owns (k : Dedup.caller) (url : string) (pid : nat) : Prop :=
  Dedup.c_pc k = Dedup.Owner url pid.

Definition dedup_inv (fl : gmap string nat) (ts : list Dedup.task)
    (cs : list Dedup.caller) : Prop :=
  (forall pid t, ts !! pid = Some t -> unsettled t -> fl !! Dedup.t_url t = Some pid)
  /\ (forall c k url pid, cs !! c = Some k -> owns k url pid ->
        fl !! url = Some pid /\ exists t, ts !! pid = Some t /\ Dedup.t_url t = url)
  /\ (forall c c' k k' url url' pid,
        cs !! c = Some k -> cs !! c' = Some k' ->
        owns k url pid -> owns k' url' pid -> c = c').

Definition state_inv (s : Dedup.state) : Prop :=
  dedup_inv (Dedup.shardInflight s) (Dedup.tasks s) (Dedup.callers s).

(** ** Concrete scenarios

    The sharded file of the specification's scenarios: [a.bin], 25 bytes
    in three shards of 10, 10 and 5 bytes, next to two unsharded files. *)

Module Demo.

Open Scope string_scope.

Definition ramp (from n : nat) : list byte :=
  omap Byte.of_nat (seq from n).

Definition a_shards : list shard :=
  [Shard "a.bin.shard.000" 0 10 "s0";
   Shard "a.bin.shard.001" 10 10 "s1";
   Shard "a.bin.shard.002" 20 5 "s2"].

Definition a_bin : file_entry := FileEntry 25 "ha" None (Some a_shards).
Definition b_bin : file_entry := FileEntry 300 "hb" (Some "b.bin") None.
Definition extra_json : file_entry := FileEntry 50 "hx" (Some "extra.json") None.

(** What each CDN object holds. *)
Definition content (file : string) : list byte :=
  if String.eqb file "a.bin.shard.000" then ramp 0 10
  else if String.eqb file "a.bin.shard.001" then ramp 10 10
  else if String.eqb file "a.bin.shard.002" then ramp 20 5
  else if String.eqb file "b.bin" then replicate 300 "b"%byte
  else if String.eqb file "extra.json" then replicate 50 "x"%byte
  else [].

Definition all_files : gmap string file_entry :=
  <["a.bin" := a_bin]> (<["b.bin" := b_bin]> (<["extra.json" := extra_json]> ∅)).

(** Two disjoint manifests; [extra.json] belongs to neither. *)
Definition fm : filemap :=
  Filemap all_files
          (Some [("A", Manifest ["a.bin"] 25); ("B", Manifest ["b.bin"] 300)]).


Definition cdn : string := "https://cdn.example/pkg".

(** A CDN that serves every object in full and honours [Range]. *)
Definition honest_net : network :=
  fun _ url range =>
    let body := content (JS.last_segment url) in
    match range with
    | Some (a, b) => HttpReply 206 (JS.slice body a (b + 1))
    | None => HttpReply 200 body
    end.

Definition parse (doc : filemap) : list byte -> option filemap :=
  fun _ => Some doc.

(** Stand-ins for the hash and the JSON printer. *)
Definition sha (s : string) : string := s.
Definition stringify (_ : filemap) : list byte := [].

Definition sw_boot : SW.world :=
  SW.World [] ∅ ∅ ∅ ∅ true honest_net 0 ∅ [] 0.

Definition adaptive_source : SW.source := SW.Source "/m/" cdn true EmptyString.
Definition explicit_source (name : string) : SW.source :=
  SW.Source "/m/" cdn true name.

(** A Node resolver reading a local flat repository under [/pkg]. *)
Definition local_fs : gmap string (list byte) :=
  <["/pkg/a.bin.shard.000" := content "a.bin.shard.000"]>
    (<["/pkg/a.bin.shard.001" := content "a.bin.shard.001"]>
       (<["/pkg/a.bin.shard.002" := content "a.bin.shard.002"]>
          (<["/pkg/filemap.json" := []]> ∅))).

Definition local_source (name : string) : Node.source :=
  Node.Source "/m/" EmptyString "/pkg" name true.

Definition node_local (name : string) : Node.world :=
  Node.World "/cache" 3 local_fs true honest_net 0
             [local_source name] ∅ ∅
             {["/m/" := Node.initial_state name]} [].



(** A Node resolver on a remote source whose cache directory cannot be
    written. *)
Definition remote_source : Node.source := Node.Source "/m/" cdn EmptyString EmptyString true.

Definition node_readonly : Node.world :=
  Node.World "/cache" 3 ∅ false honest_net 0 [remote_source] ∅ ∅ ∅ [].

(** Resolvers half-way through [a.bin]: 20 of its 25 bytes counted. *)
Definition sw_tracking : SW.world :=
  SW.World [adaptive_source] {[cdn := fm]} {[cdn]} ∅ ∅ true honest_net 1
           {["/m/" := SW.PState Adaptive 25 20 {["a.bin" := FProg 25 20]}
                                {["a.bin"]} ["A"] (Some "A") 1 None false
                                0 None "a.bin"]}
           [] 0.

Definition node_tracking : Node.world :=
  Node.World "/cache" 3 local_fs true honest_net 0 [local_source EmptyString]
             {["/pkg" := fm]} {["/pkg"]}
             {["/m/" := Node.PState Adaptive 25 20 {["a.bin" := FProg 25 20]}
                                    {["a.bin"]} ["A"] (Some "A") false "a.bin"]}
             [].

(** An adaptive source: [extra.json] (in no manifest) is fetched, then
    the first two bytes of [a.bin], which narrows the candidates to [A]. *)
Definition narrowing_trace : list SW.event :=
  [SW.MODEL_SW_INIT [adaptive_source]; SW.Elapse 1000;
   SW.FetchEvent "/m/extra.json" None; SW.Elapse 1000;
   SW.FetchEvent "/m/a.bin" (Some (0, Some 1))].

Definition before_narrowing : SW.world :=
  SW.run (parse fm) (take 4 narrowing_trace) sw_boot.

(** An explicit source that loads all of its manifest, is then told
    [MODEL_SW_COMPLETE], and later serves one more ranged read. *)
Definition complete_trace : list SW.event :=
  [SW.MODEL_SW_INIT [explicit_source "A"]; SW.FetchEvent "/m/a.bin" None;
   SW.MODEL_SW_COMPLETE "/m/"].

Definition after_complete : SW.world := SW.run (parse fm) complete_trace sw_boot.

Definition after_late_read : SW.world :=
  SW.step (parse fm) (SW.FetchEvent "/m/a.bin" (Some (0, Some 4))) after_complete.

Definition shard0_url : string := cdn ++ "/a.bin.shard.000".

(** Two concurrent full reads of one shard, up to the point where both
    have passed their cache lookup. *)
Definition two_full_readers : list Dedup.label :=
  [Dedup.CallFetchShard shard0_url; Dedup.CallFetchShard shard0_url;
   Dedup.CacheLookupDone 0 true; Dedup.CacheLookupDone 1 true].

(** Two concurrent ranged reads of one shard, likewise. *)
Definition two_range_readers : list Dedup.label :=
  [Dedup.CallFetchShardSlice shard0_url 0 3;
   Dedup.CallFetchShardSlice shard0_url 4 7;
   Dedup.CacheLookupDone 0 true; Dedup.CacheLookupDone 1 true].

(** A stand-in digest for the packager scenarios. *)
Definition digest (content : list byte) : string :=
  JS.num_to_string (Z.of_nat (length content)).

(** A file of 1000 MiB and one byte, for a 1 MiB chunk size. *)
Definition MiB : Z := 1048576.
Definition big_file : list byte := replicate (Z.to_nat (1000 * MiB + 1)) "000"%byte.

Definition big_input : Packager.deliverable :=
  Packager.Deliverable "big.bin" big_file EmptyString "big.bin".

(** Two inputs of one run with the same base name, as found in a folder
    that holds [a/model.bin] and [b/model.bin]: with a chunk size of 4,
    a first file of two and a half chunks and a second of one and a
    half. *)
Definition same_name_inputs : list Packager.deliverable :=
  [Packager.Deliverable "a/model.bin" (ramp 0 10) EmptyString "model.bin";
   Packager.Deliverable "b/model.bin" (ramp 100 6) EmptyString "model.bin"].

(** The same two inputs at the smallest chunk size the packager
    accepts, 1 MiB: [a/model.bin] of 2.5 MiB and [b/model.bin] of
    1.5 MiB. *)
Definition model_a : Packager.deliverable :=
  Packager.Deliverable "a/model.bin"
    (replicate (Z.to_nat (2 * MiB + 524288)) "001"%byte) EmptyString "model.bin".

Definition model_b : Packager.deliverable :=
  Packager.Deliverable "b/model.bin"
    (replicate (Z.to_nat (MiB + 524288)) "002"%byte) EmptyString "model.bin".

(** One input of two and a half chunks. *)
Definition w_bin : Packager.deliverable :=
  Packager.Deliverable "w.bin" (ramp 0 10) EmptyString "w.bin".

End Demo.

(** ** Well-formedness of the worker's progress bookkeeping *)

(** Sizes in a filemap are byte counts. *)
Definition sizes_ok (fm : filemap) : Prop :=
  map_Forall (fun _ e =>
      0 <= entry_size e
      /\ Forall (fun sh => 0 <= shard_size sh) (default [] (entry_shards e)))
    (fm_files fm).

Definition file_ok (f : fprog) : Prop := 0 <= f_loaded f <= f_size f.

(** What every progress state of the worker satisfies: counters are
    byte counts within their bounds, and an idle timer is pending only
    for a quiescent, unfinalized source that is not in explicit mode.
    With [strict], also: an explicit-mode state is not finalized. *)
Definition state_ok (strict : bool) (st : SW.pstate) : Prop :=
  0 <= SW.loadedBytes st
  /\ map_Forall (fun _ => file_ok) (SW.files st)
  /\ 0 <= SW.pendingFetches st
  /\ (is_Some (SW.idleTimer st) ->
      SW.pendingFetches st = 0 /\ SW.finalized st = false
      /\ SW.mode st <> Explicit)
  /\ (strict = true -> SW.mode st = Explicit -> SW.finalized st = false).

Definition event_ok (m : progress_msg) : Prop :=
  0 <= msg_percent m <= 100
  /\ 0 <= msg_fileLoaded m <= msg_fileTotal m
  /\ 0 <= msg_modelLoaded m.

Definition worker_ok (strict : bool) (w : SW.world) : Prop :=
  map_Forall (fun _ => state_ok strict) (SW.progressState w)
  /\ Forall event_ok (SW.posted w)
  /\ map_Forall (fun _ => sizes_ok) (SW.filemaps w).

(** The events that finalize on the page's request. *)
Definition is_complete (ev : SW.event) : bool :=
  match ev with SW.MODEL_SW_COMPLETE _ => true | _ => false end.

(** The part of the worker's state that shard fetching leaves alone. *)
Definition view (w : SW.world) :=
  (SW.progressState w, SW.posted w, SW.filemaps w).

(** A worker that has just started: the module-level maps are empty and
    nothing has been posted. *)
Definition fresh (w : SW.world) : Prop :=
  SW.progressState w = ∅ /\ SW.posted w = [] /\ SW.filemaps w = ∅.

(** * model-packager.sh, phase 4: what is written to the output directory *)

Module Output.

Section Phase4.

Variable CHUNK_SIZE : Z.

(** The files one iteration of phase 4 writes into [$OUTPUT_DIR] for a
    deliverable that is not a dedup reference, as pairs of a flat name
    and the bytes stored under it; [keep] is
    [$KEEP_INTERMEDIATES && [[ -n "$src" ]]].  [None] when [split] fails
    and the run stops. *)
Definition written (keep : bool) (fn : string) (content : list byte)
    : option (list (string * list byte)) :=
  if Packager.needs_byte_split CHUNK_SIZE content then
    sfs ← Packager.split_b_d_a3 CHUNK_SIZE content;
    Some (imap (fun i sf => (Packager.shard_name fn i, sf)) sfs
          ++ (if keep then [(fn, content)] else []))
  else Some [(fn, content)].

End Phase4.

End Output.

(** * model-downloader.mjs *)

Module Downloader.

(** [streams] holds the write streams whose work is still queued, oldest
    first: the path each was created for and the bytes written to it so
    far. *)
Record world := World {
  fs : gmap string (list byte);
  net : network;
  requests : nat;
  streams : list (string * list byte);
}.

Definition set_fs (v : gmap string (list byte)) (w : world) : world :=
  World v (net w) (requests w) (streams w).
Definition set_streams (v : list (string * list byte)) (w : world) : world :=
  World (fs w) (net w) (requests w) v.

(** The value a handler reports for one file. *)
Inductive status := Cached | Downloaded | Assembled | Skip.

(** [a || b] on a string field that may be absent: an absent or empty
    value is falsy. *)
Definition truthy (s : option string) : option string :=
  match s with
  | Some n => if String.eqb n EmptyString then None else Some n
  | None => None
  end.

(** [entry.cdn_file || entry.cdn || entry.cdnFilename] and
    [shard.file || shard.cdn_file || shard.cdn]; a version-5 filemap
    has only the first field of each. *)
Definition cdnName (e : file_entry) : option string := truthy (entry_cdn_file e).
Definition shardName (sh : shard) : option string := truthy (Some (shard_file sh)).

(** Template-literal rendering of a name that may be [undefined]. *)
Definition render (n : option string) : string := default "undefined"%string n.

(** [fs.existsSync(dest) && fs.statSync(dest).size === entry.size] *)
Definition is_cached (dest : string) (e : file_entry) (w : world) : bool :=
  match fs w !! dest with
  | Some old => Z.of_nat (length old) =? entry_size e
  | None => false
  end.

Definition readFileSync (p : string) : M world (list byte) :=
  fun w => match fs w !! p with
           | Some data => (Ok data, w)
           | None => (Throw "ENOENT: no such file or directory", w)
           end.

(** [path.join(basePath, name)]; an [undefined] name is a [TypeError]. *)
Definition read_named (basePath : string) (n : option string) : M world (list byte) :=
  match n with
  | Some name => readFileSync (path_join basePath name)
  | None => throw "TypeError: The path argument must be of type string"
  end.

(** [fs.createWriteStream(dest)] followed by awaited writes, as in
    [downloadCdn]: the file is created or truncated, and each chunk piped
    into the stream has been appended when the [await] returns. *)
Definition create (dest : string) (w : world) : world :=
  set_fs (<[dest := []]> (fs w)) w.
Definition append (dest : string) (data : list byte) (w : world) : world :=
  set_fs (<[dest := default [] (fs w !! dest) ++ data]> (fs w)) w.

(** [fs.createWriteStream(dest)] and [ws.write(data)] in code that does
    not give up control, as in [assembleLocal]: the stream opens its file
    and writes what it was given only once the event loop runs; until
    then the request is queued and the file system is as it was. *)
Definition open_stream (dest : string) (w : world) : world :=
  set_streams (streams w ++ [(dest, [])]) w.

(** A write to the stream created last. *)
Definition stream_write (data : list byte) (w : world) : world :=
  set_streams
    (match reverse (streams w) with
     | (dest, buf) :: older => reverse older ++ [(dest, buf ++ data)]
     | [] => []
     end) w.

(** The event loop runs the queued streams: each opens its file with
    flag [w], which creates or truncates it, and writes its chunks. *)
Definition drain (w : world) : world :=
  set_streams []
    (set_fs (fold_left (fun m s => <[s.1 := s.2]> m) (streams w) (fs w)) w).

(** [await fetch(url)]: the status and the body; a rejected promise is
    an exception. *)
Definition fetch (url : string) : M world (Z * list byte) :=
  fun w =>
    let w' := World (fs w) (net w) (S (requests w)) (streams w) in
    match net w (requests w) url None with
    | HttpReply status body => (Ok (status, body), w')
    | NetworkError => (Throw "TypeError: fetch failed", w')
    end.

Definition downloadCdn (baseUrl : string) (e : file_entry) (dest : string)
    : M world status :=
  fun w =>
    if is_cached dest e w then (Ok Cached, w)
    else
      match entry_shards e with
      | None =>
          (r <- fetch (baseUrl ++ "/" ++ render (cdnName e)) ;;
           if reply_ok r.1
           then (modify (fun w => append dest r.2 (create dest w)) ;;;
                 ret Downloaded)
           else throw ("HTTP " ++ JS.num_to_string r.1)) w
      | Some shards =>
          (modify (create dest) ;;;
           mapM (fun sh =>
                   r <- fetch (baseUrl ++ "/" ++ render (shardName sh)) ;;
                   if reply_ok r.1 then modify (append dest r.2)
                   else throw ("HTTP " ++ JS.num_to_string r.1 ++ " for shard "
                               ++ render (shardName sh))) shards ;;;
           ret Downloaded) w
      end.

Definition assembleLocal (basePath : string) (e : file_entry) (dest : string)
    : M world status :=
  fun w =>
    if is_cached dest e w then (Ok Cached, w)
    else
      match entry_shards e with
      | None =>
          match cdnName e with
          | None => (Ok Skip, w)
          | Some cdn =>
              (* [fs.copyFileSync] *)
              (data <- readFileSync (path_join basePath cdn) ;;
               modify (fun w => set_fs (<[dest := data]> (fs w)) w) ;;;
               ret Assembled) w
          end
      | Some shards =>
          (* [ws.end()] is queued like the writes *)
          (modify (open_stream dest) ;;;
           mapM (fun sh =>
                   data <- read_named basePath (shardName sh) ;;
                   modify (stream_write data)) shards ;;;
           ret Assembled) w
      end.

(** [Array.prototype.sort] with the default comparison, on strings of
    single-byte characters: ascending code-unit order. *)
Definition code_unit_le (a b : string) : Prop := String.leb a b = true.

Global Instance code_unit_le_dec : RelDecision code_unit_le.
Proof. intros a b. unfold code_unit_le. apply _. Defined.

Definition sort (l : list string) : list string := merge_sort code_unit_le l.

(** [getFileList]: a [Set] keeps the first insertion of each element. *)
Definition getFileList (fm : filemap) (manifests : list string) : list string :=
  match manifests with
  | [] => sort (remove_dups (file_keys fm))
  | _ =>
      sort (remove_dups
              (concat ((fun m => match assoc m (manifests_of fm) with
                                 | Some man => manifest_files man
                                 | None => []          (* warned about, skipped *)
                                 end) <$> manifests)))
  end.

End Downloader.

(** * model-resolver-node.mjs: the direct resolve API and the fetch hook *)

Module Resolver.

(** One call of the [onProgress] option of [resolve]; [percent] is
    [None] when [Math.round(loaded / total * 100)] is not a finite
    number, that is when [total] is zero. *)
Record event := Event {
  percent : option Z;
  loaded : Z;
  total : Z;
  file : string;
  done : bool;
}.

(** The resolver's world together with the locals of one [resolve]
    call: the running [loadedBytes] and what [opts.onProgress] has been
    called with, oldest first. *)
Record run := Run {
  node : Node.world;
  loadedBytes : Z;
  reported : list event;
}.

Definition lift {A} (m : M Node.world A) : M run A :=
  fun r => let '(a, w) := m (node r) in (a, Run w (loadedBytes r) (reported r)).

Definition percent_at (loaded total : Z) : option Z :=
  if total =? 0 then None else Some (JS.round_percent loaded total).

(** The callback [resolve] passes to [_reassembleFile], also the body of
    its skip branch. *)
Definition onBytes (totalBytes : Z) (vp : string) (bytes : Z) (r : run) : run :=
  let l := loadedBytes r + bytes in
  Run (node r) l (reported r ++ [Event (percent_at l totalBytes) l totalBytes vp false]).

(** [pwrite]: bytes past the end of the file are preceded by zeros. *)
Definition pwrite (old : list byte) (pos : nat) (buf : list byte) : list byte :=
  take pos old ++ replicate (pos - length old) "000"%byte ++ buf
  ++ drop (pos + length buf) old.


Section Api.

Variable sha256_hex : string -> string.
Variable sha256_file : list byte -> string.
Variable JSON_parse : list byte -> option filemap.
Variable JSON_stringify : filemap -> list byte.

(** The constructor's [verifySha256] option. *)
Variable verifySha256 : bool.





(** [fs.writeFileSync(outPath, buf)] and [fs.openSync(outPath, 'w')]:
    the latter creates the file or truncates it. *)
Definition write_file (p : string) (buf : list byte) : M Node.world unit :=
  fun w => if Node.fs_writable w
           then (Ok tt, Node.set_fs (<[p := buf]> (Node.fs w)) w)
           else (Throw "EACCES: permission denied, open", w).

Definition openSync_w (p : string) : M Node.world unit := write_file p [].

(** [fs.writeSync(fd, buf, 0, buf.length, position)] on the descriptor
    opened for [p], whose file position is [cursor]: a position that is
    not negative is where the bytes go, the file position staying put;
    with a negative one they go to the file position, which advances.
    The result is the new file position. *)
Definition writeSync (p : string) (buf : list byte) (position : Z) (cursor : nat)
    : M Node.world nat :=
  fun w =>
    let old := default [] (Node.fs w !! p) in
    if 0 <=? position
    then (Ok cursor,
          Node.set_fs (<[p := pwrite old (Z.to_nat position) buf]> (Node.fs w)) w)
    else (Ok (cursor + length buf)%nat,
          Node.set_fs (<[p := pwrite old cursor buf]> (Node.fs w)) w).

Definition unlinkSync (p : string) : M Node.world unit :=
  fun w => (Ok tt, Node.set_fs (delete p (Node.fs w)) w).

(** [isLocal ? this._readLocal(sourceKey, name)
            : await this._fetchShardBuf(`${sourceKey}/${name}`)] *)
Definition read_named (sourceKey : string) (isLocal : bool) (name : string)
    : M Node.world (list byte) :=
  if isLocal then Node._readLocal sourceKey name
  else Node._fetchShardBuf sha256_hex (sourceKey ++ "/" ++ name).

(** [entry.cdn_file || vp] *)
Definition cdn_file_or (e : file_entry) (vp : string) : string :=
  match entry_cdn_file e with
  | Some n => if String.eqb n EmptyString then vp else n
  | None => vp
  end.

(** The loop over [entry.shards]; [cursor] is the descriptor's file
    position. *)
Fixpoint write_shards (sourceKey : string) (isLocal : bool) (outPath : string)
    (onBytes : Z -> run -> run) (cursor : nat) (l : list shard) : M run unit :=
  match l with
  | [] => ret tt
  | sh :: rest =>
      buf <- lift (read_named sourceKey isLocal (shard_file sh)) ;;
      cursor' <- lift (writeSync outPath buf (shard_offset sh) cursor) ;;
      modify (onBytes (shard_size sh)) ;;;
      write_shards sourceKey isLocal outPath onBytes cursor' rest
  end.

(** [if (this.verifySha256 && entry.sha256) { ... }] *)
Definition verify (vp : string) (e : file_entry) (outPath : string) : M Node.world unit :=
  if verifySha256 && negb (String.eqb (entry_sha256 e) EmptyString) then
    fun w =>
      let actual := sha256_file (default [] (Node.fs w !! outPath)) in
      if String.eqb actual (entry_sha256 e) then (Ok tt, w)
      else (unlinkSync outPath ;;;
            throw ("SHA256 mismatch for " ++ vp ++ ": expected " ++ entry_sha256 e
                   ++ ", got " ++ actual)) w
  else ret tt.

Definition _reassembleFile (sourceKey : string) (isLocal : bool) (vp : string)
    (e : file_entry) (outPath : string) (onBytes : Z -> run -> run) : M run unit :=
  match entry_shards e with
  | None =>
      buf <- lift (read_named sourceKey isLocal (cdn_file_or e vp)) ;;
      lift (write_file outPath buf) ;;;
      modify (onBytes (entry_size e))
  | Some shards =>
      lift (openSync_w outPath) ;;;
      (* [try { ... } finally { fs.closeSync(fd) }] *)
      write_shards sourceKey isLocal outPath onBytes 0 shards ;;;
      lift (verify vp e outPath)
  end.





End Api.

End Resolver.

(** ** Well-formed filemaps and the progress of [resolve] *)



(** A run of intermediate progress events of [resolve] for a given
    total: none is final, [loaded] starts at [lo] or above, never
    decreases and ends at [hi] or below, and [percent] is the rounded
    share of [loaded] in the total. *)
Fixpoint climbs (total lo : Z) (evs : list Resolver.event) (hi : Z) : Prop :=
  match evs with
  | [] => lo <= hi
  | e :: es =>
      lo <= Resolver.loaded e
      /\ Resolver.percent e = Resolver.percent_at (Resolver.loaded e) total
      /\ Resolver.total e = total
      /\ Resolver.done e = false
      /\ climbs total (Resolver.loaded e) es hi
  end.


(** The source a [resolve] call reads from, as a registered source
    would describe it, and the place where the resolver finds (or keeps)
    one of its objects: the flat directory, or the shard cache. *)
Definition source_of (sourceKey : string) (isLocal : bool) : Node.source :=
  if isLocal then Node.Source EmptyString EmptyString sourceKey EmptyString false
  else Node.Source EmptyString sourceKey EmptyString EmptyString false.

Definition source_path (sha : string -> string) (w : Node.world)
    (sourceKey : string) (isLocal : bool) (file : string) : string :=
  if isLocal then path_join sourceKey file
  else Node._shardCachePath sha w (shard_url sourceKey file).

(** Every promise registered in [shardInflight] has the caller that
    registered it still awaiting it (and so still due to remove it). *)
Definition registered_owned (s : Dedup.state) : Prop :=
  forall url pid, Dedup.shardInflight s !! url = Some pid ->
    exists c k, Dedup.callers s !! c = Some k /\ owns k url pid.

(** All calls made so far have returned. *)
Definition all_returned (s : Dedup.state) : Prop :=
  forall k, k ∈ Dedup.callers s -> exists o, Dedup.c_pc k = Dedup.Returned o.

(** ** The packager's output *)

(** The shard list a file cut into the pieces [sfs] is meant to get:
    piece [i] under the name [fn.shard.NNN], at the offset where the
    pieces before it end. *)
Fixpoint expected_shards (file_sha256 : list byte -> string) (fn : string)
    (i : nat) (shard_offset : Z) (sfs : list (list byte)) : list shard :=
  match sfs with
  | [] => []
  | sf :: rest =>
      Shard (Packager.shard_name fn i) shard_offset (Packager.get_size sf)
            (file_sha256 sf)
      :: expected_shards file_sha256 fn (S i) (shard_offset + Packager.get_size sf) rest
  end.

(** No file of the output directory is named [fn.shard.*]. *)
Definition no_stale_shards (fn : string) (out : gmap string (list byte)) : Prop :=
  forall n, is_Some (out !! n) -> String.prefix (fn ++ ".shard.") n = false.

(** The files of the output directory named [fn.shard.*] are the shard
    names of the indices below [length held], holding these pieces. *)
Definition holds_shards (fn : string) (out : gmap string (list byte))
    (held : list (list byte)) : Prop :=
  (length held <= 1000)%nat
  /\ (forall k sf, held !! k = Some sf ->
        out !! Packager.shard_name fn k = Some sf)
  /\ (forall n, is_Some (out !! n) -> String.prefix (fn ++ ".shard.") n = true ->
        exists i, (i < length held)%nat /\ n = Packager.shard_name fn i).

(** ** Filemap loading *)

(** The request for [filemap.json] that the worker would make next does
    not yield a document: the network fails, the status is not 2xx, or
    the body does not parse. *)
Definition filemap_unavailable (JSON_parse : list byte -> option filemap)
    (base : string) (w : SW.world) : Prop :=
  match SW.net w (SW.requests w) (base ++ "/filemap.json")%string None with
  | HttpReply status body => reply_ok status = false \/ JSON_parse body = None
  | NetworkError => True
  end.

(** ** Further scenarios *)

Module Scenario.

Open Scope string_scope.

(** An explicit source reads all of [a.bin]; two seconds later the idle
    timer would be due. *)
Definition explicit_idle_trace : list SW.event :=
  [SW.MODEL_SW_INIT [Demo.explicit_source "A"]; SW.FetchEvent "/m/a.bin" None;
   SW.Elapse 5000; SW.IdleTimerDue "/m/"].

(** A configuration as a page may send it: no trailing slash on the
    path prefix, two on the CDN base. *)
Definition raw_source : SW.source :=
  SW.Source "/m" "https://cdn.example/pkg//" true EmptyString.

(** A CDN that is down. *)
Definition dead_net : network := fun _ _ _ => NetworkError.

Definition sw_offline : SW.world :=
  SW.World [Demo.adaptive_source] ∅ ∅ ∅ ∅ true dead_net 0
           {["/m/" := SW.makeProgressState EmptyString]} [] 0.

(** A worker that knows the source and has nothing cached. *)
Definition sw_cold : SW.world :=
  SW.World [Demo.adaptive_source] ∅ ∅ ∅ ∅ true Demo.honest_net 0 ∅ [] 0.

(** A Node resolver on the remote source with an empty, writable cache
    directory. *)
Definition node_remote : Node.world :=
  Node.World "/cache" 3 ∅ true Demo.honest_net 0 [Demo.remote_source] ∅ ∅ ∅ [].

(** The flat repository the packager leaves for [w.bin] (10 bytes) with
    a chunk size of 4, under [/flat], and a CDN serving the same
    objects. *)
Definition packed_fs : gmap string (list byte) :=
  <["/flat/w.bin.shard.000" := Demo.ramp 0 4]>
    (<["/flat/w.bin.shard.001" := Demo.ramp 4 4]>
       (<["/flat/w.bin.shard.002" := Demo.ramp 8 2]> ∅)).

Definition packed_net : network :=
  fun _ url _ =>
    match packed_fs !! ("/flat/" ++ JS.last_segment url) with
    | Some b => HttpReply 200 b
    | None => HttpReply 404 []
    end.

Definition dl_world : Downloader.world :=
  Downloader.World packed_fs packed_net 0 [].

(** What phase 4 leaves for [w.bin] in an empty output directory: the
    directory and the entry. *)
Definition packed_out : gmap string (list byte) :=
  <["w.bin.shard.000" := Demo.ramp 0 4]>
    (<["w.bin.shard.001" := Demo.ramp 4 4]>
       (<["w.bin.shard.002" := Demo.ramp 8 2]> ∅)).

Definition packed_entry : file_entry :=
  FileEntry 10 "10" None
    (Some [Shard "w.bin.shard.000" 0 4 "4"; Shard "w.bin.shard.001" 4 4 "4";
           Shard "w.bin.shard.002" 8 2 "2"]).


(** A [resolve] call about to start on the local repository [/pkg]. *)
Definition resolve_start : Resolver.run :=
  Resolver.Run (Demo.node_local EmptyString) 0 [].

(** One full read of a shard run to its end: cache miss, fetch, write
    through, return. *)
Definition one_full_read : list Dedup.label :=
  [Dedup.CallFetchShard Demo.shard0_url; Dedup.CacheLookupDone 0 true;
   Dedup.NetworkDone 0 (HttpReply 200 (Demo.ramp 0 10));
   Dedup.CachePutDone 0 true; Dedup.Resume 0].

End Scenario.

(** * Theorems *)
(** * Ranged reads: unsatisfiable ranges *)

Lemma range_guard (start end_ size : Z) :
  start > end_ \/ start >= size ->
  (start >? Z.min end_ (size - 1)) || (start >=? size) = true.
Proof.
  intros H. apply orb_true_iff.
  destruct (Z.geb_spec start size) as [Hge | Hlt]; [by right | left].
  apply Z.gtb_lt. destruct H; lia.
Qed.

(** C5. A ranged read with [start > end] or [start >= size] is answered,
    by both resolvers and before any shard is touched, with status 416,
    the single header [Content-Range: bytes */size] and no body. *)
Theorem unsatisfiable_range_416 (sha : string -> string) (e : file_entry)
    (sn : Node.source) (ss : SW.source) (start end_ : Z) (relPath : string)
    (wn : Node.world) (ws : SW.world) :
  start > end_ \/ start >= entry_size e ->
  let r416 := Response 416
                [("Content-Range"%string,
                  ("bytes */" ++ JS.num_to_string (entry_size e))%string)]
                None in
  Node._respondRange sha e sn start end_ relPath wn = (Ok r416, wn)
  /\ SW.respondRange e ss start end_ relPath ws = (Ok r416, ws).
Proof.
  intros H r416. unfold Node._respondRange, SW.respondRange.
  rewrite (range_guard _ _ _ H). split; reflexivity.
Qed.

(** A ranged read at [start = size]: spec boundary case. *)
Lemma unsatisfiable_range_416_witness :
  (25 > 30 \/ 25 >= entry_size Demo.a_bin)
  /\ Node._respondRange Demo.sha Demo.a_bin (Demo.local_source EmptyString) 25 30 "a.bin"
       (Demo.node_local EmptyString)
     = (Ok (Response 416 [("Content-Range", "bytes */25")]%string None),
        Demo.node_local EmptyString)
  /\ SW.respondRange Demo.a_bin Demo.adaptive_source 25 30 "a.bin" Demo.sw_boot
     = (Ok (Response 416 [("Content-Range", "bytes */25")]%string None),
        Demo.sw_boot).
Proof.
  split; [right; simpl; lia |].
  apply (unsatisfiable_range_416 Demo.sha Demo.a_bin (Demo.local_source EmptyString)
           Demo.adaptive_source 25 30 "a.bin" (Demo.node_local EmptyString) Demo.sw_boot).
  right; simpl; lia.
Defined.

(** * Progress recording *)

Lemma bump_bounded (f : fprog) (bytes : Z) :
  f_loaded (bump f bytes) <= f_size (bump f bytes).
Proof. simpl. lia. Qed.

Lemma SW_files_record (relPath : string) (bytes : Z) (st : SW.pstate) (f : fprog) :
  SW.files st !! relPath = Some f ->
  SW.files (SW.record_state relPath bytes st) = <[relPath := bump f bytes]> (SW.files st)
  /\ SW.loadedBytes (SW.record_state relPath bytes st)
     = SW.loadedBytes st + Z.max 0 (f_loaded (bump f bytes) - f_loaded f).
Proof.
  intros Hf. unfold SW.record_state. rewrite Hf.
  destruct (Z.gtb_spec (f_loaded (bump f bytes) - f_loaded f) 0); simpl in *;
    split; try reflexivity; lia.
Qed.

Lemma Node_files_record (relPath : string) (bytes : Z) (st : Node.pstate) (f : fprog) :
  Node.files (Node.record_state relPath f bytes st) = <[relPath := bump f bytes]> (Node.files st)
  /\ Node.loadedBytes (Node.record_state relPath f bytes st)
     = Node.loadedBytes st + Z.max 0 (f_loaded (bump f bytes) - f_loaded f).
Proof.
  unfold Node.record_state.
  destruct (Z.gtb_spec (f_loaded (bump f bytes) - f_loaded f) 0); simpl in *;
    split; try reflexivity; lia.
Qed.

Lemma SW_record_state_bounded (relPath : string) (bytes : Z) (st : SW.pstate) :
  bounded (SW.files st) -> bounded (SW.files (SW.record_state relPath bytes st)).
Proof.
  intros Hb. destruct (SW.files st !! relPath) as [f|] eqn:Hf.
  - destruct (SW_files_record relPath bytes st f Hf) as [-> _].
    apply map_Forall_insert_2; [apply bump_bounded | exact Hb].
  - unfold SW.record_state. by rewrite Hf.
Qed.

Lemma SW_with_state_lookup (pp pp' : string) (g : SW.pstate -> SW.pstate) (w : SW.world) :
  SW.progressState (SW.with_state pp g w) !! pp'
  = if decide (pp = pp') then g <$> SW.progressState w !! pp'
    else SW.progressState w !! pp'.
Proof.
  unfold SW.with_state. destruct (SW.progressState w !! pp) as [st|] eqn:Hst; simpl.
  - rewrite lookup_insert. case_decide; subst; [by rewrite Hst | done].
  - case_decide; subst; [by rewrite Hst | done].
Qed.

Lemma SW_recordProgress_bounded (pp relPath : string) (bytes : Z) (w : SW.world) :
  SW_bounded w -> SW_bounded (SW.recordProgress pp relPath bytes w).
Proof.
  unfold SW_bounded. rewrite !map_Forall_lookup.
  intros Hw pp' st'. unfold SW.recordProgress. rewrite SW_with_state_lookup.
  case_decide; [| apply Hw].
  destruct (SW.progressState w !! pp') as [st|] eqn:Hst; [| done].
  simpl. intros [= <-]. apply SW_record_state_bounded. by eapply Hw.
Qed.

Lemma Node_recordProgress_lookup (s : Node.source) (relPath : string) (bytes : Z)
    (w : Node.world) (pp : string) :
  Node._progressState (Node._recordProgress s relPath bytes w) !! pp
  = match Node._progressState w !! pp with
    | Some st =>
        match Node.files st !! relPath with
        | Some f => if Node.progress s && bool_decide (Node.pathPrefix s = pp)
                    then Some (Node.record_state relPath f bytes st) else Some st
        | None => Some st
        end
    | None => None
    end.
Proof.
  unfold Node._recordProgress. destruct (Node.progress s); simpl.
  - destruct (Node._progressState w !! Node.pathPrefix s) as [st|] eqn:Hst.
    + destruct (Node.files st !! relPath) as [f|] eqn:Hf; simpl.
      * rewrite lookup_insert. case_bool_decide as Hpp; case_decide; subst;
          try congruence.
        -- by rewrite Hst, Hf.
        -- destruct (Node._progressState w !! pp) as [st2|]; [|done].
           by destruct (Node.files st2 !! relPath).
      * destruct (Node._progressState w !! pp) as [st2|] eqn:H2; [|done].
        destruct (Node.files st2 !! relPath) eqn:Hf2; [|done].
        case_bool_decide; [| done]. subst. congruence.
    + destruct (Node._progressState w !! pp) as [st2|] eqn:H2; [|done].
      destruct (Node.files st2 !! relPath) eqn:Hf2; [|done].
      case_bool_decide; [| done]. subst. congruence.
  - destruct (Node._progressState w !! pp) as [st2|]; [|done].
    by destruct (Node.files st2 !! relPath).
Qed.

Lemma Node_recordProgress_bounded (s : Node.source) (relPath : string) (bytes : Z)
    (w : Node.world) :
  Node_bounded w -> Node_bounded (Node._recordProgress s relPath bytes w).
Proof.
  unfold Node_bounded. rewrite !map_Forall_lookup.
  intros Hw pp st'. rewrite Node_recordProgress_lookup.
  destruct (Node._progressState w !! pp) as [st|] eqn:Hst; [| done].
  destruct (Node.files st !! relPath) as [f|] eqn:Hf.
  - destruct (_ && _); intros [= <-]; [| by eapply Hw].
    destruct (Node_files_record relPath bytes st f) as [-> _].
    apply map_Forall_insert_2; [apply bump_bounded | by eapply Hw].
  - intros [= <-]. by eapply Hw.
Qed.

(** C10. Recording progress keeps every tracked file's [loaded] at or
    below its [size], in both resolvers; the file that is reported on gets
    [min(loaded + bytes, size)], and the aggregate [loadedBytes] grows by
    exactly the (non-negative part of the) clamped difference. *)
Theorem recordProgress_clamps (ws : SW.world) (wn : Node.world) (sn : Node.source)
    (pp relPath : string) (bytes : Z) :
  SW_bounded ws -> Node_bounded wn ->
  SW_bounded (SW.recordProgress pp relPath bytes ws)
  /\ Node_bounded (Node._recordProgress sn relPath bytes wn)
  /\ (forall st f,
        SW.progressState ws !! pp = Some st -> SW.files st !! relPath = Some f ->
        exists st',
          SW.progressState (SW.recordProgress pp relPath bytes ws) !! pp = Some st'
          /\ SW.files st' !! relPath
             = Some (FProg (f_size f) (Z.min (f_loaded f + bytes) (f_size f)))
          /\ SW.loadedBytes st'
             = SW.loadedBytes st
               + Z.max 0 (Z.min (f_loaded f + bytes) (f_size f) - f_loaded f))
  /\ (forall st f,
        Node.progress sn = true ->
        Node._progressState wn !! Node.pathPrefix sn = Some st ->
        Node.files st !! relPath = Some f ->
        exists st',
          Node._progressState (Node._recordProgress sn relPath bytes wn)
            !! Node.pathPrefix sn = Some st'
          /\ Node.files st' !! relPath
             = Some (FProg (f_size f) (Z.min (f_loaded f + bytes) (f_size f)))
          /\ Node.loadedBytes st'
             = Node.loadedBytes st
               + Z.max 0 (Z.min (f_loaded f + bytes) (f_size f) - f_loaded f)).
Proof.
  intros Hs Hn. split; [by apply SW_recordProgress_bounded |].
  split; [by apply Node_recordProgress_bounded |]. split.
  - intros st f Hst Hf. exists (SW.record_state relPath bytes st).
    unfold SW.recordProgress. rewrite SW_with_state_lookup, decide_True, Hst by done.
    destruct (SW_files_record relPath bytes st f Hf) as [-> ->].
    rewrite lookup_insert_eq. done.
  - intros st f Hp Hst Hf. exists (Node.record_state relPath f bytes st).
    rewrite Node_recordProgress_lookup, Hst, Hf, Hp, bool_decide_eq_true_2 by done.
    destruct (Node_files_record relPath bytes st f) as [-> ->].
    rewrite lookup_insert_eq. done.
Qed.

Lemma recordProgress_clamps_witness :
  SW_bounded Demo.sw_tracking /\ Node_bounded Demo.node_tracking
  /\ SW_bounded (SW.recordProgress "/m/" "a.bin" 10 Demo.sw_tracking)
  /\ Node_bounded
       (Node._recordProgress (Demo.local_source EmptyString) "a.bin" 10 Demo.node_tracking).
Proof.
  assert (Hb : bounded {["a.bin"%string := FProg 25 20]}).
  { apply map_Forall_singleton. simpl. lia. }
  assert (Hs : SW_bounded Demo.sw_tracking).
  { apply map_Forall_singleton. exact Hb. }
  assert (Hn : Node_bounded Demo.node_tracking).
  { apply map_Forall_singleton. exact Hb. }
  split; [exact Hs |]. split; [exact Hn |].
  destruct (recordProgress_clamps Demo.sw_tracking Demo.node_tracking
              (Demo.local_source EmptyString) "/m/" "a.bin" 10 Hs Hn) as (H1 & H2 & _).
  split; [exact H1 | exact H2].
Defined.

(** * Progress initialisation from the filemap *)

Lemma set_files_fold_lookup (fm : filemap) (l : list string)
    (acc : gmap string fprog * Z) (vp : string) :
  (fold_left (set_files_step fm) l acc).1 !! vp
  = match (if decide (vp ∈ l) then fm_files fm !! vp else None) with
    | Some e => Some (FProg (entry_size e) 0)
    | None => acc.1 !! vp
    end.
Proof.
  revert acc. induction l as [| k l IH]; intros acc; simpl.
  - done.
  - rewrite IH. destruct (decide (vp ∈ l)) as [Hin | Hnin].
    + rewrite decide_True by (by right).
      destruct (fm_files fm !! vp) as [e|] eqn:He; [done |].
      unfold set_files_step. destruct (fm_files fm !! k) eqn:Hk; [| done].
      simpl. rewrite lookup_insert_ne; [done | congruence].
    + destruct (decide (vp = k)) as [-> | Hne].
      * rewrite decide_True by left. unfold set_files_step.
        destruct (fm_files fm !! k); simpl; [by rewrite lookup_insert_eq | done].
      * rewrite decide_False by (intros [?|?]%elem_of_cons; done).
        unfold set_files_step. destruct (fm_files fm !! k); simpl; [| done].
        by rewrite lookup_insert_ne.
Qed.






(** The names the amended claim leaves out.  For a missing name that
    [Object.prototype] defines, such as [constructor],
    [manifests[name]] is a built-in function: initialisation resets the
    tracked files and the total, and then throws. *)
Lemma explicit_inherited_manifest_name_throws (fm : filemap) (name : string)
    (sst : SW.pstate) (nst : Node.pstate) :
  assoc name (manifests_of fm) = None ->
  Obj.inherited name = true ->
  SW.mode sst = Explicit -> SW.selectedManifest sst = Some name ->
  Node.mode nst = Explicit -> Node.selectedManifest nst = Some name ->
  ((SW.init_state fm sst).1 = Throw "TypeError: vpList is not iterable"
   /\ SW.files (SW.init_state fm sst).2 = ∅
   /\ SW.totalBytes (SW.init_state fm sst).2 = 0)
  /\ ((Node.init_state fm nst).1 = Throw "TypeError: vpList is not iterable"
      /\ Node.files (Node.init_state fm nst).2 = ∅
      /\ Node.totalBytes (Node.init_state fm nst).2 = 0).
Proof.
  intros Hmiss Hown Hm Hsel Hm' Hsel'.
  unfold SW.init_state, Node.init_state, Obj.get.
  rewrite Hm, Hsel, Hm', Hsel'. simpl. rewrite Hmiss, Hown. done.
Qed.


(** * Filemap loading *)

Lemma SW_with_state_filemaps (pp : string) (g : SW.pstate -> SW.pstate) (w : SW.world) :
  SW.filemaps (SW.with_state pp g w) = SW.filemaps w.
Proof. unfold SW.with_state. by destruct (SW.progressState w !! pp). Qed.

Lemma SW_init_filemaps (base : string) (fm : filemap) (w : SW.world) :
  SW.filemaps (SW.initProgressFromFilemap base fm w).2 = SW.filemaps w.
Proof.
  unfold SW.initProgressFromFilemap.
  destruct (find _ _) as [s|]; [| done].
  destruct (SW.progress s); [| done].
  by destruct (SW.progressState w !! SW.pathPrefix s).
Qed.

Lemma Node_init_filemaps (key : string) (fm : filemap) (w : Node.world) :
  Node._filemaps (Node._initProgressFromFilemap key fm w).2 = Node._filemaps w.
Proof.
  unfold Node._initProgressFromFilemap.
  destruct (find _ _) as [s|]; [| done].
  destruct (Node.progress s); [| done].
  by destruct (Node._progressState w !! Node.pathPrefix s).
Qed.










(** * Cache write-through *)

Lemma Node_attempt_write_fails (sha : string -> string) (url cp : string)
    (body : list byte) (w : Node.world) :
  Node.fs_writable w = false ->
  Node.net w (Node.requests w) url None = HttpReply 200 body ->
  Node.fetch_attempt url cp w
  = (Throw "EACCES: permission denied", Node.set_requests (S (Node.requests w)) w).
Proof.
  intros Hro Hnet. unfold Node.fetch_attempt, bind, Node.fetchFn.
  rewrite Hnet. simpl. unfold Node.writeFileSync. simpl. by rewrite Hro.
Qed.

(** C9, the Node side. With a cache directory that cannot be written, a
    shard that is not cached yet and a CDN that answers every request with
    200 and the shard's bytes, [_fetchShardBuf] fetches [retries] times
    and then throws the write error instead of returning the bytes. *)
Theorem fetchShardBuf_write_failure_is_fatal (sha : string -> string)
    (url : string) (body : list byte) (w : Node.world) :
  Node.fs w !! Node._shardCachePath sha w url = None ->
  Node.fs_writable w = false ->
  (forall n, Node.net w n url None = HttpReply 200 body) ->
  (0 < Node.retries w)%nat ->
  (Node._fetchShardBuf sha url w).1 = Throw "EACCES: permission denied"
  /\ Node.requests (Node._fetchShardBuf sha url w).2
     = (Node.requests w + Node.retries w)%nat.
Proof.
  intros Hmiss Hro Hnet Hpos. unfold Node._fetchShardBuf. rewrite Hmiss.
  generalize (Node._shardCachePath sha w url) as cp. intros cp.
  assert (Hloop : forall n e w',
             Node.fs_writable w' = false -> Node.net w' = Node.net w ->
             (Node.retry_loop url cp (S n) e w').1 = Throw "EACCES: permission denied"
             /\ Node.requests (Node.retry_loop url cp (S n) e w').2
                = (Node.requests w' + S n)%nat).
  { induction n as [| n IH]; intros e w' Hro' Hnet'.
    - simpl. unfold try_catch.
      rewrite (Node_attempt_write_fails sha url cp body) by (rewrite ?Hnet'; done).
      simpl. split; [done | lia].
    - change (Node.retry_loop url cp (S (S n)) e w')
        with (try_catch (Node.fetch_attempt url cp)
                (fun e' => Node.retry_loop url cp (S n) e') w').
      unfold try_catch.
      rewrite (Node_attempt_write_fails sha url cp body) by (rewrite ?Hnet'; done).
      destruct (IH "EACCES: permission denied"%string
                  (Node.set_requests (S (Node.requests w')) w')) as [H1 H2];
        [done | done |].
      rewrite H1, H2. simpl. split; [done | lia]. }
  destruct (Node.retries w) as [| n]; [lia |].
  by apply Hloop.
Qed.

Lemma fetchShardBuf_write_failure_is_fatal_witness :
  (Node._fetchShardBuf Demo.sha (Demo.cdn ++ "/a.bin.shard.000")
     Demo.node_readonly).1 = Throw "EACCES: permission denied"
  /\ Node.requests (Node._fetchShardBuf Demo.sha (Demo.cdn ++ "/a.bin.shard.000")
                      Demo.node_readonly).2 = 3%nat.
Proof.
  apply (fetchShardBuf_write_failure_is_fatal Demo.sha
           (Demo.cdn ++ "/a.bin.shard.000") (Demo.content "a.bin.shard.000")
           Demo.node_readonly).
  - reflexivity.
  - reflexivity.
  - intros n. reflexivity.
  - simpl. lia.
Defined.

(** The service worker's sibling does what the claim says: a Cache
    Storage failure is swallowed and the fetched bytes are returned. *)
Lemma SW_fetchShard_cache_failure_not_fatal (file : string) (s : SW.source)
    (status : Z) (body : list byte) (w : SW.world) :
  SW.cache_available w = false ->
  SW.shardInflight w !! (SW.cdnBase s ++ "/" ++ file)%string = None ->
  SW.net w (SW.requests w) (SW.cdnBase s ++ "/" ++ file)%string None
    = HttpReply status body ->
  reply_ok status = true ->
  (SW.fetchShard file s w).1 = Ok body.
Proof.
  intros Hc Hin Hnet Hok. unfold SW.fetchShard, SW.cache_match.
  rewrite Hc, Hin. unfold try_finally, SW.shard_task, bind, SW.fetch.
  rewrite Hnet. simpl. by rewrite Hok.
Qed.

(** * Ranged reads: the bytes returned *)

Section RangePlan.

Variable content : string -> list byte.

Lemma bytes_between_empty {A} (a b : Z) (l : list A) :
  b < 0 -> bytes_between a b l = [].
Proof.
  intros Hb. unfold bytes_between.
  replace (Z.to_nat (b + 1) - Z.to_nat a)%nat with 0%nat by lia. done.
Qed.

Lemma bytes_between_app_skip {A} (c rest : list A) (a b : Z) :
  Z.of_nat (length c) <= a ->
  bytes_between a b (c ++ rest)
  = bytes_between (a - Z.of_nat (length c)) (b - Z.of_nat (length c)) rest.
Proof.
  intros Ha. unfold bytes_between.
  replace (Z.to_nat a) with (length c + Z.to_nat (a - Z.of_nat (length c)))%nat by lia.
  rewrite drop_app_add. f_equal. lia.
Qed.

Lemma bytes_between_app_cover {A} (c rest : list A) (a b : Z) :
  a <= Z.of_nat (length c) - 1 -> 0 <= b ->
  bytes_between a b (c ++ rest)
  = take (Z.to_nat (Z.min b (Z.of_nat (length c) - 1) + 1) - Z.to_nat a)%nat
         (drop (Z.to_nat a) c)
    ++ bytes_between (a - Z.of_nat (length c)) (b - Z.of_nat (length c)) rest.
Proof.
  intros Ha Hb. unfold bytes_between.
  rewrite drop_app_le by lia. rewrite take_app.
  rewrite length_drop.
  replace (Z.to_nat (a - Z.of_nat (length c))) with 0%nat by lia.
  rewrite drop_0. f_equal.
  - destruct (decide (b <= Z.of_nat (length c) - 1)).
    + f_equal. lia.
    + rewrite (take_ge _ (Z.to_nat (b + 1) - Z.to_nat a))
        by (rewrite length_drop; lia).
      rewrite take_ge by (rewrite length_drop; lia). done.
  - f_equal. lia.
Qed.

Lemma slice_inside {A} (c : list A) (x y : Z) :
  0 <= x -> x <= y -> y <= Z.of_nat (length c) ->
  JS.slice c x y = take (Z.to_nat y - Z.to_nat x)%nat (drop (Z.to_nat x) c).
Proof.
  intros Hx Hxy Hy. unfold JS.slice, JS.rel_index.
  destruct (Z.ltb_spec x 0); [lia |]. destruct (Z.ltb_spec y 0); [lia |].
  rewrite !Z.min_l by lia. f_equal. lia.
Qed.

(** The part planned for a shard that overlaps the range contributes
    exactly the overlap. *)
Lemma piece_overlap (sh : shard) (start end_ : Z) :
  Z.of_nat (length (content (shard_file sh))) = shard_size sh ->
  start <= shard_offset sh + shard_size sh - 1 -> shard_offset sh <= end_ ->
  start <= end_ ->
  piece content
    (Part (shard_file sh) (Z.max start (shard_offset sh) - shard_offset sh)
          (Z.min end_ (shard_offset sh + shard_size sh - 1) - shard_offset sh)
          (shard_size sh))
  = take (Z.to_nat (Z.min (end_ - shard_offset sh) (shard_size sh - 1) + 1)
          - Z.to_nat (start - shard_offset sh))%nat
         (drop (Z.to_nat (start - shard_offset sh)) (content (shard_file sh))).
Proof.
  intros Hlen Hs He Hse. unfold piece, whole_shard. simpl.
  set (c := content (shard_file sh)) in *.
  set (o := shard_offset sh) in *. set (n := shard_size sh) in *.
  destruct (Z.eqb_spec (Z.max start o - o) 0) as [H0 | H0]; simpl.
  - destruct (Z.eqb_spec (Z.min end_ (o + n - 1) - o) (n - 1)) as [H1 | H1].
    + replace (Z.to_nat (start - o)) with 0%nat by lia.
      rewrite drop_0, take_ge; [done | lia].
    + rewrite slice_inside by lia. f_equal; [lia | f_equal; lia].
  - rewrite slice_inside by lia. f_equal; [lia | f_equal; lia].
Qed.

Lemma range_parts_bytes (l : list shard) (o start end_ : Z) :
  contiguous_from o l -> sizes_match content l -> start <= end_ ->
  concat (piece content <$> range_parts start end_ l)
  = bytes_between (start - o) (end_ - o) (shard_bytes content l).
Proof.
  unfold shard_bytes. revert o.
  induction l as [| sh l IH]; intros o Hc Hs Hse.
  - simpl. unfold bytes_between. by rewrite drop_nil, take_nil.
  - destruct Hc as (Ho & Hn & Hc). apply Forall_cons in Hs as [Hlen Hs].
    cbn [range_parts]. rewrite fmap_cons. cbn [concat].
    destruct (Z.ltb_spec (shard_offset sh + shard_size sh - 1) start) as [Hskip | Hin].
    + rewrite (IH _ Hc Hs Hse), bytes_between_app_skip by lia.
      rewrite Hlen. f_equal; lia.
    + destruct (Z.gtb_spec (shard_offset sh) end_) as [Hbreak | Hcov].
      * simpl. rewrite bytes_between_empty by lia. done.
      * rewrite fmap_cons. cbn [concat].
        rewrite piece_overlap by lia.
        rewrite (IH _ Hc Hs Hse), bytes_between_app_cover by lia.
        rewrite Hlen, Ho. f_equal. f_equal; lia.
Qed.

Lemma range_parts_nonempty (l : list shard) (o start end_ : Z) :
  contiguous_from o l -> o <= start -> start <= end_ ->
  start < o + sum_sizes l ->
  range_parts start end_ l <> [].
Proof.
  revert o. induction l as [| sh l IH]; intros o Hc Ho Hse Hlt.
  - simpl in Hlt. lia.
  - destruct Hc as (Hoff & Hn & Hc). cbn [range_parts].
    destruct (Z.ltb_spec (shard_offset sh + shard_size sh - 1) start).
    + apply (IH (o + shard_size sh)); [done | lia | done |].
      cbn [sum_sizes foldr] in Hlt. unfold sum_sizes. lia.
    + destruct (Z.gtb_spec (shard_offset sh) end_); [lia | done].
Qed.

End RangePlan.

(** ** Reading the planned parts *)

Lemma mapM_invariant {W A B} (Inv : W -> Prop) (f : A -> M W B) (g : A -> B)
    (l : list A) :
  (forall a w, a ∈ l -> Inv w -> exists w', f a w = (Ok (g a), w') /\ Inv w') ->
  forall w, Inv w -> exists w', mapM f l w = (Ok (g <$> l), w') /\ Inv w'.
Proof.
  induction l as [| a l IH]; intros Hf w Hw.
  - exists w. done.
  - destruct (Hf a w) as (w1 & Ha & Hw1); [left | done |].
    destruct (IH (fun a' w' Hin => Hf a' w' (list_elem_of_further _ _ _ Hin)) w1 Hw1)
      as (w2 & Hl & Hw2).
    exists w2. split; [| done].
    cbn [mapM]. unfold bind at 1. rewrite Ha. unfold bind at 1. rewrite Hl. done.
Qed.

Section NodeReads.

Variable sha : string -> string.
Variable s : Node.source.
Variable content : string -> list byte.
Variable names : list string.

Lemma Node_serves_frame (w w' : Node.world) :
  Node.cacheDir w' = Node.cacheDir w -> Node.retries w' = Node.retries w ->
  Node.fs w' = Node.fs w -> Node.fs_writable w' = Node.fs_writable w ->
  Node.net w' = Node.net w ->
  Node_serves sha s content names w -> Node_serves sha s content names w'.
Proof.
  intros Hc Hr Hf Hw Hn. unfold Node_serves, Node._shardCachePath.
  rewrite Hc, Hr, Hf, Hw, Hn. done.
Qed.

Lemma Node_recordProgress_serves (s' : Node.source) (relPath : string) (bytes : Z)
    (w : Node.world) :
  Node_serves sha s content names w ->
  Node_serves sha s content names (Node._recordProgress s' relPath bytes w).
Proof.
  apply Node_serves_frame; unfold Node._recordProgress;
    destruct (Node.progress s'); try done;
    destruct (Node._progressState w !! Node.pathPrefix s') as [st|]; try done;
    by destruct (Node.files st !! relPath).
Qed.

Lemma Node_read_shard_serves (file : string) (w : Node.world) :
  file ∈ names -> Node_serves sha s content names w ->
  exists w', Node.read_shard sha s file w = (Ok (content file), w')
             /\ Node_serves sha s content names w'.
Proof.
  intros Hin Hs. unfold Node.read_shard. pose proof Hs as Hs'.
  unfold Node_serves in Hs. destruct (decide (Node.localBase s = EmptyString)).
  - destruct Hs as (Hret & Hwr & Hnet & Hcoh & Hinj).
    unfold Node._fetchShardBuf. fold (shard_url (Node.cdnBase s) file).
    destruct (Node.fs w !! _) as [c|] eqn:Hc.
    + exists w. by rewrite (Hcoh file c Hin Hc).
    + destruct (Node.retries w) as [| n] eqn:Hn; [lia |].
      cbn [Node.retry_loop]. unfold try_catch, Node.fetch_attempt, bind at 1.
      unfold Node.fetchFn. rewrite (Hnet _ file Hin). simpl.
      unfold bind, Node.writeFileSync. simpl. rewrite Hwr. simpl.
      eexists. split; [reflexivity |].
      unfold Node_serves. rewrite decide_True by done. simpl.
      split; [lia |]. split; [done |]. split; [done |]. split; [| done].
      intros f c' Hf. unfold Node._shardCachePath in *. simpl in *.
      rewrite lookup_insert. case_decide as Heq.
      * intros [= <-]. by apply Hinj.
      * by apply Hcoh.
  - unfold Node._readLocal. rewrite (Hs file Hin). by exists w.
Qed.

Lemma Node_read_part_serves (p : part) (w : Node.world) :
  part_file p ∈ names -> Node_serves sha s content names w ->
  exists w', Node.read_part sha s p w = (Ok (piece content p), w')
             /\ Node_serves sha s content names w'.
Proof.
  intros Hin Hs. destruct (Node_read_shard_serves _ w Hin Hs) as (w' & Hr & Hs').
  exists w'. split; [| done]. unfold Node.read_part, bind. rewrite Hr. done.
Qed.

End NodeReads.

Lemma range_parts_files (start end_ : Z) (l : list shard) (p : part) :
  p ∈ range_parts start end_ l -> part_file p ∈ shard_file <$> l.
Proof.
  induction l as [| sh l IH]; cbn [range_parts]; [by intros ?%elem_of_nil |].
  rewrite fmap_cons.
  destruct (_ <? _); [intros H; right; by apply IH |].
  destruct (_ >? _); [by intros ?%elem_of_nil |].
  intros [-> | H]%elem_of_cons; [left; done | right; by apply IH].
Qed.

(** Progress bookkeeping leaves the network, Cache Storage and the
    in-flight map alone. *)

Lemma same_store_with_state (pp : string) (g : SW.pstate -> SW.pstate) (w : SW.world) :
  same_store w (SW.with_state pp g w).
Proof. unfold SW.with_state. by destruct (SW.progressState w !! pp). Qed.

Lemma same_store_trans (w1 w2 w3 : SW.world) :
  same_store w1 w2 -> same_store w2 w3 -> same_store w1 w3.
Proof. intros (?&?&?) (?&?&?). repeat split; congruence. Qed.

Lemma same_store_doBroadcast (pp : string) (w : SW.world) :
  same_store w (SW.doBroadcast pp w).
Proof. unfold SW.doBroadcast. by destruct (SW.progressState w !! pp). Qed.

Lemma same_store_scheduleProgress (pp : string) (w : SW.world) :
  same_store w (SW.scheduleProgress pp w).
Proof.
  unfold SW.scheduleProgress. destruct (SW.progressState w !! pp) as [st|]; [| done].
  destruct (done_of _ _ _).
  - eapply same_store_trans; [apply same_store_with_state | apply same_store_doBroadcast].
  - destruct (_ >=? _); [apply same_store_doBroadcast |].
    destruct (SW.broadcastTimer st); [done | apply same_store_with_state].
Qed.

Lemma same_store_recordProgress (pp relPath : string) (bytes : Z) (w : SW.world) :
  same_store w (SW.recordProgress pp relPath bytes w).
Proof. apply same_store_with_state. Qed.

Lemma same_store_fetch_end (s : SW.source) (w : SW.world) :
  same_store w (SW.fetch_end s w).
Proof.
  unfold SW.fetch_end. destruct (SW.progress s); [| done].
  apply same_store_with_state.
Qed.

Section WorkerReads.

Variable s : SW.source.
Variable content : string -> list byte.
Variable names : list string.

Lemma SW_serves_frame (w w' : SW.world) :
  same_store w w' -> SW_serves s content names w -> SW_serves s content names w'.
Proof. intros (Hn & Hc & Hi). unfold SW_serves. rewrite Hn, Hc, Hi. done. Qed.

Lemma shard_url_inj (base f f' : string) :
  shard_url base f = shard_url base f' -> f = f'.
Proof.
  unfold shard_url. intros H%String.app_inj. by apply (String.app_inj "/") in H.
Qed.

Lemma SW_fetchShard_serves (file : string) (w : SW.world) :
  file ∈ names -> SW_serves s content names w ->
  exists w', SW.fetchShard file s w = (Ok (content file), w')
             /\ SW_serves s content names w'.
Proof.
  intros Hin Hs. pose proof Hs as (Hget & Hrange & Hcoh & Hfl).
  unfold SW.fetchShard. fold (shard_url (SW.cdnBase s) file).
  destruct (SW.cache_match _ w) as [c|] eqn:Hc.
  - exists w. split; [| done]. f_equal. f_equal.
    unfold SW.cache_match in Hc. destruct (SW.cache_available w); [| done].
    by apply Hcoh.
  - rewrite (Hfl file Hin). unfold try_finally, SW.shard_task, bind, SW.fetch.
    rewrite (Hget _ file Hin). simpl. eexists. split; [reflexivity |].
    assert (Hdel : forall f r (m : gmap string (result (list byte))),
               f ∈ names ->
               m !! shard_url (SW.cdnBase s) f = None ->
               delete (shard_url (SW.cdnBase s) file)
                      (<[shard_url (SW.cdnBase s) file := r]> m)
                 !! shard_url (SW.cdnBase s) f = None).
    { intros f r m Hf Hm. rewrite lookup_delete. case_decide; [done |].
      by rewrite lookup_insert_ne. }
    unfold SW_serves, modify, SW.cache_put. simpl.
    destruct (SW.cache_available w); simpl.
    + split; [done |]. split; [done |]. split.
      * intros f c' Hf. rewrite lookup_insert. case_decide as Heq; [| by apply Hcoh].
        apply shard_url_inj in Heq as ->. by intros [= <-].
      * intros f Hf. apply Hdel; [done | by apply Hfl].
    + split; [done |]. split; [done |]. split; [done |].
      intros f Hf. apply Hdel; [done | by apply Hfl].
Qed.

Lemma SW_fetchShardSlice_serves (file : string) (a b : Z) (w : SW.world) :
  file ∈ names -> SW_serves s content names w ->
  exists w', SW.fetchShardSlice file s a b w
             = (Ok (JS.slice (content file) a (b + 1)), w')
             /\ SW_serves s content names w'.
Proof.
  intros Hin Hs. pose proof Hs as (Hget & Hrange & Hcoh & Hfl).
  unfold SW.fetchShardSlice. fold (shard_url (SW.cdnBase s) file).
  destruct (SW.cache_match _ w) as [c|] eqn:Hc.
  - exists w. split; [| done]. f_equal. f_equal.
    unfold SW.cache_match in Hc. destruct (SW.cache_available w); [| done].
    by rewrite (Hcoh file c Hin Hc).
  - (* whatever the Range request yields, the fallback is available *)
    assert (Hfb : forall w1, same_store w w1 ->
              exists w', (full <- SW.fetchShard file s ;;
                          ret (JS.slice full a (b + 1))) w1
                         = (Ok (JS.slice (content file) a (b + 1)), w')
                         /\ SW_serves s content names w').
    { intros w1 Hw1.
      destruct (SW_fetchShard_serves file w1 Hin (SW_serves_frame _ _ Hw1 Hs))
        as (w' & Hf & Hs').
      exists w'. split; [| done]. unfold bind. by rewrite Hf. }
    unfold bind at 1, try_catch, bind at 1, SW.fetch.
    destruct (SW.net w (SW.requests w) (shard_url (SW.cdnBase s) file) (Some (a, b)))
      as [status body|] eqn:Hnet.
    + pose proof (Hrange _ file a b status body Hin Hnet) as Hbody. simpl.
      destruct (status =? 206); simpl.
      * subst body. eexists. split; [reflexivity |].
        by apply (SW_serves_frame w).
      * destruct (reply_ok status); simpl.
        -- rewrite Hbody by done. unfold bind, modify. simpl.
           eexists. split; [reflexivity |].
           unfold SW_serves, SW.cache_put. simpl.
           destruct (SW.cache_available w); simpl; [| done].
           split; [done |]. split; [done |]. split; [| done].
           intros f c' Hf. rewrite lookup_insert. case_decide as Heq; [| by apply Hcoh].
           apply shard_url_inj in Heq as ->. by intros [= <-].
        -- by apply Hfb.
    + simpl. by apply Hfb.
Qed.

Lemma SW_fetch_part_serves (p : part) (w : SW.world) :
  part_file p ∈ names -> SW_serves s content names w ->
  exists w', SW.fetch_part s p w = (Ok (piece content p), w')
             /\ SW_serves s content names w'.
Proof.
  intros Hin Hs. unfold SW.fetch_part, piece. destruct (whole_shard p).
  - by apply SW_fetchShard_serves.
  - by apply SW_fetchShardSlice_serves.
Qed.

End WorkerReads.

Lemma valid_range_guard (start end_ size : Z) :
  0 <= start -> start <= end_ -> end_ <= size - 1 ->
  Z.min end_ (size - 1) = end_
  /\ (start >? end_) || (start >=? size) = false.
Proof.
  intros H0 H1 H2. split; [lia |]. apply orb_false_iff. split.
  - destruct (Z.gtb_spec start end_); [lia | done].
  - destruct (Z.geb_spec start size); [lia | done].
Qed.

(** C1. For a sharded entry whose shard list is contiguous from 0 with
    sizes summing to the entry size, whose stored shards are as long as
    their records say and can be obtained, and for [0 <= start <= end <=
    size - 1]: both resolvers answer the ranged read with status 206,
    [Content-Range: bytes start-end/size] and, as body, bytes
    [start..end] of the concatenation of the shard contents in listed
    order, which is also the body of a full read of the entry. *)
Theorem range_read_is_slice_of_full_read (sha : string -> string)
    (content : string -> list byte) (e : file_entry) (l : list shard)
    (sn : Node.source) (ss : SW.source) (start end_ : Z) (relPath : string)
    (wn : Node.world) (ws : SW.world) :
  entry_shards e = Some l ->
  shards_wf (entry_size e) l ->
  sizes_match content l ->
  0 <= start -> start <= end_ -> end_ <= entry_size e - 1 ->
  Node_serves sha sn content (shard_file <$> l) wn ->
  SW_serves ss content (shard_file <$> l) ws ->
  let body := bytes_between start end_ (shard_bytes content l) in
  (exists wn', Node._respondRange sha e sn start end_ relPath wn
               = (Ok (response_206 ("X-Model-Resolver", "range")%string
                                   start end_ (entry_size e) body), wn'))
  /\ (exists ws', SW.respondRange e ss start end_ relPath ws
                  = (Ok (response_206 ("X-Model-SW", "range")%string
                                      start end_ (entry_size e) body), ws'))
  /\ (exists wn', Node._respondFull sha e sn relPath wn
                  = (Ok (Response 200 (Node.full_headers (entry_size e))
                                  (Some (shard_bytes content l))), wn'))
  /\ (exists ws', SW.respondFull e ss relPath ws
                  = (Ok (Response 200 (SW.full_headers (entry_size e))
                                  (Some (shard_bytes content l))), ws')).
Proof.
  intros Hl [Hcont Hsum] Hsizes H0 Hse Hend Hn Hs body.
  destruct (valid_range_guard start end_ (entry_size e) H0 Hse Hend) as [Hmin Hguard].
  assert (Hne : range_parts start end_ l <> []).
  { apply (range_parts_nonempty l 0); [done | lia | done | lia]. }
  assert (Hbody : concat (piece content <$> range_parts start end_ l) = body).
  { rewrite (range_parts_bytes content l 0) by done. unfold body.
    by rewrite !Z.sub_0_r. }
  split; [| split; [| split]].
  - unfold Node._respondRange. rewrite Hmin, Hguard.
    unfold Node.shards_or_throw. rewrite Hl.
    destruct (mapM_invariant (Node_serves sha sn content (shard_file <$> l))
                (Node.read_part sha sn) (piece content) (range_parts start end_ l))
      with (w := wn) as (w1 & Hread & _); [| done |].
    { intros p w Hp Hw. apply Node_read_part_serves; [| done].
      by eapply range_parts_files. }
    destruct (range_parts start end_ l) as [| p ps] eqn:Hparts; [done |].
    unfold bind at 1. rewrite Hread. unfold bind, modify, ret. simpl.
    rewrite <- Hbody. eexists. reflexivity.
  - unfold SW.respondRange. rewrite Hmin, Hguard, Hl.
    destruct (mapM_invariant (SW_serves ss content (shard_file <$> l))
                (SW.fetch_part ss) (piece content) (range_parts start end_ l))
      with (w := ws) as (w1 & Hread & _); [| done |].
    { intros p w Hp Hw. apply SW_fetch_part_serves; [| done].
      by eapply range_parts_files. }
    destruct (range_parts start end_ l) as [| p ps] eqn:Hparts; [done |].
    unfold bind at 1. rewrite Hread. unfold bind, modify, ret. simpl.
    rewrite <- Hbody. eexists. reflexivity.
  - unfold Node._respondFull, Node.shards_or_throw. rewrite Hl.
    destruct (mapM_invariant (Node_serves sha sn content (shard_file <$> l))
                (fun sh => buf <- Node.read_shard sha sn (shard_file sh) ;;
                           modify (Node._recordProgress sn relPath (shard_size sh)) ;;;
                           ret buf)
                (fun sh => content (shard_file sh)) l)
      with (w := wn) as (w1 & Hread & _); [| done |].
    { intros sh w Hin Hw.
      destruct (Node_read_shard_serves sha sn content (shard_file <$> l)
                  (shard_file sh) w)
        as (w' & Hr & Hw'); [by apply list_elem_of_fmap_2 | done |].
      eexists. unfold bind at 1. rewrite Hr. unfold bind, modify, ret. simpl.
      split; [reflexivity |]. by apply Node_recordProgress_serves. }
    unfold bind at 1. rewrite Hread. eexists. reflexivity.
  - unfold SW.respondFull, try_finally. rewrite Hl. simpl.
    destruct (mapM_invariant (SW_serves ss content (shard_file <$> l))
                (fun sh => buf <- SW.fetchShard (shard_file sh) ss ;;
                           modify (fun w =>
                             if SW.progress ss
                             then SW.scheduleProgress (SW.pathPrefix ss)
                                    (SW.recordProgress (SW.pathPrefix ss) relPath
                                       (shard_size sh) w)
                             else w) ;;;
                           ret buf)
                (fun sh => content (shard_file sh)) l)
      with (w := ws) as (w1 & Hread & _); [| done |].
    { intros sh w Hin Hw.
      destruct (SW_fetchShard_serves ss content (shard_file <$> l)
                  (shard_file sh) w)
        as (w' & Hr & Hw'); [by apply list_elem_of_fmap_2 | done |].
      eexists. unfold bind at 1. rewrite Hr. unfold bind, modify, ret. simpl.
      split; [reflexivity |]. destruct (SW.progress ss); [| done].
      eapply SW_serves_frame; [| exact Hw'].
      eapply same_store_trans;
        [apply same_store_recordProgress | apply same_store_scheduleProgress]. }
    unfold bind at 1. rewrite Hread. eexists. reflexivity.
Qed.

Lemma demo_names (file : string) :
  file ∈ shard_file <$> Demo.a_shards ->
  file = "a.bin.shard.000"%string \/ file = "a.bin.shard.001"%string
  \/ file = "a.bin.shard.002"%string.
Proof.
  intros Hin. simpl in Hin.
  repeat (apply elem_of_cons in Hin as [-> | Hin]; [tauto |]).
  by apply elem_of_nil in Hin.
Qed.

(** Scenario 2 of the specification: bytes 7..14 of [a.bin]. *)
Lemma range_read_is_slice_of_full_read_witness :
  (exists wn', Node._respondRange Demo.sha Demo.a_bin (Demo.local_source EmptyString) 7 14
                 "a.bin" (Demo.node_local EmptyString)
               = (Ok (response_206 ("X-Model-Resolver", "range")%string 7 14 25
                                   (Demo.ramp 7 8)), wn'))
  /\ (exists ws', SW.respondRange Demo.a_bin Demo.adaptive_source 7 14 "a.bin"
                    Demo.sw_boot
                  = (Ok (response_206 ("X-Model-SW", "range")%string 7 14 25
                                      (Demo.ramp 7 8)), ws')).
Proof.
  destruct (range_read_is_slice_of_full_read Demo.sha Demo.content Demo.a_bin
              Demo.a_shards (Demo.local_source EmptyString) Demo.adaptive_source 7 14
              "a.bin" (Demo.node_local EmptyString) Demo.sw_boot)
    as (Hn & Hs & _).
  - reflexivity.
  - split; [simpl; lia | reflexivity].
  - repeat constructor.
  - lia.
  - lia.
  - simpl. lia.
  - unfold Node_serves. rewrite decide_False by done.
    intros file [-> | [-> | ->]]%demo_names; reflexivity.
  - repeat split.
    + intros n file [-> | [-> | ->]]%demo_names; reflexivity.
    + intros n file a b status body [-> | [-> | ->]]%demo_names [= <- <-];
        reflexivity.
    + intros file c _. simpl. by rewrite lookup_empty.
  - split; [exact Hn | exact Hs].
Defined.

(** * Packager: byte-split *)

Section ByteSplit.

Variable CHUNK_SIZE : Z.
Variable file_sha256 : list byte -> string.
Variable fn : string.

Local Abbreviation n := (Z.to_nat CHUNK_SIZE).

Lemma pieces_nth (fuel : nat) (l : list byte) (i : nat) (p : list byte) :
  (0 < n)%nat -> (length l <= fuel)%nat ->
  Packager.pieces fuel n l !! i = Some p ->
  p = take n (drop (i * n) l) /\ (i * n < length l)%nat.
Proof.
  intros Hn. revert l i. induction fuel as [| fuel IH]; intros l i Hfuel Hi.
  - done.
  - cbn [Packager.pieces] in Hi. destruct l as [| b l]; [done |].
    destruct i as [| i].
    + simpl in Hi. injection Hi as <-. simpl. split; [done | lia].
    + simpl in Hi. apply IH in Hi as [-> Hlt].
      * rewrite length_drop in Hlt. split.
        -- rewrite drop_drop. do 2 f_equal.
        -- simpl in *. lia.
      * rewrite length_drop. simpl in *. lia.
Qed.

Lemma pieces_length (fuel : nat) (l : list byte) :
  (0 < n)%nat -> (length l <= fuel)%nat ->
  (length l <= length (Packager.pieces fuel n l) * n)%nat
  /\ (forall i, i < length (Packager.pieces fuel n l) -> i * n < length l)%nat.
Proof.
  intros Hn. revert l. induction fuel as [| fuel IH]; intros l Hfuel.
  - destruct l; simpl in *; [split; [lia | intros; lia] | lia].
  - cbn [Packager.pieces]. destruct l as [| b l]; [simpl; split; [lia | intros; lia] |].
    destruct (IH (drop n (b :: l))) as [H1 H2].
    { rewrite length_drop. simpl in *. lia. }
    rewrite length_drop in H1, H2. cbn [length] in *. split; [lia |].
    intros [| i] Hi; [lia |]. specialize (H2 i). lia.
Qed.

Lemma shard_loop_lookup (sfs : list (list byte)) (i0 : nat) (o : Z) (j : nat)
    (sh : shard) :
  (forall k p, sfs !! k = Some p -> (S k < length sfs)%nat ->
               Packager.get_size p = CHUNK_SIZE) ->
  expected_shards file_sha256 fn i0 o sfs !! j = Some sh ->
  exists sf, sfs !! j = Some sf
             /\ sh = Shard (Packager.shard_name fn (i0 + j))
                           (o + Z.of_nat j * CHUNK_SIZE)
                           (Packager.get_size sf) (file_sha256 sf).
Proof.
  revert i0 o j. induction sfs as [| sf sfs IH]; intros i0 o j Hfull Hj; [done |].
  destruct j as [| j]; simpl in Hj.
  - injection Hj as <-. exists sf. split; [done |].
    rewrite Nat.add_0_r. f_equal. lia.
  - apply IH in Hj as (sf' & Hsf' & ->).
    + exists sf'. split; [done |].
      assert (Hsf : Packager.get_size sf = CHUNK_SIZE).
      { apply (Hfull 0%nat); [done |]. apply lookup_lt_Some in Hsf'. simpl. lia. }
      rewrite Hsf. f_equal; [f_equal; lia | lia].
    + intros k p Hk Hlt. apply (Hfull (S k)); [done | simpl; lia].
Qed.

Lemma shard_loop_length (sfs : list (list byte)) (i0 : nat) (o : Z) :
  length (expected_shards file_sha256 fn i0 o sfs) = length sfs.
Proof. revert i0 o. induction sfs; intros; simpl; [done | by rewrite IHsfs]. Qed.

Lemma shard_loop_contiguous (sfs : list (list byte)) (i0 : nat) (o : Z) :
  contiguous_from o (expected_shards file_sha256 fn i0 o sfs)
  /\ sum_sizes (expected_shards file_sha256 fn i0 o sfs)
     = Z.of_nat (length (concat sfs)).
Proof.
  revert i0 o. induction sfs as [| sf sfs IH]; intros i0 o; [done |].
  cbn [expected_shards contiguous_from shard_offset shard_size concat].
  destruct (IH (S i0) (o + Packager.get_size sf)) as [H1 H2].
  unfold Packager.get_size in *. split; [split; [done | split; [lia | done]] |].
  unfold sum_sizes in *. cbn [foldr shard_size]. rewrite H2, length_app. lia.
Qed.

Lemma pieces_concat (fuel : nat) (l : list byte) :
  (0 < n)%nat -> (length l <= fuel)%nat ->
  concat (Packager.pieces fuel n l) = l.
Proof.
  intros Hn. revert l. induction fuel as [| fuel IH]; intros l Hfuel.
  - destruct l; [done | simpl in *; lia].
  - cbn [Packager.pieces]. destruct l as [| b l]; [done |].
    cbn [concat]. rewrite IH; [apply take_drop |].
    rewrite length_drop. simpl in *. lia.
Qed.

End ByteSplit.

(** A file larger than the chunk size, and no larger than 1000 chunks,
    is cut by [split] into at most 1000 pieces; the shard list these
    pieces are meant to get starts at offset 0, is contiguous, sums to
    the file size, has every shard but possibly the last of exactly
    chunk-size bytes, and its [i]-th record carries the name
    [fn.shard.NNN], its offset, its size and the SHA-256 of exactly its
    bytes of the file. *)
Lemma split_shard_list (CHUNK_SIZE : Z) (file_sha256 : list byte -> string)
    (fn : string) (content : list byte) :
  0 < CHUNK_SIZE ->
  Packager.get_size content > CHUNK_SIZE ->
  Packager.get_size content <= 1000 * CHUNK_SIZE ->
  exists sfs,
    Packager.split_b_d_a3 CHUNK_SIZE content = Some sfs
    /\ concat sfs = content
    /\ (0 < length sfs <= 1000)%nat
    /\ let l := expected_shards file_sha256 fn 0 0 sfs in
       contiguous_from 0 l
       /\ sum_sizes l = Packager.get_size content
       /\ forall i sh, l !! i = Some sh ->
            shard_file sh = Packager.shard_name fn i
            /\ shard_offset sh = Z.of_nat i * CHUNK_SIZE
            /\ 0 < shard_size sh <= CHUNK_SIZE
            /\ ((S i < length l)%nat -> shard_size sh = CHUNK_SIZE)
            /\ shard_sha256 sh
               = file_sha256 (bytes_between (shard_offset sh)
                                (shard_offset sh + shard_size sh - 1) content).
Proof.
  intros Hpos Hbig Hfit.
  set (n := Z.to_nat CHUNK_SIZE). assert (Hn : (0 < n)%nat) by (unfold n; lia).
  set (sfs := Packager.pieces (length content) n content).
  exists sfs.
  assert (Hfull : forall k p, sfs !! k = Some p -> (S k < length sfs)%nat ->
                              Packager.get_size p = CHUNK_SIZE).
  { intros k p Hk Hlt.
    apply (pieces_nth CHUNK_SIZE) in Hk as [-> _]; [| done | done].
    destruct (pieces_length CHUNK_SIZE (length content) content Hn) as [_ Hidx]; [done |].
    specialize (Hidx (S k) Hlt). fold n in Hidx |- *.
    unfold Packager.get_size. rewrite length_take, length_drop.
    unfold n in *. simpl in Hidx. lia. }
  split; [| split; [| split; [| split; [| split]]]].
  - unfold Packager.split_b_d_a3.
    destruct (Z.leb_spec CHUNK_SIZE 0); [lia |].
    destruct (Z.ltb_spec (1000 * CHUNK_SIZE) (Packager.get_size content)); [lia |].
    done.
  - by apply (pieces_concat CHUNK_SIZE).
  - destruct (pieces_length CHUNK_SIZE (length content) content Hn) as [Hlen Hidx];
      [done |].
    fold n sfs in Hlen, Hidx. unfold Packager.get_size in *. split.
    + destruct (length sfs); [| lia]. simpl in Hlen. lia.
    + destruct (length sfs) as [| k] eqn:Hk; [lia |].
      specialize (Hidx k ltac:(lia)). unfold n in *. nia.
  - apply shard_loop_contiguous.
  - destruct (shard_loop_contiguous file_sha256 fn sfs 0 0) as [_ ->].
    unfold sfs. by rewrite (pieces_concat CHUNK_SIZE).
  - intros i sh Hi.
    assert (Hlt : (S i < length (expected_shards file_sha256 fn 0 0 sfs))%nat
                  -> (S i < length sfs)%nat) by (by rewrite shard_loop_length).
    apply (shard_loop_lookup CHUNK_SIZE) in Hi as (sf & Hsf & ->); [| done].
    cbn [shard_file shard_offset shard_size shard_sha256].
    pose proof Hsf as Hsf'.
    apply (pieces_nth CHUNK_SIZE) in Hsf' as [-> Hin]; [| done | done].
    fold n in Hin |- *.
    assert (Hlen : Packager.get_size (take n (drop (i * n) content))
                   = Z.min CHUNK_SIZE (Z.of_nat (length content) - Z.of_nat i * CHUNK_SIZE)).
    { unfold Packager.get_size. rewrite length_take, length_drop. unfold n in *. lia. }
    split; [done |]. split; [lia |]. split; [unfold n in *; lia |].
    split; [intros H; apply (Hfull i); [done | by apply Hlt] |].
    f_equal. unfold bytes_between. rewrite Hlen.
    replace (Z.to_nat (0 + Z.of_nat i * CHUNK_SIZE)) with (i * n)%nat by (unfold n; lia).
    destruct (decide (n <= length content - i * n)%nat).
    + f_equal. unfold n in *. lia.
    + rewrite !take_ge; [done | rewrite length_drop; unfold n in *; lia ..].
Qed.
(** Phase 4 on two inputs that share a base name, in a run that finds
    no earlier package, with a chunk size of 4: both are cut into
    [model.bin.shard.NNN], the second over the first, and the expansion
    of [model.bin.shard.*] for the second file also yields the third
    shard of the first.  The shard list recorded for the second file has
    three records for a file of two pieces: its sizes sum to 8, not to
    the file's 6 bytes, and its second shard, which is not the last, is
    shorter than the chunk size. *)
Lemma same_name_inputs_example :
  let l := [Shard "model.bin.shard.000" 0 4 "4"; Shard "model.bin.shard.001" 4 2 "2";
            Shard "model.bin.shard.002" 6 2 "2"]%string in
  Packager.needs_byte_split 4 (Demo.ramp 100 6) = true
  /\ snd <$> Packager.phase4 4 Demo.digest false Demo.same_name_inputs ∅
     = Some [("a/model.bin",
              FileEntry 10 "10" None
                (Some [Shard "model.bin.shard.000" 0 4 "4";
                       Shard "model.bin.shard.001" 4 4 "4";
                       Shard "model.bin.shard.002" 8 2 "2"]));
             ("b/model.bin", FileEntry 6 "6" None (Some l))]%string
  /\ (Packager.phase4 4 Demo.digest false Demo.same_name_inputs ∅
       ≫= fun r => r.1 !! "model.bin.shard.002"%string) = Some (Demo.ramp 8 2)
  /\ sum_sizes l = 8
  /\ ~ shards_wf 6 l.
Proof.
  cbv zeta. split; [reflexivity |]. split; [vm_compute; reflexivity |].
  split; [vm_compute; reflexivity |]. split; [reflexivity |].
  intros [_ Hsum]. vm_compute in Hsum. discriminate.
Qed.

(** A second way in which a file larger than the chunk size gets no
    shard list: with the smallest chunk size the packager accepts, 1 MiB,
    a file of 1000 MiB + 1 byte makes [split -a 3] run out of suffixes,
    and the script stops. *)
Lemma split_suffixes_exhausted (out : gmap string (list byte))
    (entries : list (string * file_entry)) :
  Packager.get_size Demo.big_file > Demo.MiB
  /\ Packager.write_deliverable Demo.MiB Demo.digest false Demo.big_input
       (out, entries) = None.
Proof.
  assert (Hsize : Packager.get_size Demo.big_file = 1000 * Demo.MiB + 1).
  { unfold Packager.get_size, Demo.big_file. rewrite length_replicate.
    apply Z2Nat.id. unfold Demo.MiB. lia. }
  split; [rewrite Hsize; unfold Demo.MiB; lia |].
  unfold Packager.write_deliverable, Packager.needs_byte_split, Packager.split_b_d_a3.
  cbn [Packager.d_pp Demo.big_input].
  rewrite Hsize.
  replace (1000 * Demo.MiB + 1 >? Demo.MiB) with true by reflexivity.
  replace (Demo.MiB <=? 0) with false by reflexivity.
  replace (1000 * Demo.MiB <? 1000 * Demo.MiB + 1) with true by reflexivity.
  reflexivity.
Qed.

(** * Adaptive narrowing and the percent reported *)

(** What narrowing does keep: a file of the new manifest gets back the
    count saved for it, clamped at its size. *)
Lemma switch_manifest_restores (fm : filemap) (largest : string) (st : SW.pstate)
    (vp : string) :
  SW.files (SW.switch_manifest fm largest st) !! vp
  = SW.restore (f_loaded <$> SW.files st) vp
    <$> (set_files_loop fm
           (default [] (manifest_files <$> assoc largest (manifests_of fm)))).1 !! vp.
Proof.
  unfold SW.switch_manifest. simpl. rewrite map_lookup_imap.
  by destruct (_ !! vp).
Qed.

(** C2, evaluated on the failing run.  [extra.json] is in no manifest, so
    it is tracked on request (denominator 300 + 50) and its 50 bytes are
    counted; the request for [a.bin] then narrows [B] to [A], and the
    repopulated state restores counts only for files of [A]:
    [loadedBytes] falls from 50 to 0, and the two events a subscriber
    sees carry 14 and then 8 percent. *)
Theorem narrowing_drops_loaded_bytes :
  SW.loadedBytes <$> SW.progressState Demo.before_narrowing !! "/m/" = Some 50
  /\ SW.selectedManifest <$> SW.progressState Demo.before_narrowing !! "/m/"
     = Some (Some "B"%string)
  /\ SW.loadedBytes
       <$> SW.progressState (SW.narrowManifest "/m/" "a.bin" Demo.before_narrowing)
             !! "/m/" = Some 0
  /\ SW.selectedManifest
       <$> SW.progressState (SW.narrowManifest "/m/" "a.bin" Demo.before_narrowing)
             !! "/m/" = Some (Some "A"%string)
  /\ msg_percent
       <$> SW.posted (SW.run (Demo.parse Demo.fm) Demo.narrowing_trace Demo.sw_boot)
     = [14; 8].
Proof. repeat split; vm_compute; reflexivity. Qed.

(** * Finalization *)

Lemma SW_doBroadcast_posted (pp : string) (w : SW.world) (st : SW.pstate) :
  SW.progressState w !! pp = Some st ->
  SW.posted (SW.doBroadcast pp w)
  = SW.posted w ++ [SW.broadcast_message pp (SW.set_lastBroadcast (SW.now w) st)].
Proof. intros H. unfold SW.doBroadcast. by rewrite H. Qed.

Lemma SW_with_state_fields (pp : string) (g : SW.pstate -> SW.pstate) (w : SW.world) :
  SW.posted (SW.with_state pp g w) = SW.posted w
  /\ SW.now (SW.with_state pp g w) = SW.now w.
Proof. unfold SW.with_state. by destruct (SW.progressState w !! pp). Qed.

(** C6 as amended. Finalizing a state that is not yet finalized posts
    exactly one progress event, with [done = true], and marks the state
    finalized; finalizing again changes nothing and posts nothing.  An
    event with [done = true] is also posted, without finalization, when
    progress is scheduled with [loadedBytes >= totalBytes > 0], and once
    more each time progress is scheduled for a finalized state. *)
Theorem finalize_posts_one_done_event (pp : string) (w : SW.world) (st : SW.pstate) :
  SW.progressState w !! pp = Some st ->
  (SW.finalized st = false ->
     exists m, SW.posted (SW.finalizeProgress pp w) = SW.posted w ++ [m]
               /\ msg_done m = true
               /\ SW.finalized <$> SW.progressState (SW.finalizeProgress pp w) !! pp
                  = Some true)
  /\ (SW.finalized st = true -> SW.finalizeProgress pp w = w)
  /\ (SW.finalized st = true
      \/ (SW.loadedBytes st >= SW.totalBytes st /\ SW.totalBytes st > 0) ->
      exists m, SW.posted (SW.scheduleProgress pp w) = SW.posted w ++ [m]
                /\ msg_done m = true).
Proof.
  intros Hst. split; [| split].
  - intros Hfin. unfold SW.finalizeProgress. rewrite Hst, Hfin.
    assert (Hst' : SW.progressState (SW.with_state pp SW.finalize_state w) !! pp
                   = Some (SW.finalize_state st)).
    { by rewrite SW_with_state_lookup, decide_True, Hst. }
    eexists. split; [| split].
    + rewrite (SW_doBroadcast_posted _ _ _ Hst').
      destruct (SW_with_state_fields pp SW.finalize_state w) as [-> ->]. reflexivity.
    + reflexivity.
    + unfold SW.doBroadcast. rewrite Hst'. simpl. by rewrite lookup_insert_eq.
  - intros Hfin. unfold SW.finalizeProgress. by rewrite Hst, Hfin.
  - intros Hdone.
    assert (Hd : done_of (SW.finalized st) (SW.loadedBytes st) (SW.totalBytes st) = true).
    { unfold done_of. destruct Hdone as [-> | [Hge Hgt]]; [done |].
      apply orb_true_iff. right. apply andb_true_iff. split.
      - destruct (Z.geb_spec (SW.loadedBytes st) (SW.totalBytes st)); [done | lia].
      - destruct (Z.gtb_spec (SW.totalBytes st) 0); [done | lia]. }
    unfold SW.scheduleProgress. rewrite Hst, Hd.
    assert (Hst' : SW.progressState (SW.with_state pp (SW.set_broadcastTimer None) w)
                     !! pp = Some (SW.set_broadcastTimer None st)).
    { by rewrite SW_with_state_lookup, decide_True, Hst. }
    eexists. split.
    + rewrite (SW_doBroadcast_posted _ _ _ Hst').
      destruct (SW_with_state_fields pp (SW.set_broadcastTimer None) w) as [-> ->].
      reflexivity.
    + exact Hd.
Qed.

Lemma finalize_posts_one_done_event_witness :
  (exists m, SW.posted (SW.finalizeProgress "/m/" Demo.sw_tracking)
             = SW.posted Demo.sw_tracking ++ [m] /\ msg_done m = true)
  /\ SW.finalizeProgress "/m/" Demo.after_complete = Demo.after_complete.
Proof.
  split.
  - destruct (finalize_posts_one_done_event "/m/" Demo.sw_tracking
                (SW.PState Adaptive 25 20 {["a.bin"%string := FProg 25 20]}
                           {["a.bin"%string]} ["A"%string] (Some "A"%string)
                           1 None false 0 None "a.bin") eq_refl) as [H _].
    destruct (H eq_refl) as (m & Hm & Hd & _). exists m. split; [exact Hm | exact Hd].
  - assert (Hst : exists st, SW.progressState Demo.after_complete !! "/m/"%string
                             = Some st /\ SW.finalized st = true).
    { eexists. split; [vm_compute; reflexivity | reflexivity]. }
    destruct Hst as (st & Hst & Hfin).
    destruct (finalize_posts_one_done_event "/m/" Demo.after_complete st Hst)
      as (_ & H & _).
    exact (H Hfin).
Defined.

(** C6 as stated fails. After the page's [MODEL_SW_COMPLETE] the state is
    finalized and two events with [done = true] have been posted, not
    one: the first when the manifest's bytes were all loaded, the second
    by the finalization.  A ranged read served afterwards, with no
    [MODEL_SW_INIT] in between, posts a third. *)
Lemma finalize_once_counterexample :
  SW.finalized <$> SW.progressState Demo.after_complete !! "/m/" = Some true
  /\ msg_done <$> SW.posted Demo.after_complete = [true; true]
  /\ msg_done <$> SW.posted Demo.after_late_read = [true; true; true].
Proof. repeat split; vm_compute; reflexivity. Qed.

(** * Shard fetch deduplication *)

Lemma filter_at_most_one {A} (P : A -> bool) (l : list A) :
  (forall i j x y, l !! i = Some x -> l !! j = Some y ->
                   P x = true -> P y = true -> i = j) ->
  (length (List.filter P l) <= 1)%nat.
Proof.
  induction l as [| a l IH]; intros H; simpl; [lia |].
  destruct (P a) eqn:Ha.
  - assert (Hnone : List.filter P l = []).
    { destruct (List.filter P l) as [| y ys] eqn:Hf; [done |].
      assert (Hy : In y (List.filter P l)) by (rewrite Hf; left; done).
      apply filter_In in Hy as [Hin Hy].
      apply list_elem_of_In, list_elem_of_lookup in Hin as [j Hj].
      specialize (H 0%nat (S j) a y eq_refl Hj Ha Hy). lia. }
    rewrite Hnone. simpl. lia.
  - apply IH. intros i j x y Hi Hj Hx Hy.
    specialize (H (S i) (S j) x y Hi Hj Hx Hy). lia.
Qed.

Section DedupInvariant.

Import Dedup.

Lemma set_caller_eq (c : nat) (p : pc) (s : state) (k : caller) :
  callers s !! c = Some k ->
  set_caller c p s
  = State (cache s) (shardInflight s) (tasks s) (<[c := Caller (c_slice k) p]> (callers s)).
Proof. intros H. unfold set_caller. by rewrite H. Qed.

Lemma set_task_eq (pid : nat) (ts : task_state) (s : state) (t : task) :
  tasks s !! pid = Some t ->
  set_task pid ts s
  = State (cache s) (shardInflight s) (<[pid := Task (t_url t) ts]> (tasks s)) (callers s).
Proof. intros H. unfold set_task. by rewrite H. Qed.

(** Moving a caller to a program point where it owns nothing. *)
Lemma inv_caller_moves (fl : gmap string nat) (ts : list task) (cs : list caller)
    (c : nat) (k' : caller) :
  (forall url pid, ~ owns k' url pid) ->
  dedup_inv fl ts cs -> dedup_inv fl ts (<[c := k']> cs).
Proof.
  intros Hno (I1 & I2 & I3). split; [done |]. split.
  - intros c1 k url pid Hc1 Hown.
    destruct (decide (c = c1)) as [-> | Hne].
    + apply list_lookup_insert_Some in Hc1 as [(_ & <- & _) | [? _]]; [| done].
      by apply Hno in Hown.
    + rewrite list_lookup_insert_ne in Hc1 by done. by eapply I2.
  - intros c1 c2 k1 k2 url url' pid Hc1 Hc2 Ho1 Ho2.
    destruct (decide (c = c1)) as [-> | Hne1].
    { apply list_lookup_insert_Some in Hc1 as [(_ & <- & _) | [? _]]; [| done].
      by apply Hno in Ho1. }
    destruct (decide (c = c2)) as [-> | Hne2].
    { apply list_lookup_insert_Some in Hc2 as [(_ & <- & _) | [? _]]; [| done].
      by apply Hno in Ho2. }
    rewrite list_lookup_insert_ne in Hc1, Hc2 by done. by eapply I3.
Qed.

(** A new caller starts at a cache lookup and owns nothing. *)
Lemma inv_caller_arrives (fl : gmap string nat) (ts : list task) (cs : list caller)
    (k' : caller) :
  (forall url pid, ~ owns k' url pid) ->
  dedup_inv fl ts cs -> dedup_inv fl ts (cs ++ [k']).
Proof.
  intros Hno (I1 & I2 & I3).
  assert (Hold : forall c k url pid, (cs ++ [k']) !! c = Some k -> owns k url pid ->
                                     cs !! c = Some k).
  { intros c k url pid Hc Hown.
    apply lookup_app_Some in Hc as [Hc | [_ Hc]]; [done |].
    apply list_lookup_singleton_Some in Hc as [_ <-]. by apply Hno in Hown. }
  split; [done |]. split.
  - intros c k url pid Hc Hown. eapply I2; [by eapply Hold | done].
  - intros c1 c2 k1 k2 url url' pid Hc1 Hc2 Ho1 Ho2.
    eapply I3; [by eapply Hold | by eapply Hold | done | done].
Qed.

(** A task changes state but stays registered while unsettled. *)
Lemma inv_task_moves (fl : gmap string nat) (ts : list task) (cs : list caller)
    (pid : nat) (t : task) (st' : task_state) :
  ts !! pid = Some t -> unsettled t ->
  dedup_inv fl ts cs -> dedup_inv fl (<[pid := Task (t_url t) st']> ts) cs.
Proof.
  intros Ht Hun (I1 & I2 & I3). split; [| split; [| done]].
  - intros pid' t' Ht' Hun'.
    destruct (decide (pid = pid')) as [-> | Hne].
    + apply list_lookup_insert_Some in Ht' as [(_ & <- & _) | [? _]]; [| done].
      simpl. by apply I1.
    + rewrite list_lookup_insert_ne in Ht' by done. by apply I1.
  - intros c k url pid' Hc Hown.
    destruct (I2 c k url pid' Hc Hown) as (Hfl & t' & Ht' & Hurl).
    split; [done |]. destruct (decide (pid = pid')) as [-> | Hne].
    + exists (Task (t_url t) st'). split; [| simpl; congruence].
      apply list_lookup_insert_eq. by eapply lookup_lt_Some.
    + exists t'. by rewrite list_lookup_insert_ne.
Qed.

(** Step 3 of [fetchShard]: a fetch is started only for a URL that has
    no registered promise. *)
Lemma inv_start (fl : gmap string nat) (ts : list task) (cs : list caller)
    (c : nat) (k : caller) (url : string) :
  cs !! c = Some k -> (forall u p, ~ owns k u p) -> fl !! url = None ->
  dedup_inv fl ts cs ->
  dedup_inv (<[url := length ts]> fl) (ts ++ [Task url Fetching])
            (<[c := Caller (c_slice k) (Owner url (length ts))]> cs).
Proof.
  intros Hc Hk Hnone (I1 & I2 & I3). split; [| split].
  - intros pid t Ht Hun.
    apply lookup_app_Some in Ht as [Ht | [Hge Ht]].
    + specialize (I1 pid t Ht Hun).
      rewrite lookup_insert_ne; [done | congruence].
    + apply list_lookup_singleton_Some in Ht as [Hpid <-]. simpl.
      rewrite lookup_insert_eq. f_equal. lia.
  - intros c1 k1 u p Hc1 Hown.
    destruct (decide (c = c1)) as [-> | Hne].
    + apply list_lookup_insert_Some in Hc1 as [(_ & <- & _) | [? _]]; [| done].
      unfold owns in Hown. simpl in Hown. injection Hown as <- <-.
      rewrite lookup_insert_eq. split; [done |].
      exists (Task url Fetching). split; [| done].
      rewrite lookup_app_r by done. by rewrite Nat.sub_diag.
    + rewrite list_lookup_insert_ne in Hc1 by done.
      destruct (I2 c1 k1 u p Hc1 Hown) as (Hfl & t & Ht & Hu).
      split; [rewrite lookup_insert_ne; [done | congruence] |].
      exists t. split; [| done]. by apply lookup_app_l_Some.
  - assert (Hfresh : forall c1 k1 u, cs !! c1 = Some k1 ->
                                     ~ owns k1 u (length ts)).
    { intros c1 k1 u Hc1 Hown.
      destruct (I2 c1 k1 u _ Hc1 Hown) as (_ & t & Ht & _).
      apply lookup_lt_Some in Ht. lia. }
    intros c1 c2 k1 k2 u u' p Hc1 Hc2 Ho1 Ho2.
    destruct (decide (c = c1)) as [<- | Hne1];
      destruct (decide (c = c2)) as [<- | Hne2]; [done | | |].
    + apply list_lookup_insert_Some in Hc1 as [(_ & <- & _) | [? _]]; [| done].
      rewrite list_lookup_insert_ne in Hc2 by done.
      unfold owns in Ho1. simpl in Ho1. injection Ho1 as <- <-.
      destruct (Hfresh _ _ _ Hc2 Ho2).
    + apply list_lookup_insert_Some in Hc2 as [(_ & <- & _) | [? _]]; [| done].
      rewrite list_lookup_insert_ne in Hc1 by done.
      unfold owns in Ho2. simpl in Ho2. injection Ho2 as <- <-.
      destruct (Hfresh _ _ _ Hc1 Ho1).
    + rewrite list_lookup_insert_ne in Hc1, Hc2 by done. by eapply I3.
Qed.

(** The [finally] of [fetchShard]: the owner of a settled promise removes
    the registration. *)
Lemma inv_finish (fl : gmap string nat) (ts : list task) (cs : list caller)
    (c : nat) (k : caller) (url : string) (pid : nat) (t : task) (p : pc) :
  cs !! c = Some k -> owns k url pid -> ts !! pid = Some t -> ~ unsettled t ->
  (forall u q, p <> Owner u q) ->
  dedup_inv fl ts cs ->
  dedup_inv (delete url fl) ts (<[c := Caller (c_slice k) p]> cs).
Proof.
  intros Hc Hown Ht Hset Hp Hinv. pose proof Hinv as (I1 & I2 & I3).
  destruct (I2 c k url pid Hc Hown) as (Hfl & _).
  assert (Hmoved : dedup_inv fl ts (<[c := Caller (c_slice k) p]> cs)).
  { apply inv_caller_moves; [| done]. intros u q Ho. by apply (Hp u q). }
  destruct Hmoved as (_ & J2 & J3). split; [| split; [| done]].
  - intros pid' t' Ht' Hun. specialize (I1 pid' t' Ht' Hun).
    destruct (decide (t_url t' = url)) as [Heq | Hne].
    + rewrite Heq, Hfl in I1. injection I1 as <-.
      rewrite Ht in Ht'. injection Ht' as <-. done.
    + by rewrite lookup_delete_ne.
  - intros c1 k1 u q Hc1 Ho1.
    destruct (J2 c1 k1 u q Hc1 Ho1) as (Hfl1 & Hex). split; [| done].
    destruct (decide (u = url)) as [-> | Hne]; [| by rewrite lookup_delete_ne].
    exfalso. rewrite Hfl in Hfl1. injection Hfl1 as <-.
    destruct (decide (c = c1)) as [-> | Hne].
    + apply list_lookup_insert_Some in Hc1 as [(_ & <- & _) | [? _]]; [| done].
      by apply (Hp url pid).
    + rewrite list_lookup_insert_ne in Hc1 by done.
      apply Hne. by eapply (I3 c c1 k k1 url url pid).
Qed.

Lemma step_preserves (l : label) (s s' : state) :
  state_inv s -> step l s = Some s' -> state_inv s'.
Proof.
  unfold state_inv. intros Hinv Hstep.
  destruct l as [url | url sub0 sub1 | c cache_ok | pid reply | pid cache_ok
                | c reply | c]; simpl in Hstep.
  - injection Hstep as <-. simpl. apply inv_caller_arrives; [| done].
    intros u p Ho. discriminate Ho.
  - injection Hstep as <-. simpl. apply inv_caller_arrives; [| done].
    intros u p Ho. discriminate Ho.
  - destruct (callers s !! c) as [k|] eqn:Hk; [| done]. simpl in Hstep.
    destruct (c_pc k) eqn:Hpc; try done.
    + (* SliceAtCache *)
      destruct (if cache_ok then cache s !! url else None);
        injection Hstep as <-; rewrite (set_caller_eq _ _ _ _ Hk); simpl;
        (apply inv_caller_moves; [intros u p Ho; discriminate Ho | done]).
    + (* AtCache *)
      destruct (if cache_ok then cache s !! url else None).
      * injection Hstep as <-. rewrite (set_caller_eq _ _ _ _ Hk). simpl.
        apply inv_caller_moves; [intros u p Ho; discriminate Ho | done].
      * injection Hstep as <-. unfold join_or_start.
        destruct (shardInflight s !! url) as [pid|] eqn:Hfl.
        -- rewrite (set_caller_eq _ _ _ _ Hk). simpl.
           apply inv_caller_moves; [intros u p Ho; discriminate Ho | done].
        -- unfold set_caller. simpl. rewrite Hk. simpl.
           apply inv_start; try done.
           intros u p Ho. unfold owns in Ho. congruence.
  - destruct (tasks s !! pid) as [t|] eqn:Ht; [| done]. simpl in Hstep.
    destruct (t_state t) eqn:Hts; try done.
    assert (Hun : unsettled t) by (unfold unsettled; by rewrite Hts).
    destruct reply as [status body|];
      [destruct (reply_ok status) |];
      injection Hstep as <-; rewrite (set_task_eq _ _ _ _ Ht); simpl;
      by apply inv_task_moves.
  - destruct (tasks s !! pid) as [t|] eqn:Ht; [| done]. simpl in Hstep.
    destruct (t_state t) eqn:Hts; try done.
    assert (Hun : unsettled t) by (unfold unsettled; by rewrite Hts).
    injection Hstep as <-. destruct cache_ok;
      (erewrite set_task_eq; [| simpl; exact Ht]); simpl;
      by apply inv_task_moves.
  - destruct (callers s !! c) as [k|] eqn:Hk; [| done]. simpl in Hstep.
    destruct (c_pc k) eqn:Hpc; try done.
    destruct reply as [status body|];
      [destruct (status =? 206); [| destruct (reply_ok status)] |];
      injection Hstep as <-;
      (erewrite set_caller_eq; [| simpl; exact Hk]); simpl;
      (apply inv_caller_moves; [intros u p Ho; discriminate Ho | done]).
  - destruct (callers s !! c) as [k|] eqn:Hk; [| done]. simpl in Hstep.
    destruct (c_pc k) eqn:Hpc; try done.
    + (* Joined *)
      destruct (tasks s !! pid) as [t|] eqn:Ht; [| done]. simpl in Hstep.
      destruct (t_state t) eqn:Hts; try done.
      injection Hstep as <-. rewrite (set_caller_eq _ _ _ _ Hk). simpl.
      apply inv_caller_moves; [intros u p Ho; discriminate Ho | done].
    + (* Owner *)
      destruct (tasks s !! pid) as [t|] eqn:Ht; [| done]. simpl in Hstep.
      destruct (t_state t) eqn:Hts; try done.
      injection Hstep as <-.
      erewrite set_caller_eq; [| simpl; exact Hk]. simpl.
      eapply (inv_finish _ _ _ c k url pid t); try done.
      unfold unsettled. rewrite Hts. tauto.
Qed.

Lemma exec_preserves (ls : list label) (s s' : state) :
  state_inv s -> exec ls s = Some s' -> state_inv s'.
Proof.
  revert s. induction ls as [| l ls IH]; intros s Hinv Hexec; simpl in Hexec.
  - by injection Hexec as <-.
  - destruct (step l s) as [s1|] eqn:Hstep; [| done]. simpl in Hexec.
    eapply IH; [| done]. by eapply step_preserves.
Qed.

Lemma initial_inv (c0 : gmap string (list byte)) : state_inv (initial c0).
Proof. repeat split; intros; simplify_eq. Qed.

Lemma inv_one_full_fetch (s : state) (url : string) :
  state_inv s -> (full_fetches url s <= 1)%nat.
Proof.
  intros (I1 & _). unfold full_fetches. apply filter_at_most_one.
  intros i j x y Hi Hj Hx Hy. unfold fetching in Hx, Hy.
  apply andb_true_iff in Hx as [Hux Hsx], Hy as [Huy Hsy].
  apply bool_decide_eq_true in Hux, Huy.
  assert (Hi' := I1 i x Hi). assert (Hj' := I1 j y Hj).
  unfold unsettled in Hi', Hj'.
  destruct (t_state x); try done. destruct (t_state y); try done.
  specialize (Hi' I). specialize (Hj' I). congruence.
Qed.

End DedupInvariant.

(** C3 as amended. In every state the worker can reach, at most one
    full-shard fetch started by [fetchShard] is under way per URL.  A
    [fetchShard] caller that misses the cache while a promise is
    registered for the URL awaits that promise and starts nothing; it
    receives the promise's bytes (or its failure).  The caller that
    started the promise removes the registration once the promise has
    settled, whether fulfilled or rejected, and the next caller that
    misses the cache then starts a new fetch.  A [fetchShardSlice] caller
    that misses the cache sends its Range request whatever the in-flight
    map holds; such requests are neither registered nor deduplicated. *)
Theorem fetchShard_single_flight (c0 : gmap string (list byte))
    (ls : list Dedup.label) (s : Dedup.state) :
  Dedup.exec ls (Dedup.initial c0) = Some s ->
  (forall url, (Dedup.full_fetches url s <= 1)%nat)
  /\ (forall (c : nat) (k : Dedup.caller) (url : string) (pid : nat) (cache_ok : bool),
        Dedup.callers s !! c = Some k -> Dedup.c_pc k = Dedup.AtCache url ->
        (if cache_ok then Dedup.cache s !! url else None) = None ->
        Dedup.shardInflight s !! url = Some pid ->
        Dedup.step (Dedup.CacheLookupDone c cache_ok) s
        = Some (Dedup.State (Dedup.cache s) (Dedup.shardInflight s) (Dedup.tasks s)
                  (<[c := Dedup.Caller (Dedup.c_slice k) (Dedup.Joined pid)]>
                     (Dedup.callers s))))
  /\ (forall (c : nat) (k : Dedup.caller) (pid : nat) (t : Dedup.task) (o : Dedup.outcome),
        Dedup.callers s !! c = Some k -> Dedup.c_pc k = Dedup.Joined pid ->
        Dedup.tasks s !! pid = Some t -> Dedup.t_state t = Dedup.Settled o ->
        Dedup.step (Dedup.Resume c) s
        = Some (Dedup.State (Dedup.cache s) (Dedup.shardInflight s) (Dedup.tasks s)
                  (<[c := Dedup.Caller (Dedup.c_slice k)
                            (Dedup.Returned (Dedup.cut_outcome (Dedup.c_slice k) o))]>
                     (Dedup.callers s))))
  /\ (forall (c : nat) (k : Dedup.caller) (url : string) (pid : nat) (t : Dedup.task)
             (o : Dedup.outcome),
        Dedup.callers s !! c = Some k -> Dedup.c_pc k = Dedup.Owner url pid ->
        Dedup.tasks s !! pid = Some t -> Dedup.t_state t = Dedup.Settled o ->
        Dedup.step (Dedup.Resume c) s
        = Some (Dedup.State (Dedup.cache s) (delete url (Dedup.shardInflight s))
                  (Dedup.tasks s)
                  (<[c := Dedup.Caller (Dedup.c_slice k)
                            (Dedup.Returned (Dedup.cut_outcome (Dedup.c_slice k) o))]>
                     (Dedup.callers s))))
  /\ (forall (c : nat) (k : Dedup.caller) (url : string) (cache_ok : bool),
        Dedup.callers s !! c = Some k -> Dedup.c_pc k = Dedup.AtCache url ->
        (if cache_ok then Dedup.cache s !! url else None) = None ->
        Dedup.shardInflight s !! url = None ->
        Dedup.step (Dedup.CacheLookupDone c cache_ok) s
        = Some (Dedup.State (Dedup.cache s)
                  (<[url := length (Dedup.tasks s)]> (Dedup.shardInflight s))
                  (Dedup.tasks s ++ [Dedup.Task url Dedup.Fetching])
                  (<[c := Dedup.Caller (Dedup.c_slice k)
                            (Dedup.Owner url (length (Dedup.tasks s)))]>
                     (Dedup.callers s))))
  /\ (forall (c : nat) (k : Dedup.caller) (url : string) (cache_ok : bool),
        Dedup.callers s !! c = Some k -> Dedup.c_pc k = Dedup.SliceAtCache url ->
        (if cache_ok then Dedup.cache s !! url else None) = None ->
        Dedup.step (Dedup.CacheLookupDone c cache_ok) s
        = Some (Dedup.State (Dedup.cache s) (Dedup.shardInflight s) (Dedup.tasks s)
                  (<[c := Dedup.Caller (Dedup.c_slice k) (Dedup.SliceFetching url)]>
                     (Dedup.callers s)))).
Proof.
  intros Hexec.
  assert (Hinv : state_inv s) by (eapply exec_preserves; [apply initial_inv | done]).
  split; [intros url; by apply inv_one_full_fetch |].
  split; [| split; [| split; [| split]]].
  - intros c k url pid ok Hk Hpc Hmiss Hfl. simpl.
    rewrite Hk. simpl. rewrite Hpc, Hmiss. unfold Dedup.join_or_start.
    rewrite Hfl. by rewrite (set_caller_eq _ _ _ _ Hk).
  - intros c k pid t o Hk Hpc Ht Hts. simpl.
    rewrite Hk. simpl. rewrite Hpc, Ht. simpl. rewrite Hts.
    by rewrite (set_caller_eq _ _ _ _ Hk).
  - intros c k url pid t o Hk Hpc Ht Hts. simpl.
    rewrite Hk. simpl. rewrite Hpc, Ht. simpl. rewrite Hts.
    by erewrite set_caller_eq.
  - intros c k url ok Hk Hpc Hmiss Hfl. simpl.
    rewrite Hk. simpl. rewrite Hpc, Hmiss. unfold Dedup.join_or_start.
    rewrite Hfl. by erewrite set_caller_eq.
  - intros c k url ok Hk Hpc Hmiss. simpl.
    rewrite Hk. simpl. rewrite Hpc, Hmiss. by rewrite (set_caller_eq _ _ _ _ Hk).
Qed.

(** Two full reads of the same shard: one fetch is under way, the second
    reader has joined it. *)
Lemma fetchShard_single_flight_witness :
  exists s, Dedup.exec Demo.two_full_readers (Dedup.initial ∅) = Some s
            /\ Dedup.c_pc <$> Dedup.callers s !! 1%nat = Some (Dedup.Joined 0)
            /\ (Dedup.full_fetches Demo.shard0_url s <= 1)%nat.
Proof.
  eexists. split; [reflexivity |]. split; [reflexivity |].
  apply (fetchShard_single_flight ∅ Demo.two_full_readers). reflexivity.
Defined.

(** C3 as stated fails: two ranged reads of the same shard that both miss
    the cache each issue their own Range request, so two network fetches
    of one shard URL are under way at once. *)
Lemma single_fetch_per_url_counterexample :
  Dedup.network_fetches Demo.shard0_url
    <$> Dedup.exec Demo.two_range_readers (Dedup.initial ∅) = Some 2%nat.
Proof. vm_compute. reflexivity. Qed.

(** * The worker's progress bookkeeping stays well-formed *)

Lemma percent_of_range (loaded total : Z) :
  0 <= loaded -> 0 <= percent_of loaded total <= 100.
Proof.
  intros Hl. unfold percent_of, JS.round_percent.
  destruct (Z.gtb_spec total 0); [| lia].
  assert (0 <= (200 * loaded + total) / (2 * total)) by (apply Z.div_pos; lia).
  lia.
Qed.

Lemma percent_of_mono (a b total : Z) :
  a <= b -> percent_of a total <= percent_of b total.
Proof.
  intros Hab. unfold percent_of, JS.round_percent.
  destruct (Z.gtb_spec total 0); [| lia].
  assert ((200 * a + total) / (2 * total) <= (200 * b + total) / (2 * total))
    by (apply Z.div_le_mono; lia).
  lia.
Qed.

Lemma percent_of_full (loaded total : Z) :
  0 < total -> total <= loaded -> percent_of loaded total = 100.
Proof.
  intros Ht Hl. unfold percent_of, JS.round_percent.
  destruct (Z.gtb_spec total 0); [| lia].
  assert (100 <= (200 * loaded + total) / (2 * total)).
  { apply Z.div_le_lower_bound; lia. }
  lia.
Qed.

Lemma sum_loaded_nonneg (fs : gmap string fprog) :
  map_Forall (fun _ => file_ok) fs -> 0 <= sum_loaded fs.
Proof.
  unfold sum_loaded. revert fs.
  apply (map_fold_weak_ind (fun r m => map_Forall (fun _ => file_ok) m -> 0 <= r)).
  - done.
  - intros k f m r Hk IH Hall.
    apply map_Forall_insert in Hall as [Hf Hm]; [| done].
    specialize (IH Hm). unfold file_ok in Hf. lia.
Qed.

Lemma set_files_loop_ok (fm : filemap) (l : list string) :
  sizes_ok fm -> map_Forall (fun _ => file_ok) (set_files_loop fm l).1.
Proof.
  intros Hfm k f Hk. unfold set_files_loop in Hk.
  rewrite set_files_fold_lookup in Hk. simpl in Hk.
  destruct (decide (k ∈ l)); [| by rewrite lookup_empty in Hk].
  destruct (fm_files fm !! k) as [en|] eqn:He; [| by rewrite lookup_empty in Hk].
  injection Hk as <-. destruct (Hfm k en He) as [H0 _]. unfold file_ok. simpl. lia.
Qed.

Section StateOk.

Variable strict : bool.

Local Ltac ok_split := split; [| split; [| split; [| split]]]; simpl.

Lemma setFilesFromList_ok (st : SW.pstate) (fm : filemap) (l : list string) :
  sizes_ok fm -> state_ok strict st -> state_ok strict (SW.setFilesFromList st fm l).
Proof.
  intros Hfm (H1 & H2 & H3 & H4 & H5). unfold SW.setFilesFromList.
  ok_split; try done. by apply set_files_loop_ok.
Qed.

Lemma set_selection_ok (m : pmode) (c : list string) (sel : option string)
    (st : SW.pstate) :
  (SW.mode st = Explicit <-> m = Explicit) ->
  state_ok strict st -> state_ok strict (SW.set_selection m c sel st).
Proof.
  intros Hm (H1 & H2 & H3 & H4 & H5). ok_split; try done.
  - intros Hi. destruct (H4 Hi) as (? & ? & ?). tauto.
  - intros Hs He. apply H5; tauto.
Qed.

Lemma init_state_ok (fm : filemap) (st : SW.pstate) :
  sizes_ok fm -> state_ok strict st -> state_ok strict (SW.init_state fm st).2.
Proof.
  intros Hfm Hst. unfold SW.init_state.
  destruct (SW.mode st) eqn:Hmode.
  - destruct (Obj.get _ _); by apply setFilesFromList_ok.
  - destruct (Obj.keys (manifests_of fm)); apply setFilesFromList_ok; try done;
      apply set_selection_ok; try done; rewrite Hmode; split; discriminate.
  - destruct (Obj.keys (manifests_of fm)); apply setFilesFromList_ok; try done;
      apply set_selection_ok; try done; rewrite Hmode; split; discriminate.
Qed.

Lemma track_state_ok (relPath : string) (fileSize : Z) (st : SW.pstate) :
  0 <= fileSize -> state_ok strict st ->
  state_ok strict (SW.track_state relPath fileSize st).
Proof.
  intros Hsz (H1 & H2 & H3 & H4 & H5). unfold SW.track_state. simpl.
  destruct (SW.files st !! relPath); ok_split; try done.
  apply map_Forall_insert_2; [| done]. unfold file_ok. simpl. lia.
Qed.

Lemma record_state_ok (relPath : string) (bytes : Z) (st : SW.pstate) :
  0 <= bytes -> state_ok strict st ->
  state_ok strict (SW.record_state relPath bytes st).
Proof.
  intros Hb (H1 & H2 & H3 & H4 & H5). unfold SW.record_state.
  destruct (SW.files st !! relPath) as [f|] eqn:Hf; [| done].
  assert (Hf' : file_ok (bump f bytes)).
  { specialize (H2 _ _ Hf). unfold file_ok, bump in *. simpl. lia. }
  destruct (_ >? 0) eqn:Hd; ok_split; try done;
    try (by apply map_Forall_insert_2).
  apply Z.gtb_lt in Hd. unfold bump in *. simpl in *. lia.
Qed.

Lemma restore_ok (saved : gmap string fprog) (vp : string) (f : fprog) :
  map_Forall (fun _ => file_ok) saved -> file_ok f ->
  file_ok (SW.restore (f_loaded <$> saved) vp f).
Proof.
  intros Hs Hf. unfold SW.restore. rewrite lookup_fmap.
  destruct (saved !! vp) as [g|] eqn:Hg; simpl; [| done].
  specialize (Hs _ _ Hg). unfold file_ok in *. simpl. lia.
Qed.

Lemma switch_manifest_ok (fm : filemap) (largest : string) (st : SW.pstate) :
  sizes_ok fm -> state_ok strict st ->
  state_ok strict (SW.switch_manifest fm largest st).
Proof.
  intros Hfm Hst.
  assert (Hfiles : map_Forall (fun _ => file_ok)
                     (SW.files (SW.switch_manifest fm largest st))).
  { intros vp f Hvp. rewrite switch_manifest_restores in Hvp.
    destruct ((set_files_loop fm _).1 !! vp) as [g|] eqn:Hg; [| done].
    injection Hvp as <-. apply restore_ok; [by destruct Hst as (_ & ? & _) |].
    exact (set_files_loop_ok fm _ Hfm vp g Hg). }
  destruct Hst as (H1 & H2 & H3 & H4 & H5).
  ok_split; try done. by apply sum_loaded_nonneg.
Qed.

Lemma narrow_state_ok (fm : filemap) (relPath : string) (st : SW.pstate) :
  sizes_ok fm -> state_ok strict st ->
  state_ok strict (SW.narrow_state fm relPath st).
Proof.
  intros Hfm Hst. unfold SW.narrow_state.
  destruct (fm_manifests fm); [| done].
  destruct (filter _ _) as [| first others] eqn:Hflt; [done |].
  case_decide; [done |].
  case_decide; [by apply set_selection_ok |].
  apply switch_manifest_ok; [done |]. by apply set_selection_ok.
Qed.

Lemma finalize_fold_ok (l : list string) (fs : gmap string fprog) :
  map_Forall (fun _ => file_ok) fs ->
  map_Forall (fun _ => file_ok) (foldr SW.finalize_step (fs, 0) l).1
  /\ 0 <= (foldr SW.finalize_step (fs, 0) l).2.
Proof.
  intros Hfs. induction l as [| vp l [IH1 IH2]]; [by split |].
  simpl. unfold SW.finalize_step at 1 3.
  destruct ((foldr SW.finalize_step (fs, 0) l).1 !! vp) as [f|] eqn:Hf; [| by split].
  pose proof (IH1 _ _ Hf) as Hok. unfold file_ok in Hok. simpl. split; [| lia].
  apply map_Forall_insert_2; [| done]. unfold file_ok. simpl. lia.
Qed.

Lemma finalize_state_ok (st : SW.pstate) :
  strict = false \/ SW.mode st <> Explicit ->
  state_ok strict st -> state_ok strict (SW.finalize_state st).
Proof.
  intros Hm (H1 & H2 & H3 & H4 & H5). unfold SW.finalize_state.
  destruct (finalize_fold_ok (elements (SW.activeFiles st)) (SW.files st) H2)
    as [Hf Hs].
  ok_split; try done.
  - destruct (_ =? 0); [done |]. exact Hs.
  - intros Hs' He. destruct Hm as [-> | Hm]; [done | contradiction].
Qed.

Lemma onFetchStart_state_ok (st : SW.pstate) :
  state_ok strict st ->
  state_ok strict (SW.set_idleTimer None
                     (SW.set_pendingFetches (SW.pendingFetches st + 1) st)).
Proof.
  intros (H1 & H2 & H3 & H4 & H5). ok_split; try done. lia.
Qed.

Lemma onFetchEnd_state_ok (t : Z) (st : SW.pstate) :
  state_ok strict st ->
  state_ok strict
    (let st1 := SW.set_pendingFetches (Z.max 0 (SW.pendingFetches st - 1)) st in
     if (SW.pendingFetches st1 =? 0) && negb (SW.finalized st1)
        && negb (bool_decide (SW.mode st1 = Explicit))
     then SW.set_idleTimer (Some t) st1 else st1).
Proof.
  intros (H1 & H2 & H3 & H4 & H5). simpl.
  destruct (_ && _) eqn:Hc; ok_split; try done; try lia.
  - intros _. apply andb_true_iff in Hc as [Hc Hc3].
    apply andb_true_iff in Hc as [Hc1 Hc2].
    apply Z.eqb_eq in Hc1. apply negb_true_iff in Hc2, Hc3.
    apply bool_decide_eq_false in Hc3. done.
  - intros Hi. destruct (H4 Hi) as (? & ? & ?). split; [lia | done].
Qed.

Lemma timer_field_ok (st : SW.pstate) :
  state_ok strict st ->
  (forall t, state_ok strict (SW.set_lastBroadcast t st))
  /\ (forall t, state_ok strict (SW.set_broadcastTimer t st))
  /\ state_ok strict (SW.set_idleTimer None st).
Proof.
  intros (H1 & H2 & H3 & H4 & H5).
  split; [| split]; intros; ok_split; done.
Qed.

End StateOk.

Section WorkerOk.

Variable strict : bool.

Local Abbreviation ok := (worker_ok strict).

Lemma worker_ok_frame (w w' : SW.world) :
  SW.progressState w' = SW.progressState w -> SW.posted w' = SW.posted w ->
  SW.filemaps w' = SW.filemaps w -> ok w -> ok w'.
Proof. unfold worker_ok. by intros -> -> ->. Qed.

Lemma with_state_ok (pp : string) (g : SW.pstate -> SW.pstate) (w : SW.world) :
  (forall st, SW.progressState w !! pp = Some st ->
              state_ok strict st -> state_ok strict (g st)) ->
  ok w -> ok (SW.with_state pp g w).
Proof.
  intros Hg (Hst & Hev & Hfm). unfold SW.with_state.
  destruct (SW.progressState w !! pp) as [st|] eqn:Hpp; [| done].
  split; [| done]. simpl. apply map_Forall_insert_2; [| done].
  apply Hg; [done |]. exact (Hst _ _ Hpp).
Qed.

Lemma broadcast_message_ok (pp : string) (st : SW.pstate) :
  state_ok strict st -> event_ok (SW.broadcast_message pp st).
Proof.
  intros (H1 & H2 & _). unfold event_ok, SW.broadcast_message. simpl.
  split; [by apply percent_of_range |]. split; [| done].
  destruct (SW.files st !! SW.lastFile st) as [f|] eqn:Hf; simpl; [| lia].
  exact (H2 _ _ Hf).
Qed.

Lemma doBroadcast_ok (pp : string) (w : SW.world) : ok w -> ok (SW.doBroadcast pp w).
Proof.
  intros (Hst & Hev & Hfm). unfold SW.doBroadcast.
  destruct (SW.progressState w !! pp) as [st|] eqn:Hpp; [| done].
  pose proof (proj1 (timer_field_ok strict st (Hst _ _ Hpp)) (SW.now w)) as Hst'.
  split; [| split]; simpl; [| | done].
  - by apply map_Forall_insert_2.
  - apply Forall_app. split; [done |]. apply Forall_singleton.
    by apply broadcast_message_ok.
Qed.

Lemma scheduleProgress_ok (pp : string) (w : SW.world) :
  ok w -> ok (SW.scheduleProgress pp w).
Proof.
  intros Hw. unfold SW.scheduleProgress.
  destruct (SW.progressState w !! pp) as [st|] eqn:Hpp; [| done].
  destruct (done_of _ _ _).
  - apply doBroadcast_ok, with_state_ok; [| done].
    intros st' _ Hst'. by apply timer_field_ok.
  - destruct (_ >=? _); [by apply doBroadcast_ok |].
    destruct (SW.broadcastTimer st); [done |].
    apply with_state_ok; [| done]. intros st' _ Hst'. by apply timer_field_ok.
Qed.

Lemma broadcastTimer_fires_ok (pp : string) (w : SW.world) :
  ok w -> ok (SW.broadcastTimer_fires pp w).
Proof.
  intros Hw. unfold SW.broadcastTimer_fires.
  destruct (SW.progressState w !! pp) as [st|] eqn:Hpp; [| done].
  destruct (SW.broadcastTimer st); [| done]. destruct (_ <=? _); [| done].
  apply doBroadcast_ok, with_state_ok; [| done].
  intros st' _ Hst'. by apply timer_field_ok.
Qed.

Lemma onFetchStart_ok (pp : string) (w : SW.world) : ok w -> ok (SW.onFetchStart pp w).
Proof.
  intros Hw. apply with_state_ok; [| done]. intros st _. apply onFetchStart_state_ok.
Qed.

Lemma onFetchEnd_ok (pp : string) (w : SW.world) : ok w -> ok (SW.onFetchEnd pp w).
Proof.
  intros Hw. apply with_state_ok; [| done]. intros st _. apply onFetchEnd_state_ok.
Qed.

Lemma fetch_end_ok (s : SW.source) (w : SW.world) : ok w -> ok (SW.fetch_end s w).
Proof. unfold SW.fetch_end. destruct (SW.progress s); [apply onFetchEnd_ok | done]. Qed.

(** Finalizing [pp] keeps the bookkeeping well-formed, provided the
    strict reading is not in force for an explicit-mode state. *)
Lemma finalizeProgress_ok (pp : string) (w : SW.world) :
  (forall st, SW.progressState w !! pp = Some st ->
              strict = false \/ SW.mode st <> Explicit) ->
  ok w -> ok (SW.finalizeProgress pp w).
Proof.
  intros Hm Hw. unfold SW.finalizeProgress.
  destruct (SW.progressState w !! pp) as [st|] eqn:Hpp; [| done].
  destruct (SW.finalized st); [done |].
  apply doBroadcast_ok, with_state_ok; [| done].
  intros st' Hst'. apply finalize_state_ok. apply Hm. congruence.
Qed.

Lemma idleTimer_fires_ok (pp : string) (w : SW.world) :
  ok w -> ok (SW.idleTimer_fires pp w).
Proof.
  intros Hw. unfold SW.idleTimer_fires.
  destruct (SW.progressState w !! pp) as [st|] eqn:Hpp; [| done].
  destruct (SW.idleTimer st) as [due|] eqn:Hdue; [| done].
  destruct (_ <=? _); [| done].
  assert (Hw1 : ok (SW.with_state pp (SW.set_idleTimer None) w)).
  { apply with_state_ok; [| done]. intros st' _ Hst'. by apply timer_field_ok. }
  destruct (_ && _); [| done].
  apply finalizeProgress_ok; [| done].
  intros st' Hst'. right.
  rewrite SW_with_state_lookup, decide_True, Hpp in Hst' by done.
  injection Hst' as <-. simpl.
  destruct Hw as (Hst & _). destruct (Hst _ _ Hpp) as (_ & _ & _ & H4 & _).
  apply H4. by rewrite Hdue.
Qed.

Lemma trackFile_ok (pp relPath : string) (fileSize : Z) (w : SW.world) :
  0 <= fileSize -> ok w -> ok (SW.trackFile pp relPath fileSize w).
Proof.
  intros Hsz Hw. apply with_state_ok; [| done]. intros st _. by apply track_state_ok.
Qed.

Lemma recordProgress_ok (pp relPath : string) (bytes : Z) (w : SW.world) :
  0 <= bytes -> ok w -> ok (SW.recordProgress pp relPath bytes w).
Proof.
  intros Hb Hw. apply with_state_ok; [| done]. intros st _. by apply record_state_ok.
Qed.

Lemma narrowManifest_ok (pp relPath : string) (w : SW.world) :
  ok w -> ok (SW.narrowManifest pp relPath w).
Proof.
  intros Hw. unfold SW.narrowManifest.
  destruct (SW.progressState w !! pp) as [st|]; [| done].
  destruct (SW.mode st); try done. destruct (SW.finalized st); [done |].
  destruct (find _ _) as [s|]; [| done].
  destruct (SW.filemaps w !! SW.cdnBase s) as [fm|] eqn:Hfm; [| done].
  apply with_state_ok; [| done]. intros st' _. apply narrow_state_ok.
  destruct Hw as (_ & _ & Hfms). exact (Hfms _ _ Hfm).
Qed.

Lemma initProgressFromFilemap_ok (base : string) (fm : filemap) (w : SW.world) :
  sizes_ok fm -> ok w -> ok (SW.initProgressFromFilemap base fm w).2.
Proof.
  intros Hfm Hw. unfold SW.initProgressFromFilemap.
  destruct (find _ _) as [s|]; [| done]. destruct (SW.progress s); [| done].
  destruct (SW.progressState w !! SW.pathPrefix s) as [st|] eqn:Hpp; [| done].
  destruct Hw as (Hst & Hev & Hfms). split; [| done]. simpl.
  apply map_Forall_insert_2; [| done].
  apply init_state_ok; [done |]. exact (Hst _ _ Hpp).
Qed.

(** *** Code that only touches the network, Cache Storage and the
    in-flight map *)

Lemma view_ok (w w' : SW.world) : view w' = view w -> ok w -> ok w'.
Proof.
  unfold view. intros Hv. injection Hv as H1 H2 H3. by apply worker_ok_frame.
Qed.

Lemma fetch_view (url : string) (range : option (Z * Z)) (w : SW.world) :
  view (SW.fetch url range w).2 = view w.
Proof. unfold SW.fetch. by destruct (SW.net w _ _ _). Qed.

Lemma cache_put_view (url : string) (buf : list byte) (w : SW.world) :
  view (SW.cache_put url buf w) = view w.
Proof. unfold SW.cache_put. by destruct (SW.cache_available w). Qed.

Lemma shard_task_view (url : string) (w : SW.world) :
  view (SW.shard_task url w).2 = view w.
Proof.
  unfold SW.shard_task, bind. pose proof (fetch_view url None w) as Hf.
  destruct (SW.fetch url None w) as [[r|e] w1]; simpl in *; [| done].
  destruct (reply_ok r.1); [| done].
  unfold modify, ret. simpl. by rewrite cache_put_view.
Qed.

Lemma fetchShard_view (file : string) (s : SW.source) (w : SW.world) :
  view (SW.fetchShard file s w).2 = view w.
Proof.
  unfold SW.fetchShard. destruct (SW.cache_match _ w); [done |].
  destruct (SW.shardInflight w !! _); [done |].
  unfold try_finally. pose proof (shard_task_view (SW.cdnBase s ++ "/" ++ file) w) as Hv.
  by destruct (SW.shard_task _ w) as [r w1].
Qed.

Lemma fetchShardSlice_view (file : string) (s : SW.source) (a b : Z) (w : SW.world) :
  view (SW.fetchShardSlice file s a b w).2 = view w.
Proof.
  unfold SW.fetchShardSlice. destruct (SW.cache_match _ w); [done |].
  unfold bind at 1, try_catch, bind at 1.
  pose proof (fetch_view (SW.cdnBase s ++ "/" ++ file) (Some (a, b)) w) as Hf.
  destruct (SW.fetch _ _ w) as [[r|e] w1]; simpl in Hf.
  - assert (Hfall : forall w2, view w2 = view w ->
              view ((full <- SW.fetchShard file s ;;
                     ret (JS.slice full a (b + 1))) w2).2 = view w).
    { intros w2 H2. unfold bind. pose proof (fetchShard_view file s w2) as Hv.
      destruct (SW.fetchShard file s w2) as [[x|e] w3]; simpl in *; congruence. }
    destruct (r.1 =? 206); [done |].
    destruct (reply_ok r.1).
    + unfold bind, modify, ret. simpl. by rewrite cache_put_view.
    + unfold ret at 1. by apply Hfall.
  - unfold ret at 1. unfold bind. pose proof (fetchShard_view file s w1) as Hv.
    destruct (SW.fetchShard file s w1) as [[x|e'] w3]; simpl in *; congruence.
Qed.

Lemma proxiedFetch_view (url : string) (w : SW.world) :
  view (SW.proxiedFetch url w).2 = view w.
Proof.
  unfold SW.proxiedFetch, bind. pose proof (fetch_view url None w) as Hf.
  destruct (SW.fetch url None w) as [[r|e] w1]; simpl in *; [| done].
  by destruct (reply_ok r.1).
Qed.

(** *** Sequencing *)

Local Abbreviation keeps m := (forall w, ok w -> ok (m w).2).

Lemma keeps_view {A} (m : M SW.world A) :
  (forall w, view (m w).2 = view w) -> keeps m.
Proof. intros Hv w Hw. by apply (view_ok w). Qed.

Lemma keeps_bind {A B} (m : M SW.world A) (k : A -> M SW.world B) :
  keeps m -> (forall a, keeps (k a)) -> keeps (bind m k).
Proof.
  intros Hm Hk w Hw. unfold bind. specialize (Hm w Hw).
  destruct (m w) as [[a|e] w1]; [by apply Hk | done].
Qed.

Lemma keeps_modify (g : SW.world -> SW.world) :
  (forall w, ok w -> ok (g w)) -> keeps (modify g).
Proof. intros Hg w Hw. by apply Hg. Qed.

Lemma keeps_try_finally {A} (m : M SW.world A) (g : SW.world -> SW.world) :
  keeps m -> (forall w, ok w -> ok (g w)) -> keeps (try_finally m g).
Proof.
  intros Hm Hg w Hw. unfold try_finally. specialize (Hm w Hw).
  destruct (m w) as [r w1]. by apply Hg.
Qed.

Lemma keeps_mapM {A B} (f : A -> M SW.world B) (l : list A) :
  (forall a, a ∈ l -> keeps (f a)) -> keeps (mapM f l).
Proof.
  induction l as [| a l IH]; intros Hf; [done |].
  simpl. apply keeps_bind; [apply Hf; by left |].
  intros b. apply keeps_bind; [| done].
  apply IH. intros a' Ha'. apply Hf. by right.
Qed.

Lemma respondFull_ok (e : file_entry) (s : SW.source) (relPath : string) :
  Forall (fun sh => 0 <= shard_size sh) (default [] (entry_shards e)) ->
  keeps (SW.respondFull e s relPath).
Proof.
  intros Hsh. unfold SW.respondFull.
  apply keeps_try_finally; [| apply fetch_end_ok].
  apply keeps_bind; [| done].
  apply keeps_mapM. intros sh Hin.
  rewrite Forall_forall in Hsh. specialize (Hsh sh Hin).
  apply keeps_bind; [apply keeps_view, fetchShard_view |].
  intros buf. apply keeps_bind; [| done].
  apply keeps_modify. intros w Hw. destruct (SW.progress s); [| done].
  by apply scheduleProgress_ok, recordProgress_ok.
Qed.

Lemma fetch_part_view (s : SW.source) (p : part) (w : SW.world) :
  view (SW.fetch_part s p w).2 = view w.
Proof.
  unfold SW.fetch_part.
  destruct (whole_shard p); [apply fetchShard_view | apply fetchShardSlice_view].
Qed.

Lemma respondRange_ok (e : file_entry) (s : SW.source) (start end_ : Z)
    (relPath : string) :
  keeps (SW.respondRange e s start end_ relPath).
Proof.
  unfold SW.respondRange.
  destruct (_ || _) eqn:Hguard; [done |].
  destruct (entry_shards e); [| done].
  destruct (range_parts _ _ _) eqn:Hparts; [done |]. rewrite <- Hparts.
  apply keeps_bind;
    [apply keeps_mapM; intros a Ha; apply keeps_view, fetch_part_view |].
  intros buffers. apply keeps_bind.
  - apply keeps_modify. intros w Hw. apply recordProgress_ok; [| done].
    apply orb_false_iff in Hguard as [Hg _]. rewrite Z.gtb_ltb in Hg.
    apply Z.ltb_ge in Hg. lia.
  - intros _. apply keeps_bind; [| done].
    apply keeps_modify. intros w. apply scheduleProgress_ok.
Qed.

Section Loaded.

Variable JSON_parse : list byte -> option filemap.
Hypothesis parse_ok : forall body fm, JSON_parse body = Some fm -> sizes_ok fm.

Lemma load_body_ok (base : string) (w w' : SW.world) (r : result filemap) :
  ok w -> SW.load_body JSON_parse base w = (r, w') ->
  ok w' /\ forall fm, r = Ok fm -> sizes_ok fm.
Proof.
  intros Hw. unfold SW.load_body, bind at 1.
  pose proof (fetch_view (base ++ "/filemap.json") None w) as Hv.
  destruct (SW.fetch _ None w) as [[a|err] w2]; simpl in Hv.
  2:{ intros [= <- <-]. split; [| done]. by apply (view_ok w). }
  assert (Hw2 : ok w2) by (by apply (view_ok w)).
  destruct (reply_ok a.1); [| by intros [= <- <-]].
  destruct (JSON_parse a.2) as [data|] eqn:Hp; [| by intros [= <- <-]].
  pose proof (parse_ok _ _ Hp) as Hdata.
  unfold bind, modify, ret. simpl.
  set (w3 := SW.set_filemaps _ w2).
  assert (Hw3 : ok w3).
  { destruct Hw2 as (H1 & H2 & H3). split; [done | split; [done |]]. simpl.
    by apply map_Forall_insert_2. }
  pose proof (initProgressFromFilemap_ok base data w3 Hdata Hw3) as Hinit.
  destruct (SW.initProgressFromFilemap base data w3) as [[[]|err] w4];
    intros [= <- <-]; (split; [done |]); [by intros fm' [= <-] | done].
Qed.

Lemma loadFilemap_ok (base : string) (w : SW.world) :
  ok w ->
  ok (SW.loadFilemap JSON_parse base w).2
  /\ forall fm, (SW.loadFilemap JSON_parse base w).1 = Some fm -> sizes_ok fm.
Proof.
  intros Hw. unfold SW.loadFilemap.
  destruct (SW.filemaps w !! base) as [fm|] eqn:Hfm.
  { split; [done |]. intros fm' [= <-]. destruct Hw as (_ & _ & H). exact (H _ _ Hfm). }
  case_decide; [by split |].
  set (w1 := SW.set_filemapLoading _ w).
  assert (Hw1 : ok w1) by (by apply (worker_ok_frame w)).
  destruct (SW.load_body JSON_parse base w1) as [[data|err] w2] eqn:Hlb;
    destruct (load_body_ok base w1 _ _ Hw1 Hlb) as [Hw2 Hdata]; simpl.
  - split; [done |]. intros fm [= <-]. by apply Hdata.
  - split; [| done]. by apply (worker_ok_frame w2).
Qed.

Lemma handleModelFetch_ok (range : option (Z * option Z)) (s : SW.source)
    (relPath : string) :
  keeps (SW.handleModelFetch JSON_parse range s relPath).
Proof.
  intros w Hw. unfold SW.handleModelFetch.
  destruct (loadFilemap_ok (SW.cdnBase s) w Hw) as [Hw1 Hfm].
  destruct (SW.loadFilemap JSON_parse (SW.cdnBase s) w) as [map w1]. simpl in Hw1, Hfm.
  destruct (map ≫= _) as [e|] eqn:He.
  2:{ by apply (view_ok w1); [apply proxiedFetch_view |]. }
  destruct map as [fm|]; [| done]. simpl in He.
  destruct (Hfm fm eq_refl _ _ He) as [Hsize Hshards].
  set (w2 := if SW.progress s then _ else w1).
  assert (Hw2 : ok w2).
  { subst w2. destruct (SW.progress s); [| done].
    by apply onFetchStart_ok, trackFile_ok, narrowManifest_ok. }
  clearbody w2.
  destruct (entry_shards e) as [l|] eqn:Hl.
  - destruct range as [[start oend]|].
    + apply keeps_try_finally; [apply respondRange_ok | apply fetch_end_ok | done].
    + apply respondFull_ok; [| done]. by rewrite Hl.
  - apply keeps_try_finally; [| apply fetch_end_ok | done].
    apply keeps_bind; [apply keeps_view, fetchShard_view |].
    intros body. apply keeps_bind.
    { apply keeps_modify. intros w' Hw'. by apply recordProgress_ok. }
    intros _. apply keeps_bind; [| done].
    apply keeps_modify. intros w'. apply scheduleProgress_ok.
Qed.

Lemma on_init_ok (cfg : list SW.source) (w : SW.world) :
  Forall event_ok (SW.posted w) -> ok (SW.on_init JSON_parse cfg w).
Proof.
  intros Hev. unfold SW.on_init.
  set (w1 := SW.set_progressState _ _).
  assert (Hw1 : ok w1).
  { split; [apply map_Forall_empty | split; [done | apply map_Forall_empty]]. }
  clearbody w1. revert w1 Hw1.
  assert (Hreg : forall l w1, ok w1 ->
            ok (fold_left (fun w s =>
                  if SW.progress s
                  then SW.set_progressState
                         (<[SW.pathPrefix s := SW.makeProgressState (SW.manifest_name s)]>
                            (SW.progressState w)) w
                  else w) l w1)).
  { induction l as [| s l IH]; intros w1 Hw1; [done |]. simpl. apply IH.
    destruct (SW.progress s); [| done].
    destruct Hw1 as (H1 & H2 & H3). split; [| done]. simpl.
    apply map_Forall_insert_2; [| done].
    unfold SW.makeProgressState. split; [| split; [| split; [| split]]]; simpl; done. }
  assert (Hload : forall l w1, ok w1 ->
            ok (fold_left (fun w s => (SW.loadFilemap JSON_parse (SW.cdnBase s) w).2)
                          l w1)).
  { induction l as [| s l IH]; intros w1 Hw1; [done |]. simpl. apply IH.
    by apply loadFilemap_ok. }
  intros w1 Hw1. by apply Hload, Hreg.
Qed.

Lemma step_ok (ev : SW.event) (w : SW.world) :
  (strict = true -> is_complete ev = false) ->
  ok w -> ok (SW.step JSON_parse ev w).
Proof.
  intros Hev Hw. destruct ev as [cfg | pp | pathname range | ms | pp | pp]; simpl.
  - apply on_init_ok. exact (proj1 (proj2 Hw)).
  - apply finalizeProgress_ok; [| done]. intros st _. left.
    apply not_true_is_false. intros Hs. by specialize (Hev Hs).
  - destruct (SW.matchSource pathname w) as [[s relPath]|]; [| done].
    by apply handleModelFetch_ok.
  - by apply (worker_ok_frame w).
  - by apply idleTimer_fires_ok.
  - by apply broadcastTimer_fires_ok.
Qed.

Lemma run_ok (evs : list SW.event) (w : SW.world) :
  (strict = true -> forallb (fun ev => negb (is_complete ev)) evs = true) ->
  ok w -> ok (SW.run JSON_parse evs w).
Proof.
  revert w. induction evs as [| ev evs IH]; intros w Hevs Hw; [done |].
  simpl. apply IH.
  - intros Hs. specialize (Hevs Hs). simpl in Hevs.
    by apply andb_true_iff in Hevs as [_ ?].
  - apply step_ok; [| done]. intros Hs. specialize (Hevs Hs). simpl in Hevs.
    apply andb_true_iff in Hevs as [H _]. by apply negb_true_iff in H.
Qed.

End Loaded.

End WorkerOk.

Lemma fresh_ok (strict : bool) (w : SW.world) : fresh w -> worker_ok strict w.
Proof.
  intros (H1 & H2 & H3). unfold worker_ok. rewrite H1, H2, H3.
  split; [apply map_Forall_empty | split; [done | apply map_Forall_empty]].
Qed.

Lemma demo_sizes_ok : sizes_ok Demo.fm.
Proof.
  unfold sizes_ok, Demo.fm, Demo.all_files. simpl.
  repeat apply map_Forall_insert_2; try apply map_Forall_empty;
    (split; [simpl; lia | simpl; repeat constructor; simpl; lia]).
Qed.



(** X2. An explicit-mode source is never finalized by idleness: as long
    as the page sends no [MODEL_SW_COMPLETE], every explicit-mode
    progress state of a worker started fresh has [finalized = false],
    whatever requests are served and whichever timers fire. *)
Theorem explicit_mode_never_idle_finalized
    (JSON_parse : list byte -> option filemap) (evs : list SW.event)
    (w : SW.world) (pp : string) (st : SW.pstate) :
  (forall body fm, JSON_parse body = Some fm -> sizes_ok fm) ->
  fresh w ->
  forallb (fun ev => negb (is_complete ev)) evs = true ->
  SW.progressState (SW.run JSON_parse evs w) !! pp = Some st ->
  SW.mode st = Explicit ->
  SW.finalized st = false.
Proof.
  intros Hparse Hw Hevs Hst Hmode.
  destruct (run_ok true JSON_parse Hparse evs w) as (Hall & _);
    [done | by apply fresh_ok |].
  destruct (Hall _ _ Hst) as (_ & _ & _ & _ & H5). by apply H5.
Qed.

Lemma explicit_mode_never_idle_finalized_witness :
  exists st,
    SW.progressState (SW.run (Demo.parse Demo.fm) Scenario.explicit_idle_trace
                        Demo.sw_boot) !! "/m/"%string = Some st
    /\ SW.mode st = Explicit /\ SW.finalized st = false.
Proof.
  eexists. split; [vm_compute; reflexivity |]. split; [reflexivity |].
  eapply (explicit_mode_never_idle_finalized (Demo.parse Demo.fm)
            Scenario.explicit_idle_trace Demo.sw_boot "/m/").
  - intros body fm [= <-]. exact demo_sizes_ok.
  - repeat split.
  - reflexivity.
  - vm_compute. reflexivity.
  - reflexivity.
Defined.

(** X3. In every state a freshly started worker reaches, the count of
    pending fetches of a source is not negative, and an idle timer is
    pending only while that count is zero, the state is not finalized
    and its mode is not explicit. *)
Theorem idle_timer_only_when_quiescent
    (JSON_parse : list byte -> option filemap) (evs : list SW.event)
    (w : SW.world) (pp : string) (st : SW.pstate) :
  (forall body fm, JSON_parse body = Some fm -> sizes_ok fm) ->
  fresh w ->
  SW.progressState (SW.run JSON_parse evs w) !! pp = Some st ->
  0 <= SW.pendingFetches st
  /\ (is_Some (SW.idleTimer st) ->
      SW.pendingFetches st = 0 /\ SW.finalized st = false
      /\ SW.mode st <> Explicit).
Proof.
  intros Hparse Hw Hst.
  destruct (run_ok false JSON_parse Hparse evs w) as (Hall & _);
    [done | by apply fresh_ok |].
  destruct (Hall _ _ Hst) as (_ & _ & H3 & H4 & _). by split.
Qed.

Lemma idle_timer_only_when_quiescent_witness :
  exists st,
    SW.progressState (SW.run (Demo.parse Demo.fm) Demo.narrowing_trace Demo.sw_boot)
      !! "/m/"%string = Some st
    /\ is_Some (SW.idleTimer st) /\ SW.pendingFetches st = 0.
Proof.
  eexists. split; [vm_compute; reflexivity |]. split; [by eexists |].
  eapply (idle_timer_only_when_quiescent (Demo.parse Demo.fm) Demo.narrowing_trace
            Demo.sw_boot "/m/").
  - intros body fm [= <-]. exact demo_sizes_ok.
  - repeat split.
  - vm_compute. reflexivity.
  - by eexists.
Defined.

(** * Source registration and matching *)

Lemma substring_all (s : string) (n : nat) :
  (String.length s <= n)%nat -> substring 0 n s = s.
Proof.
  revert n. induction s as [| c s IH]; intros [| n] Hn; simpl in *; try done; try lia.
  f_equal. apply IH. lia.
Qed.

Lemma substring_skip (p r : string) (n : nat) :
  substring (String.length p) n (p ++ r) = substring 0 n r.
Proof. induction p as [| c p IH]; [done |]. simpl. exact IH. Qed.

Lemma prefix_app (p s : string) :
  String.prefix p s = true <-> exists r, s = (p ++ r)%string.
Proof.
  revert s. induction p as [| c p IH]; intros s.
  - split; [intros _; by exists s | by destruct s].
  - destruct s as [| d s]; simpl; [split; [done | by intros [r Hr]] |].
    destruct (ascii_dec c d) as [-> | Hne].
    + rewrite IH. split; intros [r Hr]; exists r.
      * by rewrite Hr.
      * change (String d s = String d (p ++ r)) in Hr. congruence.
    + split; [done |]. intros [r Hr].
      change (String d s = String c (p ++ r)) in Hr. congruence.
Qed.

Lemma rest_of_path (p r : string) :
  substring (String.length p) (String.length (p ++ r)) (p ++ r) = r.
Proof.
  rewrite substring_skip. apply substring_all.
  induction p as [| c p IH]; [done |].
  change (String.length r <= S (String.length (p ++ r)))%nat. lia.
Qed.

Lemma find_first {A} (f : A -> bool) (l : list A) (x : A) :
  find f l = Some x ->
  exists i, l !! i = Some x /\ f x = true
            /\ forall j y, (j < i)%nat -> l !! j = Some y -> f y = false.
Proof.
  induction l as [| a l IH]; [done |]. simpl.
  destruct (f a) eqn:Hfa.
  - intros [= <-]. exists 0%nat. split; [done | split; [done |]]. lia.
  - intros Hx. destruct (IH Hx) as (i & Hi & Hfx & Hlt).
    exists (S i). split; [done | split; [done |]].
    intros [| j] y Hj Hy; simpl in Hy; [congruence |]. apply (Hlt j); [lia | done].
Qed.

(** What [matchSource] tests of one source. *)
Lemma matches_iff (s : SW.source) (pathname : string) :
  String.prefix (SW.pathPrefix s) pathname
  && negb (String.eqb (substring (String.length (SW.pathPrefix s))
                                 (String.length pathname) pathname) EmptyString)
  = true
  <-> exists r, pathname = (SW.pathPrefix s ++ r)%string /\ r <> EmptyString.
Proof.
  rewrite andb_true_iff, prefix_app, negb_true_iff, String.eqb_neq. split.
  - intros [[r ->] Hne]. rewrite rest_of_path in Hne. by exists r.
  - intros (r & -> & Hne). split; [by exists r |]. by rewrite rest_of_path.
Qed.

(** X4. [matchSource] returns the first registered source whose path
    prefix is a proper prefix of the path, together with the rest of
    the path, which is not empty; it returns nothing exactly when no
    registered source has such a prefix. *)
Theorem matchSource_first_proper_prefix (pathname : string) (w : SW.world) :
  match SW.matchSource pathname w with
  | Some (s, relPath) =>
      pathname = (SW.pathPrefix s ++ relPath)%string /\ relPath <> EmptyString
      /\ exists i, SW.sources w !! i = Some s
           /\ forall j s' r, (j < i)%nat -> SW.sources w !! j = Some s' ->
                pathname = (SW.pathPrefix s' ++ r)%string -> r = EmptyString
  | None =>
      forall s r, s ∈ SW.sources w ->
        pathname = (SW.pathPrefix s ++ r)%string -> r = EmptyString
  end.
Proof.
  unfold SW.matchSource.
  destruct (find _ (SW.sources w)) as [s|] eqn:Hfind.
  - destruct (find_first _ _ _ Hfind) as (i & Hi & Hs & Hlt).
    apply matches_iff in Hs as (r & Hr & Hne).
    subst pathname. rewrite !rest_of_path. split; [done | split; [done |]].
    exists i. split; [done |]. intros j s' r' Hj Hs' Hr'.
    specialize (Hlt j s' Hj Hs').
    destruct (decide (r' = EmptyString)) as [| Hne']; [done |].
    assert (Ht : exists r0, (SW.pathPrefix s ++ r)%string
                            = (SW.pathPrefix s' ++ r0)%string
                            /\ r0 <> EmptyString) by (by exists r').
    apply matches_iff in Ht. congruence.
  - intros s r Hs Hr. apply list_elem_of_In in Hs.
    pose proof (find_none _ _ Hfind s Hs) as Hf. simpl in Hf.
    destruct (decide (r = EmptyString)) as [| Hne]; [done |].
    assert (Ht : exists r0, pathname = (SW.pathPrefix s ++ r0)%string
                            /\ r0 <> EmptyString) by (by exists r).
    apply matches_iff in Ht. congruence.
Qed.

Lemma ends_with_slash_app (s : string) :
  SW.ends_with_slash (s ++ "/") = true.
Proof.
  induction s as [| c s IH]; [done |].
  simpl. destruct (s ++ "/")%string eqn:E; [by destruct s | exact IH].
Qed.

Lemma strip_no_trailing_slash (s : string) :
  SW.ends_with_slash (SW.strip_trailing_slashes s) = false.
Proof.
  induction s as [| c s IH]; [done |]. simpl.
  destruct (SW.strip_trailing_slashes s) as [| d r] eqn:Hr.
  - simpl. destruct (Ascii.eqb c "/") eqn:Hc; simpl; [done | exact Hc].
  - rewrite andb_false_r. exact IH.
Qed.

Lemma strip_fixpoint (s : string) :
  SW.ends_with_slash s = false -> SW.strip_trailing_slashes s = s.
Proof.
  induction s as [| c s IH]; [done |]. simpl.
  destruct s as [| d s'].
  - simpl. intros ->. done.
  - intros H. rewrite (IH H). simpl. by rewrite andb_false_r.
Qed.

Lemma normalise_canonical (s : SW.source) :
  SW.ends_with_slash (SW.pathPrefix (SW.normalise s)) = true
  /\ SW.ends_with_slash (SW.cdnBase (SW.normalise s)) = false
  /\ SW.normalise (SW.normalise s) = SW.normalise s.
Proof.
  assert (H1 : SW.ends_with_slash (SW.pathPrefix (SW.normalise s)) = true).
  { simpl. destruct (SW.ends_with_slash (SW.pathPrefix s)) eqn:E; [done |].
    apply ends_with_slash_app. }
  assert (H2 : SW.ends_with_slash (SW.cdnBase (SW.normalise s)) = false).
  { simpl. apply strip_no_trailing_slash. }
  split; [done | split; [done |]].
  unfold SW.normalise at 1. rewrite H1, (strip_fixpoint _ H2). by destruct s.
Qed.

Lemma SW_init_sources (base : string) (fm : filemap) (w : SW.world) :
  SW.sources (SW.initProgressFromFilemap base fm w).2 = SW.sources w.
Proof.
  unfold SW.initProgressFromFilemap.
  destruct (find _ _) as [s|]; [| done]. destruct (SW.progress s); [| done].
  by destruct (SW.progressState w !! _).
Qed.

Lemma SW_loadFilemap_sources (JSON_parse : list byte -> option filemap)
    (base : string) (w : SW.world) :
  SW.sources (SW.loadFilemap JSON_parse base w).2 = SW.sources w.
Proof.
  unfold SW.loadFilemap. destruct (SW.filemaps w !! base); [done |].
  case_decide; [done |].
  unfold SW.load_body, bind, SW.fetch, modify, ret, throw. simpl.
  destruct (SW.net w _ _ _) as [status body|]; simpl; [| done].
  destruct (reply_ok status); [| done].
  destruct (JSON_parse body) as [data|]; [| done]. simpl.
  set (w3 := SW.set_filemaps _ _).
  pose proof (SW_init_sources base data w3) as Hs.
  by destruct (SW.initProgressFromFilemap base data w3) as [[[]|e] w4].
Qed.

Lemma SW_on_init_sources (JSON_parse : list byte -> option filemap)
    (cfg : list SW.source) (w : SW.world) :
  SW.sources (SW.on_init JSON_parse cfg w) = SW.normalise <$> cfg.
Proof.
  unfold SW.on_init.
  assert (Hreg : forall l w1,
            SW.sources (fold_left (fun w s =>
                  if SW.progress s
                  then SW.set_progressState
                         (<[SW.pathPrefix s := SW.makeProgressState (SW.manifest_name s)]>
                            (SW.progressState w)) w
                  else w) l w1) = SW.sources w1).
  { clear. induction l as [| s l IH]; intros w1; [done |]. simpl. rewrite IH.
    by destruct (SW.progress s). }
  assert (Hload : forall l w1,
            SW.sources (fold_left (fun w s => (SW.loadFilemap JSON_parse (SW.cdnBase s) w).2)
                          l w1) = SW.sources w1).
  { clear. induction l as [| s l IH]; intros w1; [done |]. simpl. rewrite IH.
    apply SW_loadFilemap_sources. }
  by rewrite Hload, Hreg.
Qed.

(** X5. [MODEL_SW_INIT] registers exactly the configured sources, in
    order, each in canonical form: the path prefix ends with a slash, the
    CDN base with none, and normalising again changes nothing. *)
Theorem init_registers_canonical_sources
    (JSON_parse : list byte -> option filemap) (cfg : list SW.source)
    (w : SW.world) :
  SW.sources (SW.step JSON_parse (SW.MODEL_SW_INIT cfg) w) = SW.normalise <$> cfg
  /\ forall s, s ∈ SW.sources (SW.step JSON_parse (SW.MODEL_SW_INIT cfg) w) ->
       SW.ends_with_slash (SW.pathPrefix s) = true
       /\ SW.ends_with_slash (SW.cdnBase s) = false
       /\ SW.normalise s = s.
Proof.
  simpl. rewrite SW_on_init_sources. split; [done |].
  intros s Hs. apply list_elem_of_fmap in Hs as (s0 & -> & _).
  apply normalise_canonical.
Qed.

Lemma init_registers_canonical_sources_witness :
  SW.sources (SW.step (Demo.parse Demo.fm) (SW.MODEL_SW_INIT [Scenario.raw_source])
                Demo.sw_boot)
  = [Demo.adaptive_source].
Proof.
  rewrite (proj1 (init_registers_canonical_sources (Demo.parse Demo.fm)
                    [Scenario.raw_source] Demo.sw_boot)).
  reflexivity.
Defined.

(** * Filemap loading: memoisation and retry *)

Lemma SW_load_body_stores (JSON_parse : list byte -> option filemap)
    (base : string) (w w' : SW.world) (data : filemap) :
  SW.load_body JSON_parse base w = (Ok data, w') ->
  SW.filemaps w' !! base = Some data.
Proof.
  unfold SW.load_body, bind, SW.fetch, modify, ret, throw.
  destruct (SW.net w _ _ _) as [status body|]; simpl; [| done].
  destruct (reply_ok status); [| done].
  destruct (JSON_parse body) as [d|]; [| done]. simpl.
  set (w3 := SW.set_filemaps _ _).
  pose proof (SW_init_filemaps base d w3) as Hs.
  destruct (SW.initProgressFromFilemap base d w3) as [[[]|e] w4]; [| done].
  intros [= <- <-]. simpl in Hs. rewrite Hs. apply lookup_insert_eq.
Qed.

Lemma SW_load_body_fails (JSON_parse : list byte -> option filemap)
    (base : string) (w : SW.world) :
  filemap_unavailable JSON_parse base w ->
  exists err,
    SW.load_body JSON_parse base w
    = (Throw err, SW.set_requests (S (SW.requests w)) w).
Proof.
  unfold filemap_unavailable, SW.load_body, bind, SW.fetch, modify, ret, throw.
  destruct (SW.net w _ _ _) as [status body|]; simpl; [| by eexists].
  intros [-> | Hp]; [by eexists |].
  destruct (reply_ok status); [| by eexists]. rewrite Hp. by eexists.
Qed.

Lemma Node_load_body_stores (sha : string -> string)
    (JSON_parse : list byte -> option filemap) (JSON_stringify : filemap -> list byte)
    (key : string) (isLocal : bool) (w w' : Node.world) (data : filemap) :
  Node.load_body sha JSON_parse JSON_stringify key isLocal w = (Ok data, w') ->
  Node._filemaps w' !! key = Some data.
Proof.
  unfold Node.load_body. unfold bind at 1.
  destruct (Node.read_document _ _ _ _ _ w) as [[d|e] w1]; [| done].
  unfold bind, modify, ret. simpl.
  set (w3 := Node.set_filemaps _ _).
  pose proof (Node_init_filemaps key d w3) as Hs.
  destruct (Node._initProgressFromFilemap key d w3) as [[[]|e] w4]; [| done].
  intros [= <- <-]. simpl in Hs. rewrite Hs. apply lookup_insert_eq.
Qed.

(** X6. A filemap is loaded once.  When [loadFilemap] (service worker)
    or [_loadFilemap] (Node resolver) has returned a document, calling it
    again for the same key returns the same document and changes
    nothing: no request is made and no file is read or written. *)
Theorem loadFilemap_memoised (sha : string -> string)
    (JSON_parse : list byte -> option filemap) (JSON_stringify : filemap -> list byte)
    (base : string) (ws : SW.world) (key : string) (isLocal isLocal' : bool)
    (wn : Node.world) (fm fm' : filemap) :
  (SW.loadFilemap JSON_parse base ws).1 = Some fm ->
  (Node._loadFilemap sha JSON_parse JSON_stringify key isLocal wn).1 = Some fm' ->
  SW.loadFilemap JSON_parse base (SW.loadFilemap JSON_parse base ws).2
  = (Some fm, (SW.loadFilemap JSON_parse base ws).2)
  /\ Node._loadFilemap sha JSON_parse JSON_stringify key isLocal'
       (Node._loadFilemap sha JSON_parse JSON_stringify key isLocal wn).2
     = (Some fm', (Node._loadFilemap sha JSON_parse JSON_stringify key isLocal wn).2).
Proof.
  intros Hs Hn. split.
  - assert (Hstored : SW.filemaps (SW.loadFilemap JSON_parse base ws).2 !! base
                      = Some fm).
    { revert Hs. unfold SW.loadFilemap.
      destruct (SW.filemaps ws !! base) as [d|] eqn:Hd; [by intros [= <-] |].
      case_decide; [done |].
      destruct (SW.load_body _ _ _) as [[d|e] w2] eqn:Hlb; [| done].
      intros [= <-]. by apply SW_load_body_stores in Hlb. }
    unfold SW.loadFilemap at 1. by rewrite Hstored.
  - assert (Hstored : Node._filemaps
                        (Node._loadFilemap sha JSON_parse JSON_stringify key isLocal wn).2
                        !! key = Some fm').
    { revert Hn. unfold Node._loadFilemap.
      destruct (Node._filemaps wn !! key) as [d|] eqn:Hd; [by intros [= <-] |].
      case_decide; [done |].
      destruct (Node.load_body _ _ _ _ _ _) as [[d|e] w2] eqn:Hlb;
        [| by destruct (Node.awaits_fetch _ _ _ _)].
      intros [= <-]. by apply Node_load_body_stores in Hlb. }
    unfold Node._loadFilemap at 1. by rewrite Hstored.
Qed.

Lemma loadFilemap_memoised_witness :
  SW.loadFilemap (Demo.parse Demo.fm) Demo.cdn
    (SW.loadFilemap (Demo.parse Demo.fm) Demo.cdn Demo.sw_boot).2
  = (Some Demo.fm, (SW.loadFilemap (Demo.parse Demo.fm) Demo.cdn Demo.sw_boot).2).
Proof.
  apply (loadFilemap_memoised Demo.sha (Demo.parse Demo.fm) Demo.stringify
           Demo.cdn Demo.sw_boot "/pkg" true true (Demo.node_local EmptyString)
           Demo.fm Demo.fm); reflexivity.
Defined.

(** X7. A filemap load in the service worker that fails because the
    network fails, the status is not 2xx or the body does not parse
    leaves no trace but the request it made: the key is neither stored
    nor left pending, so the next call tries again, and sources,
    progress states, posted events and caches are as before. *)
Theorem loadFilemap_failure_leaves_no_trace
    (JSON_parse : list byte -> option filemap) (base : string) (w : SW.world) :
  SW.filemaps w !! base = None -> base ∉ SW.filemapLoading w ->
  filemap_unavailable JSON_parse base w ->
  SW.loadFilemap JSON_parse base w = (None, SW.set_requests (S (SW.requests w)) w).
Proof.
  intros Hnone Hfree Hfail. unfold SW.loadFilemap. rewrite Hnone, decide_False by done.
  set (w1 := SW.set_filemapLoading _ w).
  destruct (SW_load_body_fails JSON_parse base w1 Hfail) as [err ->]. f_equal.
  destruct w as [a b c d0 e0 f g h i j k]. unfold SW.set_filemapLoading, SW.set_requests.
  simpl in *. f_equal. apply set_eq. intros x.
  rewrite elem_of_difference, elem_of_union, elem_of_singleton.
  split; [tauto |]. intros Hx. split; [tauto |]. congruence.
Qed.

Lemma loadFilemap_failure_leaves_no_trace_witness :
  SW.loadFilemap (Demo.parse Demo.fm) Demo.cdn Scenario.sw_offline
  = (None, SW.set_requests 1 Scenario.sw_offline).
Proof.
  apply (loadFilemap_failure_leaves_no_trace (Demo.parse Demo.fm) Demo.cdn
           Scenario.sw_offline);
    [reflexivity | apply not_elem_of_empty | exact I].
Defined.

(** * Shard fetching, one request at a time *)

(** X8. [fetchShard] called when no fetch of the URL is in flight: it
    makes at most one request, leaves the in-flight map as it found it
    whether it returns or throws, and, with Cache Storage available,
    writes through: an immediate second call returns the same bytes
    from the cache and changes nothing. *)
Theorem fetchShard_writes_through (file : string) (s : SW.source) (w : SW.world) :
  SW.shardInflight w !! (SW.cdnBase s ++ "/" ++ file)%string = None ->
  SW.shardInflight (SW.fetchShard file s w).2 = SW.shardInflight w
  /\ (SW.requests (SW.fetchShard file s w).2 <= S (SW.requests w))%nat
  /\ forall buf, SW.cache_available w = true ->
       (SW.fetchShard file s w).1 = Ok buf ->
       SW.fetchShard file s (SW.fetchShard file s w).2
       = (Ok buf, (SW.fetchShard file s w).2).
Proof.
  intros Hfree. destruct (SW.fetchShard file s w) as [r w'] eqn:Hf. simpl.
  revert Hf. unfold SW.fetchShard at 1.
  destruct (SW.cache_match _ w) as [hit|] eqn:Hhit.
  { intros [= <- <-]. split; [done | split; [lia |]]. intros buf _ [= <-].
    unfold SW.fetchShard. by rewrite Hhit. }
  rewrite Hfree. unfold try_finally, SW.shard_task, bind, SW.fetch, modify, ret, throw.
  destruct (SW.net w _ _ _) as [status body|]; simpl.
  2:{ intros [= <- <-]. simpl.
      split; [by rewrite delete_insert_id | split; [lia | done]]. }
  destruct (reply_ok status); simpl.
  2:{ intros [= <- <-]. simpl.
      split; [by rewrite delete_insert_id | split; [lia | done]]. }
  unfold SW.cache_put. simpl.
  destruct (SW.cache_available w) eqn:Hav; simpl; intros [= <- <-]; simpl;
    (split; [by rewrite delete_insert_id | split; [lia |]]); [| done].
  intros buf _ [= <-]. unfold SW.fetchShard, SW.cache_match. simpl.
  by rewrite Hav, lookup_insert_eq.
Qed.

Lemma fetchShard_writes_through_witness :
  SW.fetchShard "b.bin" Demo.adaptive_source
    (SW.fetchShard "b.bin" Demo.adaptive_source Scenario.sw_cold).2
  = (Ok (Demo.content "b.bin"),
     (SW.fetchShard "b.bin" Demo.adaptive_source Scenario.sw_cold).2).
Proof.
  apply (fetchShard_writes_through "b.bin" Demo.adaptive_source Scenario.sw_cold);
    reflexivity.
Defined.

Section NodeShardCache.

Variable sha : string -> string.

Lemma Node_retry_loop_effects (url cp : string) (n : nat) (e : string)
    (w : Node.world) :
  let r := Node.retry_loop url cp n e w in
  (Node.requests w <= Node.requests r.2 <= Node.requests w + n)%nat
  /\ (Node.cacheDir r.2 = Node.cacheDir w
      /\ Node.fs_writable r.2 = Node.fs_writable w)
  /\ Node.retries r.2 = Node.retries w
  /\ (forall p, p <> cp -> Node.fs r.2 !! p = Node.fs w !! p)
  /\ (forall buf, r.1 = Ok buf -> Node.fs r.2 !! cp = Some buf).
Proof.
  revert e w. induction n as [| n IH]; intros e w; simpl.
  { repeat split; try done; lia. }
  unfold try_catch, Node.fetch_attempt, bind, Node.fetchFn.
  set (w1 := Node.set_requests (S (Node.requests w)) w).
  assert (Hstep : forall e', let r := Node.retry_loop url cp n e' w1 in
            (Node.requests w <= Node.requests r.2 <= Node.requests w + S n)%nat
            /\ (Node.cacheDir r.2 = Node.cacheDir w
                /\ Node.fs_writable r.2 = Node.fs_writable w)
            /\ Node.retries r.2 = Node.retries w
            /\ (forall p, p <> cp -> Node.fs r.2 !! p = Node.fs w !! p)
            /\ (forall buf, r.1 = Ok buf -> Node.fs r.2 !! cp = Some buf)).
  { intros e'. destruct (IH e' w1) as (H1 & [H2 H2'] & H3 & H4 & H5).
    simpl in *. repeat split; try done; lia. }
  destruct (Node.net w (Node.requests w) url None) as [status body|]; [| apply Hstep].
  destruct (reply_ok status); [| apply Hstep].
  unfold Node.writeFileSync, ret. simpl.
  destruct (Node.fs_writable w) eqn:Hwr; simpl; [| apply Hstep].
  repeat split; try done; try lia.
  - intros p Hp. by rewrite lookup_insert_ne.
  - intros buf [= <-]. apply lookup_insert_eq.
Qed.

(** X9. [_fetchShardBuf] makes at most [retries] requests, leaves
    every file but the shard's cache file as it was, and whatever it
    returns is what the cache then holds: an immediate second call
    returns the same bytes without a request and changes nothing. *)
Theorem fetchShardBuf_bounded_and_cached (url : string) (w : Node.world) :
  let r := Node._fetchShardBuf sha url w in
  (Node.requests r.2 <= Node.requests w + Node.retries w)%nat
  /\ (forall p, p <> Node._shardCachePath sha w url ->
        Node.fs r.2 !! p = Node.fs w !! p)
  /\ (forall buf, r.1 = Ok buf -> Node._fetchShardBuf sha url r.2 = (Ok buf, r.2)).
Proof.
  destruct (Node._fetchShardBuf sha url w) as [r w'] eqn:Hf. simpl.
  revert Hf. unfold Node._fetchShardBuf at 1.
  destruct (Node.fs w !! Node._shardCachePath sha w url) as [hit|] eqn:Hhit.
  { intros [= <- <-]. split; [lia | split; [done |]].
    intros buf [= <-]. unfold Node._fetchShardBuf. by rewrite Hhit. }
  intros Hf.
  pose proof (Node_retry_loop_effects url (Node._shardCachePath sha w url)
                (Node.retries w) "undefined" w) as H.
  cbv zeta in H. rewrite Hf in H. simpl in H.
  destruct H as (H1 & [H2 _] & H3 & H4 & H5).
  split; [lia | split; [done |]].
  intros buf Hbuf. unfold Node._fetchShardBuf.
  assert (Hcp : Node._shardCachePath sha w' url = Node._shardCachePath sha w url).
  { unfold Node._shardCachePath. by rewrite H2. }
  rewrite Hcp. by rewrite (H5 buf Hbuf).
Qed.

End NodeShardCache.

Lemma fetchShardBuf_bounded_and_cached_witness :
  Node._fetchShardBuf Demo.sha Demo.shard0_url
    (Node._fetchShardBuf Demo.sha Demo.shard0_url Scenario.node_remote).2
  = (Ok (Demo.content "a.bin.shard.000"),
     (Node._fetchShardBuf Demo.sha Demo.shard0_url Scenario.node_remote).2).
Proof.
  apply (fetchShardBuf_bounded_and_cached Demo.sha Demo.shard0_url
           Scenario.node_remote).
  reflexivity.
Defined.

(** * Packager output and the downloader *)

Lemma string_length_app (a b : string) :
  String.length (a ++ b) = (String.length a + String.length b)%nat.
Proof.
  induction a as [| c a IH]; [done |].
  change (S (String.length (a ++ b)) = S (String.length a + String.length b)).
  by rewrite IH.
Qed.

Lemma digit_inj (a b : nat) :
  Packager.digit a = Packager.digit b -> (a mod 10 = b mod 10)%nat.
Proof.
  unfold Packager.digit. intros H.
  pose proof (Nat.mod_upper_bound a 10). pose proof (Nat.mod_upper_bound b 10).
  apply (f_equal nat_of_ascii) in H.
  rewrite !nat_ascii_embedding in H by lia. lia.
Qed.

Lemma suffix3_inj (i j : nat) :
  (i < 1000)%nat -> (j < 1000)%nat ->
  Packager.suffix3 i = Packager.suffix3 j -> i = j.
Proof.
  intros Hi Hj. unfold Packager.suffix3. intros [= H2 H1 H0].
  change (Nat.divmod i 99 0 99).1 with (i / 100)%nat in H2.
  change (Nat.divmod j 99 0 99).1 with (j / 100)%nat in H2.
  change (Nat.divmod i 9 0 9).1 with (i / 10)%nat in H1.
  change (Nat.divmod j 9 0 9).1 with (j / 10)%nat in H1.
  apply digit_inj in H2, H1, H0.
  pose proof (Nat.div_mod_eq i 10). pose proof (Nat.div_mod_eq j 10).
  pose proof (Nat.div_mod_eq (i / 10) 10). pose proof (Nat.div_mod_eq (j / 10) 10).
  assert (Hi2 : ((i / 10) / 10 = i / 100)%nat) by (by rewrite Nat.Div0.div_div).
  assert (Hj2 : ((j / 10) / 10 = j / 100)%nat) by (by rewrite Nat.Div0.div_div).
  assert ((i / 100) mod 10 = i / 100)%nat.
  { apply Nat.mod_small, Nat.Div0.div_lt_upper_bound. lia. }
  assert ((j / 100) mod 10 = j / 100)%nat.
  { apply Nat.mod_small, Nat.Div0.div_lt_upper_bound. lia. }
  lia.
Qed.

Lemma shard_name_inj (fn : string) (i j : nat) :
  (i < 1000)%nat -> (j < 1000)%nat ->
  Packager.shard_name fn i = Packager.shard_name fn j -> i = j.
Proof.
  intros Hi Hj H. unfold Packager.shard_name in H.
  apply String.app_inj, String.app_inj in H. by apply suffix3_inj.
Qed.

Lemma shard_name_length (fn : string) (i : nat) :
  String.length (Packager.shard_name fn i) = (String.length fn + 10)%nat.
Proof. unfold Packager.shard_name. by rewrite !string_length_app. Qed.

Lemma shard_name_not_empty (fn : string) (i : nat) :
  Downloader.truthy (Some (Packager.shard_name fn i)) = Some (Packager.shard_name fn i).
Proof.
  unfold Downloader.truthy.
  destruct (String.eqb_spec (Packager.shard_name fn i) EmptyString) as [E|]; [| done].
  apply (f_equal String.length) in E. rewrite shard_name_length in E. simpl in E. lia.
Qed.

Section Written.

Variable CHUNK_SIZE : Z.

Lemma pieces_bounds (content p : list byte) (i : nat) :
  0 < CHUNK_SIZE -> Packager.get_size content <= 1000 * CHUNK_SIZE ->
  Packager.pieces (length content) (Z.to_nat CHUNK_SIZE) content !! i = Some p ->
  (i < 1000)%nat /\ Packager.get_size p <= CHUNK_SIZE.
Proof.
  intros Hc Hsz Hp. unfold Packager.get_size in *.
  destruct (pieces_nth CHUNK_SIZE (length content) content i p) as [-> Hlt];
    [lia | lia | done |].
  split; [nia |]. rewrite length_take. lia.
Qed.

(** X10. Every object phase 4 writes for a deliverable (without
    [--keep-intermediates]) fits the CDN chunk size; the objects have
    pairwise distinct flat names; and their bytes, concatenated in the
    order written, are the input file. *)
Theorem written_objects_fit_chunk (fn : string) (content : list byte)
    (outs : list (string * list byte)) :
  Output.written CHUNK_SIZE false fn content = Some outs ->
  Forall (fun o => Packager.get_size o.2 <= CHUNK_SIZE) outs
  /\ NoDup outs.*1
  /\ concat outs.*2 = content.
Proof.
  unfold Output.written, Packager.needs_byte_split.
  destruct (Z.gtb_spec (Packager.get_size content) CHUNK_SIZE) as [Hbig | Hsmall].
  2:{ intros [= <-]. simpl. split; [by apply Forall_singleton |].
      split; [apply NoDup_singleton | apply app_nil_r]. }
  unfold Packager.split_b_d_a3.
  destruct (Z.leb_spec CHUNK_SIZE 0) as [| Hpos]; [done |].
  destruct (Z.ltb_spec (1000 * CHUNK_SIZE) (Packager.get_size content)); [done |].
  simpl. intros [= <-]. rewrite app_nil_r.
  set (sfs := Packager.pieces _ _ _).
  assert (Hb : forall i p, sfs !! i = Some p ->
                 (i < 1000)%nat /\ Packager.get_size p <= CHUNK_SIZE).
  { intros i p Hp. by apply (pieces_bounds content p i). }
  split; [| split].
  - apply Forall_forall. intros [n b] Hin.
    apply elem_of_lookup_imap_1 in Hin as (i & p & [= -> ->] & Hp). simpl.
    by apply (Hb i).
  - apply NoDup_alt. intros i j n Hi Hj.
    rewrite list_lookup_fmap, list_lookup_imap in Hi, Hj.
    destruct (sfs !! i) as [p|] eqn:Hp; [| done].
    destruct (sfs !! j) as [q|] eqn:Hq; [| done].
    simpl in Hi, Hj. injection Hi as <-. injection Hj as Hj.
    apply (shard_name_inj fn); [by apply (Hb i p) | by apply (Hb j q) | done].
  - rewrite fmap_imap.
    assert (Hid : imap (fun n => snd ∘ (fun sf => (Packager.shard_name fn n, sf))) sfs
                  = sfs).
    { rewrite <- (list_fmap_id sfs) at 2. rewrite <- imap_const. by apply imap_ext. }
    unfold sfs in *. rewrite Hid. apply pieces_concat; [lia | done].
Qed.

End Written.

Lemma written_objects_fit_chunk_witness :
  exists outs, Output.written 4 false "w.bin" (Demo.ramp 0 10) = Some outs
    /\ outs.*1 = ["w.bin.shard.000"; "w.bin.shard.001"; "w.bin.shard.002"]%string
    /\ concat outs.*2 = Demo.ramp 0 10.
Proof.
  eexists. split; [reflexivity |]. split; [reflexivity |].
  by destruct (written_objects_fit_chunk 4 "w.bin" (Demo.ramp 0 10) _ eq_refl)
    as (_ & _ & H).
Defined.
(** * The packager's glob *)

Lemma string_app_assoc (a b c : string) : ((a ++ b) ++ c = a ++ (b ++ c))%string.
Proof.
  induction a as [| x a IH]; [done |].
  change (String x ((a ++ b) ++ c) = String x (a ++ (b ++ c))). by rewrite IH.
Qed.

Lemma string_compare_app (p a b : string) :
  String.compare (p ++ a) (p ++ b) = String.compare a b.
Proof.
  induction p as [| c p IH]; [done |].
  change (String.compare (String c (p ++ a)) (String c (p ++ b)) = String.compare a b).
  simpl. assert (H : Ascii.compare c c = Eq) by apply N.compare_refl.
  by rewrite H.
Qed.

Lemma string_compare_trans (a b c : string) :
  String.compare a b <> Gt -> String.compare b c <> Gt -> String.compare a c <> Gt.
Proof.
  revert b c. induction a as [| x a IH]; intros [| y b] [| z c]; simpl; try done.
  destruct (Ascii.compare x y) eqn:Hxy; [| | done];
    destruct (Ascii.compare y z) eqn:Hyz; try done.
  - apply Ascii.compare_eq_iff in Hxy, Hyz. subst.
    assert (H : Ascii.compare z z = Eq) by apply N.compare_refl.
    rewrite H. apply IH.
  - apply Ascii.compare_eq_iff in Hxy. subst. by rewrite Hyz.
  - apply Ascii.compare_eq_iff in Hyz. subst. by rewrite Hxy.
  - assert (H : Ascii.compare x z = Lt).
    { unfold Ascii.compare in *. rewrite N.compare_lt_iff in *. lia. }
    by rewrite H.
Qed.

Lemma collate_le_compare (a b : string) :
  Packager.collate_le a b <-> String.compare a b <> Gt.
Proof.
  unfold Packager.collate_le, String.leb. by destruct (String.compare a b).
Qed.

Lemma collate_le_trans : Transitive Packager.collate_le.
Proof.
  intros a b c. rewrite !collate_le_compare. apply string_compare_trans.
Qed.

Lemma collate_le_antisym : AntiSymm eq Packager.collate_le.
Proof. intros a b. apply String.leb_antisym. Qed.

Lemma collate_le_total : Total Packager.collate_le.
Proof. intros a b. apply String.leb_total. Qed.

Lemma suffix3_steps :
  forallb (fun i => String.leb (Packager.suffix3 i) (Packager.suffix3 (S i)))
          (seq 0 999) = true.
Proof. vm_compute. reflexivity. Qed.

Lemma shard_name_step (fn : string) (i : nat) :
  (S i < 1000)%nat ->
  Packager.collate_le (Packager.shard_name fn i) (Packager.shard_name fn (S i)).
Proof.
  intros Hi. unfold Packager.collate_le, Packager.shard_name, String.leb.
  rewrite !string_compare_app.
  pose proof suffix3_steps as H. rewrite forallb_forall in H.
  specialize (H i). unfold String.leb in H. apply H.
  apply in_seq. lia.
Qed.

Lemma shard_names_sorted (fn : string) (k n : nat) :
  (k + n <= 1000)%nat ->
  Sorted Packager.collate_le (Packager.shard_name fn <$> seq k n).
Proof.
  revert k. induction n as [| n IH]; intros k Hk; [constructor |].
  simpl. constructor; [apply IH; lia |].
  destruct n as [| n]; simpl; constructor.
  apply shard_name_step. lia.
Qed.

Lemma shard_names_NoDup (fn : string) (n : nat) :
  (n <= 1000)%nat -> NoDup (Packager.shard_name fn <$> seq 0 n).
Proof.
  intros Hn. apply NoDup_alt. intros i j x Hi Hj.
  rewrite list_lookup_fmap in Hi, Hj.
  destruct (seq 0 n !! i) as [a|] eqn:Ha; [| done].
  destruct (seq 0 n !! j) as [b|] eqn:Hb; [| done].
  apply lookup_seq in Ha as [-> Hlt], Hb as [-> Hlt'].
  simpl in Hi, Hj. injection Hi as <-. injection Hj as Hj.
  symmetry. apply (shard_name_inj fn); [lia | lia | done].
Qed.

Lemma shard_name_globbed (fn : string) (i : nat) :
  String.prefix (fn ++ ".shard.") (Packager.shard_name fn i) = true.
Proof.
  apply prefix_app. exists (Packager.suffix3 i).
  unfold Packager.shard_name. by rewrite string_app_assoc.
Qed.

(** When the files named [fn.shard.*] are exactly the first [k] shard
    names, the expansion lists them in index order. *)
Lemma glob_exact (fn : string) (m : gmap string (list byte)) (k : nat) :
  (k <= 1000)%nat ->
  (forall n, String.prefix (fn ++ ".shard.") n = true ->
     (is_Some (m !! n) <-> exists i, (i < k)%nat /\ n = Packager.shard_name fn i)) ->
  Packager.glob_shards fn m = Packager.shard_name fn <$> seq 0 k.
Proof.
  intros Hk Hm. unfold Packager.glob_shards.
  apply (Sorted_unique Packager.collate_le (Transitive0 := collate_le_trans)
           (AntiSymm0 := collate_le_antisym)).
  - apply Sorted_merge_sort, collate_le_total.
  - by apply shard_names_sorted.
  - rewrite merge_sort_Permutation. apply NoDup_Permutation.
    + apply NoDup_filter, NoDup_fst_map_to_list.
    + by apply shard_names_NoDup.
    + intros n. rewrite list_elem_of_filter. split.
      * intros [Hp Hin]. apply list_elem_of_fmap in Hin as ([n' b] & -> & Hin).
        apply elem_of_map_to_list in Hin. simpl in *.
        destruct (proj1 (Hm n' Hp)) as (i & Hi & ->); [by exists b |].
        apply list_elem_of_fmap. exists i. split; [done |]. apply elem_of_seq. lia.
      * intros Hin. apply list_elem_of_fmap in Hin as (i & -> & Hin).
        apply elem_of_seq in Hin.
        split; [apply shard_name_globbed |].
        destruct (proj2 (Hm _ (shard_name_globbed fn i))) as [b Hb];
          [exists i; split; [lia | done] |].
        apply list_elem_of_fmap. exists (Packager.shard_name fn i, b).
        split; [done |]. by apply elem_of_map_to_list.
Qed.

(** What [split] leaves in the directory. *)
Lemma write_pieces_shard (fn : string) (sfs : list (list byte))
    (out : gmap string (list byte)) (i : nat) (sf : list byte) :
  (length sfs <= 1000)%nat -> sfs !! i = Some sf ->
  Packager.write_pieces fn sfs out !! Packager.shard_name fn i = Some sf.
Proof.
  intros Hlen Hi. unfold Packager.write_pieces.
  apply lookup_union_Some_l, elem_of_list_to_map_1.
  - rewrite fmap_imap. apply NoDup_alt. intros a b n Ha Hb.
    rewrite list_lookup_imap in Ha, Hb.
    destruct (sfs !! a) as [p|] eqn:Hp; [| done].
    destruct (sfs !! b) as [q|] eqn:Hq; [| done].
    simpl in Ha, Hb. injection Ha as <-. injection Hb as Hb.
    apply lookup_lt_Some in Hp, Hq.
    symmetry. apply (shard_name_inj fn); [lia | lia | done].
  - by apply (elem_of_lookup_imap_2 (fun i sf => (Packager.shard_name fn i, sf))).
Qed.

Lemma write_pieces_other (fn : string) (sfs : list (list byte))
    (out : gmap string (list byte)) (n : string) :
  (forall i, (i < length sfs)%nat -> n <> Packager.shard_name fn i) ->
  Packager.write_pieces fn sfs out !! n = out !! n.
Proof.
  intros Hn. unfold Packager.write_pieces.
  rewrite lookup_union_r; [done |]. apply not_elem_of_list_to_map_1.
  intros Hin. apply list_elem_of_fmap in Hin as ([n' b] & -> & Hin).
  apply elem_of_lookup_imap_1 in Hin as (i & p & [= -> ->] & Hp).
  apply lookup_lt_Some in Hp. by apply (Hn i).
Qed.

Lemma shard_loop_expected (sha : list byte -> string) (fn : string)
    (out : gmap string (list byte)) (sfs : list (list byte)) (i0 : nat) (o : Z) :
  (forall k sf, sfs !! k = Some sf ->
     out !! Packager.shard_name fn (i0 + k) = Some sf) ->
  Packager.shard_loop sha out o (Packager.shard_name fn <$> seq i0 (length sfs))
  = expected_shards sha fn i0 o sfs.
Proof.
  revert i0 o. induction sfs as [| sf sfs IH]; intros i0 o Hout; [done |].
  pose proof (Hout 0%nat sf eq_refl) as H0. rewrite Nat.add_0_r in H0.
  simpl. rewrite H0. simpl.
  f_equal. apply IH. intros k sf' Hk.
  rewrite <- (Hout (S k) sf' Hk). f_equal. f_equal. lia.
Qed.

Lemma fn_not_globbed (fn : string) : String.prefix (fn ++ ".shard.") fn = false.
Proof.
  destruct (String.prefix _ fn) eqn:Hp; [| done].
  apply prefix_app in Hp as [r Hr]. apply (f_equal String.length) in Hr.
  rewrite !string_length_app in Hr. simpl in Hr. lia.
Qed.

Lemma fn_not_shard_name (fn : string) (i : nat) : fn <> Packager.shard_name fn i.
Proof.
  intros E. apply (f_equal String.length) in E.
  rewrite shard_name_length in E. lia.
Qed.

Section Fresh.

Variables (CHUNK_SIZE : Z) (sha : list byte -> string) (keep : bool).

Lemma split_pieces (content : list byte) (sfs : list (list byte)) :
  Packager.needs_byte_split CHUNK_SIZE content = true ->
  Packager.split_b_d_a3 CHUNK_SIZE content = Some sfs ->
  concat sfs = content /\ (0 < length sfs <= 1000)%nat.
Proof.
  unfold Packager.needs_byte_split, Packager.split_b_d_a3. intros Hbig.
  destruct (Z.gtb_spec (Packager.get_size content) CHUNK_SIZE) as [Hgt |]; [| done].
  destruct (Z.leb_spec CHUNK_SIZE 0) as [| Hpos]; [done |].
  destruct (Z.ltb_spec (1000 * CHUNK_SIZE) (Packager.get_size content)); [done |].
  intros [= <-].
  assert (Hcat : concat (Packager.pieces (length content) (Z.to_nat CHUNK_SIZE) content)
                 = content) by (apply pieces_concat; [lia | done]).
  split; [done |]. split.
  - destruct (Packager.pieces _ _ _); [| simpl; lia].
    simpl in Hcat. subst content. unfold Packager.get_size in *. simpl in *. lia.
  - destruct (decide (length (Packager.pieces (length content)
                                (Z.to_nat CHUNK_SIZE) content) <= 1000)%nat)
      as [| Hlong]; [done |].
    destruct (lookup_lt_is_Some_2
                (Packager.pieces (length content) (Z.to_nat CHUNK_SIZE) content)
                1000 ltac:(lia)) as [p Hp].
    apply (pieces_bounds CHUNK_SIZE) in Hp as [Hlt _]; [lia | done | done].
Qed.

Lemma split_is_pieces (content : list byte) :
  0 < CHUNK_SIZE -> Packager.get_size content <= 1000 * CHUNK_SIZE ->
  Packager.split_b_d_a3 CHUNK_SIZE content
  = Some (Packager.pieces (length content) (Z.to_nat CHUNK_SIZE) content).
Proof.
  intros Hpos Hfit. unfold Packager.split_b_d_a3.
  destruct (Z.leb_spec CHUNK_SIZE 0); [lia |].
  by destruct (Z.ltb_spec (1000 * CHUNK_SIZE) (Packager.get_size content)); [lia |].
Qed.

Lemma no_stale_holds (fn : string) (out : gmap string (list byte)) :
  no_stale_shards fn out -> holds_shards fn out [].
Proof.
  intros Hfresh. split; [simpl; lia |]. split; [done |].
  intros n Hn Hp. specialize (Hfresh n Hn). congruence.
Qed.

(** One iteration of phase 4 on a sharded file, in a directory that
    holds the pieces [held] under the shard names of its flat name: the
    new pieces replace the first of them, and the entry lists the new
    pieces followed by the pieces left over. *)
Lemma write_deliverable_over (d : Packager.deliverable)
    (out : gmap string (list byte)) (entries : list (string * file_entry))
    (sfs held : list (list byte)) :
  holds_shards (Packager.d_flat d) out held ->
  Packager.needs_byte_split CHUNK_SIZE (Packager.d_pp d) = true ->
  Packager.split_b_d_a3 CHUNK_SIZE (Packager.d_pp d) = Some sfs ->
  exists out',
    Packager.write_deliverable CHUNK_SIZE sha keep d (out, entries)
    = Some (out', entries ++ [(Packager.d_vp d,
                               FileEntry (Packager.get_size (Packager.d_pp d))
                                 (sha (Packager.d_pp d)) None
                                 (Some (expected_shards sha (Packager.d_flat d) 0 0
                                          (sfs ++ drop (length sfs) held))))])
    /\ holds_shards (Packager.d_flat d) out' (sfs ++ drop (length sfs) held).
Proof.
  intros (Hheld & Hin & Hex) Hsplit Hsfs.
  destruct (split_pieces _ _ Hsplit Hsfs) as [Hcat [Hne Hlen]].
  set (now := sfs ++ drop (length sfs) held).
  assert (Hnow : length now = (length sfs `max` length held)%nat).
  { unfold now. rewrite length_app, length_drop. lia. }
  unfold Packager.write_deliverable. cbn [fst snd].
  set (fn := Packager.d_flat d) in *. set (content := Packager.d_pp d) in *.
  rewrite Hsplit, Hsfs. cbn [mbind option_bind].
  set (out1 := Packager.write_pieces fn sfs out).
  set (out2 := if keep && negb (String.eqb (Packager.d_src d) EmptyString)
               then <[fn := content]> out1 else out1).
  assert (Hkeep : forall n, n <> fn -> out2 !! n = out1 !! n).
  { intros n Hn. unfold out2. destruct (keep && _); [| done].
    by rewrite lookup_insert_ne. }
  assert (Hshard : forall k sf, now !! k = Some sf ->
                     out2 !! Packager.shard_name fn k = Some sf).
  { intros k sf Hk.
    rewrite Hkeep by (intros E; symmetry in E; by apply fn_not_shard_name in E).
    unfold now in Hk. destruct (decide (k < length sfs)%nat) as [Hlt | Hge].
    - rewrite lookup_app_l in Hk by done. by apply write_pieces_shard.
    - rewrite lookup_app_r in Hk by lia. rewrite lookup_drop in Hk.
      replace (length sfs + (k - length sfs))%nat with k in Hk by lia.
      unfold out1. rewrite write_pieces_other; [by apply Hin |].
      intros i Hi E. apply lookup_lt_Some in Hk.
      apply shard_name_inj in E; lia. }
  assert (Hall : forall n, is_Some (out2 !! n) ->
                   String.prefix (fn ++ ".shard.") n = true ->
                   exists i, (i < length now)%nat /\ n = Packager.shard_name fn i).
  { intros n Hn Hp.
    assert (Hne' : n <> fn) by (intros ->; by rewrite fn_not_globbed in Hp).
    rewrite Hkeep in Hn by done.
    destruct (decide (n ∈ Packager.shard_name fn <$> seq 0 (length sfs)))
      as [Hin' | Hno].
    - apply list_elem_of_fmap in Hin' as (i & -> & Hi). apply elem_of_seq in Hi.
      exists i. split; [lia | done].
    - unfold out1 in Hn. rewrite write_pieces_other in Hn.
      + destruct (Hex n Hn Hp) as (i & Hi & ->). exists i. split; [lia | done].
      + intros i Hi ->. apply Hno, list_elem_of_fmap. exists i.
        split; [done |]. apply elem_of_seq. lia. }
  assert (Hglob : Packager.glob_shards fn out2
                  = Packager.shard_name fn <$> seq 0 (length now)).
  { apply glob_exact; [lia |]. intros n Hp. split.
    - intros Hn. by apply Hall.
    - intros (i & Hi & ->). apply lookup_lt_is_Some_2 in Hi as [sf Hsf].
      exists sf. by apply Hshard. }
  exists out2. split; [| split; [lia | by split]]. rewrite Hglob.
  rewrite <- (shard_loop_expected sha fn out2 now 0 0) by done.
  destruct (length now) eqn:E; [lia | done].
Qed.

(** The same on a flat name that is fresh: no file of the output
    directory is named [fn.shard.*].  The pieces are stored under the
    shard names in order, and the entry lists exactly these. *)
Lemma write_deliverable_sharded (d : Packager.deliverable)
    (out : gmap string (list byte)) (entries : list (string * file_entry))
    (sfs : list (list byte)) :
  no_stale_shards (Packager.d_flat d) out ->
  Packager.needs_byte_split CHUNK_SIZE (Packager.d_pp d) = true ->
  Packager.split_b_d_a3 CHUNK_SIZE (Packager.d_pp d) = Some sfs ->
  exists out',
    Packager.write_deliverable CHUNK_SIZE sha keep d (out, entries)
    = Some (out', entries ++ [(Packager.d_vp d,
                               FileEntry (Packager.get_size (Packager.d_pp d))
                                 (sha (Packager.d_pp d)) None
                                 (Some (expected_shards sha (Packager.d_flat d) 0 0 sfs)))])
    /\ forall k sf, sfs !! k = Some sf ->
         out' !! Packager.shard_name (Packager.d_flat d) k = Some sf.
Proof.
  intros Hfresh Hsplit Hsfs.
  destruct (write_deliverable_over d out entries sfs [] (no_stale_holds _ _ Hfresh)
              Hsplit Hsfs) as (out' & Heq & _ & Hin & _).
  rewrite drop_nil, app_nil_r in Heq, Hin. by exists out'.
Qed.

(** The same iteration read backwards: what the entry it appends and the
    directory it leaves are. *)
Lemma write_deliverable_fresh (d : Packager.deliverable)
    (out out' : gmap string (list byte)) (entries : list (string * file_entry))
    (e : file_entry) :
  no_stale_shards (Packager.d_flat d) out ->
  Packager.write_deliverable CHUNK_SIZE sha keep d (out, entries)
  = Some (out', entries ++ [(Packager.d_vp d, e)]) ->
  entry_size e = Packager.get_size (Packager.d_pp d)
  /\ ((entry_shards e = None /\ entry_cdn_file e = Some (Packager.d_flat d)
       /\ out' !! Packager.d_flat d = Some (Packager.d_pp d))
      \/ exists sfs,
           concat sfs = Packager.d_pp d
           /\ entry_shards e
              = Some (expected_shards sha (Packager.d_flat d) 0 0 sfs)
           /\ forall k sf, sfs !! k = Some sf ->
                out' !! Packager.shard_name (Packager.d_flat d) k = Some sf).
Proof.
  intros Hfresh Hw.
  destruct (Packager.needs_byte_split CHUNK_SIZE (Packager.d_pp d)) eqn:Hsplit.
  - destruct (Packager.split_b_d_a3 CHUNK_SIZE (Packager.d_pp d)) as [sfs|] eqn:Hsfs.
    2:{ revert Hw. unfold Packager.write_deliverable. by rewrite Hsplit, Hsfs. }
    destruct (write_deliverable_sharded d out entries sfs Hfresh Hsplit Hsfs)
      as (out2 & Heq & Hshard).
    rewrite Heq in Hw. injection Hw as <- He. apply app_inv_head in He.
    injection He as <-. split; [done |]. right. exists sfs.
    split; [by apply (split_pieces _ _ Hsplit Hsfs) |]. by split.
  - revert Hw. unfold Packager.write_deliverable. rewrite Hsplit. cbn [fst snd].
    intros [= <- He]. apply app_inv_head in He. injection He as <-.
    split; [done |]. left. split; [done |]. split; [done |]. apply lookup_insert_eq.
Qed.

(** With a fresh flat name, a file larger than the chunk size and no
    larger than 1000 chunks gets a shard list that starts at offset 0, is
    contiguous, sums to the file size, has every shard but possibly the
    last of exactly chunk-size bytes, and whose [i]-th record carries the
    name [fn.shard.NNN], its offset, its size and the SHA-256 of its
    bytes of the file. *)
Lemma fresh_name_shard_list (d : Packager.deliverable)
    (out : gmap string (list byte)) (entries : list (string * file_entry)) :
  0 < CHUNK_SIZE ->
  Packager.get_size (Packager.d_pp d) > CHUNK_SIZE ->
  Packager.get_size (Packager.d_pp d) <= 1000 * CHUNK_SIZE ->
  no_stale_shards (Packager.d_flat d) out ->
  exists out' l,
    Packager.write_deliverable CHUNK_SIZE sha keep d (out, entries)
    = Some (out', entries ++ [(Packager.d_vp d,
                               FileEntry (Packager.get_size (Packager.d_pp d))
                                         (sha (Packager.d_pp d)) None (Some l))])
    /\ shards_wf (Packager.get_size (Packager.d_pp d)) l
    /\ forall i sh, l !! i = Some sh ->
         shard_file sh = Packager.shard_name (Packager.d_flat d) i
         /\ shard_offset sh = Z.of_nat i * CHUNK_SIZE
         /\ 0 < shard_size sh <= CHUNK_SIZE
         /\ ((S i < length l)%nat -> shard_size sh = CHUNK_SIZE)
         /\ shard_sha256 sh
            = sha (bytes_between (shard_offset sh)
                     (shard_offset sh + shard_size sh - 1) (Packager.d_pp d)).
Proof.
  intros Hpos Hbig Hfit Hfresh.
  destruct (split_shard_list CHUNK_SIZE sha (Packager.d_flat d) (Packager.d_pp d)
              Hpos Hbig Hfit) as (sfs & Hsfs & Hcat & _ & Hc & Hs & Hrec).
  assert (Hsplit : Packager.needs_byte_split CHUNK_SIZE (Packager.d_pp d) = true).
  { unfold Packager.needs_byte_split.
    destruct (Z.gtb_spec (Packager.get_size (Packager.d_pp d)) CHUNK_SIZE); [done | lia]. }
  destruct (write_deliverable_sharded d out entries sfs Hfresh Hsplit Hsfs)
    as (out' & Heq & _).
  exists out', (expected_shards sha (Packager.d_flat d) 0 0 sfs).
  split; [done |]. split; [by split | done].
Qed.

(** C4. Two inputs of one run with the same flat name, in a directory
    that holds no shard of that name; the second is larger than the
    chunk size, and the first is larger still by at least the rest of a
    chunk, so that it is cut into more pieces.  Phase 4 goes through:
    it cuts both into [fn.shard.NNN], the second over the first, and its
    expansion of [fn.shard.*] for the second file also yields the last
    shards of the first.  The shard list recorded for the second file is
    as long as that of the first, and its sizes sum to more than the
    size of the file. *)
Theorem same_name_inputs_corrupt_shard_list (a b : Packager.deliverable)
    (out : gmap string (list byte)) (k : Z) :
  0 < CHUNK_SIZE ->
  Packager.d_flat b = Packager.d_flat a ->
  no_stale_shards (Packager.d_flat a) out ->
  CHUNK_SIZE < Packager.get_size (Packager.d_pp b) ->
  Packager.get_size (Packager.d_pp b) <= k * CHUNK_SIZE ->
  k * CHUNK_SIZE < Packager.get_size (Packager.d_pp a) ->
  Packager.get_size (Packager.d_pp a) <= 1000 * CHUNK_SIZE ->
  exists out' la lb,
    Packager.phase4 CHUNK_SIZE sha keep [a; b] out
    = Some (out',
            [(Packager.d_vp a,
              FileEntry (Packager.get_size (Packager.d_pp a)) (sha (Packager.d_pp a))
                        None (Some la));
             (Packager.d_vp b,
              FileEntry (Packager.get_size (Packager.d_pp b)) (sha (Packager.d_pp b))
                        None (Some lb))])
    /\ length lb = length la
    /\ Packager.get_size (Packager.d_pp b) < sum_sizes lb
    /\ ~ shards_wf (Packager.get_size (Packager.d_pp b)) lb.
Proof.
  intros Hpos Hfn Hfresh Hb Hbk Hka Ha.
  set (n := Z.to_nat CHUNK_SIZE). assert (Hn : (0 < n)%nat) by (unfold n; lia).
  set (A := Packager.d_pp a) in *. set (B := Packager.d_pp b) in *.
  set (sfsA := Packager.pieces (length A) n A).
  set (sfsB := Packager.pieces (length B) n B).
  assert (HsA : Packager.split_b_d_a3 CHUNK_SIZE A = Some sfsA)
    by (apply split_is_pieces; lia).
  assert (HsB : Packager.split_b_d_a3 CHUNK_SIZE B = Some sfsB)
    by (apply split_is_pieces; lia).
  assert (HnA : Packager.needs_byte_split CHUNK_SIZE A = true).
  { unfold Packager.needs_byte_split.
    destruct (Z.gtb_spec (Packager.get_size A) CHUNK_SIZE); [done | lia]. }
  assert (HnB : Packager.needs_byte_split CHUNK_SIZE B = true).
  { unfold Packager.needs_byte_split.
    destruct (Z.gtb_spec (Packager.get_size B) CHUNK_SIZE); [done | lia]. }
  destruct (pieces_length CHUNK_SIZE (length A) A Hn ltac:(done)) as [HlenA _].
  destruct (pieces_length CHUNK_SIZE (length B) B Hn ltac:(done)) as [_ HidxB].
  fold n sfsA in HlenA. fold n sfsB in HidxB.
  assert (Hlt : (length sfsB < length sfsA)%nat).
  { unfold Packager.get_size in *.
    assert (Hk : 0 <= k) by nia.
    assert (H1 : (length sfsB <= Z.to_nat k)%nat).
    { destruct (decide (length sfsB <= Z.to_nat k)%nat) as [| Hgt]; [done |].
      specialize (HidxB (Z.to_nat k) ltac:(lia)). unfold n in HidxB. nia. }
    assert (H2 : (Z.to_nat k < length sfsA)%nat) by (unfold n in HlenA; nia).
    lia. }
  destruct (write_deliverable_over a out [] sfsA [] (no_stale_holds _ _ Hfresh)
              HnA HsA) as (out1 & H1 & Hheld).
  rewrite drop_nil, app_nil_r in H1, Hheld. rewrite <- Hfn in Hheld.
  destruct (write_deliverable_over b out1
              [(Packager.d_vp a,
                FileEntry (Packager.get_size A) (sha A) None
                  (Some (expected_shards sha (Packager.d_flat a) 0 0 sfsA)))]
              sfsB sfsA Hheld HnB HsB) as (out2 & H2 & _).
  exists out2, (expected_shards sha (Packager.d_flat a) 0 0 sfsA),
    (expected_shards sha (Packager.d_flat b) 0 0 (sfsB ++ drop (length sfsB) sfsA)).
  assert (Hsum : Packager.get_size B
                 < sum_sizes (expected_shards sha (Packager.d_flat b) 0 0
                                (sfsB ++ drop (length sfsB) sfsA))).
  { destruct (shard_loop_contiguous sha (Packager.d_flat b)
                (sfsB ++ drop (length sfsB) sfsA) 0 0) as [_ ->].
    rewrite concat_app, length_app.
    unfold sfsB at 1. rewrite (pieces_concat CHUNK_SIZE) by done.
    destruct (lookup_lt_is_Some_2 sfsA (length sfsB) Hlt) as [p Hp].
    rewrite (drop_S _ _ _ Hp). simpl. rewrite length_app.
    apply (pieces_nth CHUNK_SIZE) in Hp as [-> Hp']; [| done | done].
    rewrite length_take, length_drop. unfold Packager.get_size. fold n. lia. }
  split.
  { subst A B. cbn [app] in H1, H2. unfold Packager.phase4. cbn [fold_left].
    change (Some (out, []) ≫= Packager.write_deliverable CHUNK_SIZE sha keep a)
      with (Packager.write_deliverable CHUNK_SIZE sha keep a (out, [])).
    rewrite H1.
    change (Some ?x ≫= Packager.write_deliverable CHUNK_SIZE sha keep b)
      with (Packager.write_deliverable CHUNK_SIZE sha keep b x).
    by rewrite H2. }
  split; [rewrite !shard_loop_length, length_app, length_drop; lia |].
  split; [done |]. intros [_ Hs]. lia.
Qed.

End Fresh.

Lemma same_name_inputs_corrupt_shard_list_witness :
  exists out' la lb,
    Packager.phase4 Demo.MiB Demo.digest false [Demo.model_a; Demo.model_b] ∅
    = Some (out',
            [(Packager.d_vp Demo.model_a,
              FileEntry (Packager.get_size (Packager.d_pp Demo.model_a))
                        (Demo.digest (Packager.d_pp Demo.model_a)) None (Some la));
             (Packager.d_vp Demo.model_b,
              FileEntry (Packager.get_size (Packager.d_pp Demo.model_b))
                        (Demo.digest (Packager.d_pp Demo.model_b)) None (Some lb))])
    /\ length lb = length la
    /\ Packager.get_size (Packager.d_pp Demo.model_b) < sum_sizes lb
    /\ ~ shards_wf (Packager.get_size (Packager.d_pp Demo.model_b)) lb.
Proof.
  assert (Ha : Packager.get_size (Packager.d_pp Demo.model_a) = 2 * Demo.MiB + 524288).
  { unfold Packager.get_size, Demo.model_a. cbn [Packager.d_pp].
    rewrite length_replicate. apply Z2Nat.id. unfold Demo.MiB. lia. }
  assert (Hb : Packager.get_size (Packager.d_pp Demo.model_b) = Demo.MiB + 524288).
  { unfold Packager.get_size, Demo.model_b. cbn [Packager.d_pp].
    rewrite length_replicate. apply Z2Nat.id. unfold Demo.MiB. lia. }
  apply (same_name_inputs_corrupt_shard_list Demo.MiB Demo.digest false
           Demo.model_a Demo.model_b ∅ 2).
  - reflexivity.
  - exact (eq_refl "model.bin"%string).
  - intros n [x Hx]. by rewrite lookup_empty in Hx.
  - rewrite Hb. unfold Demo.MiB. lia.
  - rewrite Hb. unfold Demo.MiB. lia.
  - rewrite Ha. unfold Demo.MiB. lia.
  - rewrite Ha. unfold Demo.MiB. lia.
Defined.
(** * Pack, then assemble or download *)

Lemma mapM_cons_ok {W A B} (f : A -> M W B) (a : A) (l : list A) (w w1 w2 : W)
    (b : B) (bs : list B) :
  f a w = (Ok b, w1) -> mapM f l w1 = (Ok bs, w2) ->
  mapM f (a :: l) w = (Ok (b :: bs), w2).
Proof. intros Ha Hl. simpl. unfold bind. by rewrite Ha, Hl. Qed.

Lemma bind_modify {W B} (g : W -> W) (k : M W B) (w : W) :
  (modify g ;;; k) w = k (g w).
Proof. reflexivity. Qed.

Lemma bind_ok {W A B} (m : M W A) (k : A -> M W B) (w w1 : W) (a : A) :
  m w = (Ok a, w1) -> bind m k w = k a w1.
Proof. intros H. unfold bind. by rewrite H. Qed.

Lemma stream_write_last (older : list (string * list byte)) (dest : string)
    (buf data : list byte) (w : Downloader.world) :
  Downloader.streams w = older ++ [(dest, buf)] ->
  Downloader.stream_write data w
  = Downloader.set_streams (older ++ [(dest, buf ++ data)]) w.
Proof.
  intros Hs. unfold Downloader.stream_write. rewrite Hs, reverse_snoc.
  by rewrite reverse_involutive.
Qed.

Lemma drain_one (older : list (string * list byte)) (dest : string)
    (buf : list byte) (w : Downloader.world) :
  Downloader.streams w = [(dest, buf)] ->
  Downloader.drain w
  = Downloader.World (<[dest := buf]> (Downloader.fs w)) (Downloader.net w)
                     (Downloader.requests w) [].
Proof. intros Hs. unfold Downloader.drain. by rewrite Hs. Qed.

Section Assemble.

Variables (base dest : string) (content : string -> list byte).

Lemma truthy_name (n : string) :
  n <> EmptyString -> Downloader.truthy (Some n) = Some n.
Proof.
  intros Hn. unfold Downloader.truthy.
  by destruct (String.eqb_spec n EmptyString).
Qed.

(** The loop of [assembleLocal]: every shard is read at once, and its
    bytes are queued on the stream; no file changes. *)
Lemma assemble_loop (l : list shard) (older : list (string * list byte))
    (acc : list byte) (w : Downloader.world) :
  (forall sh, sh ∈ l ->
     shard_file sh <> EmptyString
     /\ Downloader.fs w !! path_join base (shard_file sh)
        = Some (content (shard_file sh))) ->
  Downloader.streams w = older ++ [(dest, acc)] ->
  exists r,
    mapM (fun sh =>
            data <- Downloader.read_named base (Downloader.shardName sh) ;;
            modify (Downloader.stream_write data)) l w
    = (Ok r, Downloader.set_streams (older ++ [(dest, acc ++ shard_bytes content l)]) w).
Proof.
  revert acc w. induction l as [| sh l IH]; intros acc w Hl Hs.
  { exists []. simpl. unfold ret, shard_bytes. simpl. rewrite app_nil_r, <- Hs.
    by destruct w. }
  destruct (Hl sh) as (Hne & Hsh); [by left |].
  set (w1 := Downloader.set_streams
               (older ++ [(dest, acc ++ content (shard_file sh))]) w).
  destruct (IH (acc ++ content (shard_file sh)) w1) as [r Hr].
  - intros sh' Hin. destruct (Hl sh') as (? & ?); [by right |]. by split.
  - done.
  - exists (tt :: r). apply (mapM_cons_ok _ _ _ _ w1).
    + unfold bind, Downloader.shardName. rewrite (truthy_name _ Hne). simpl.
      unfold Downloader.readFileSync. rewrite Hsh. unfold modify.
      by rewrite (stream_write_last older dest acc).
    + rewrite Hr. f_equal. unfold w1, Downloader.set_streams. simpl.
      unfold shard_bytes. simpl. by rewrite app_assoc.
Qed.

Lemma download_loop (l : list shard) (acc : list byte) (w : Downloader.world) :
  (forall sh k, sh ∈ l ->
     shard_file sh <> EmptyString
     /\ Downloader.net w k (base ++ "/" ++ shard_file sh)%string None
        = HttpReply 200 (content (shard_file sh))) ->
  Downloader.fs w !! dest = Some acc ->
  exists r,
    mapM (fun sh =>
            r <- Downloader.fetch
                   (base ++ "/" ++ Downloader.render (Downloader.shardName sh)) ;;
            if reply_ok r.1 then modify (Downloader.append dest r.2)
            else throw ("HTTP " ++ JS.num_to_string r.1 ++ " for shard "
                        ++ Downloader.render (Downloader.shardName sh))) l w
    = (Ok r, Downloader.World (<[dest := acc ++ shard_bytes content l]>
                                 (Downloader.fs w))
                              (Downloader.net w)
                              (Downloader.requests w + length l)
                              (Downloader.streams w)).
Proof.
  revert acc w. induction l as [| sh l IH]; intros acc w Hl Hdest.
  { exists []. simpl. unfold ret, shard_bytes. simpl. rewrite app_nil_r.
    rewrite insert_id by done. rewrite Nat.add_0_r. by destruct w. }
  destruct (Hl sh (Downloader.requests w)) as (Hne & Hsh); [by left |].
  set (w1 := Downloader.append dest (content (shard_file sh))
               (Downloader.World (Downloader.fs w) (Downloader.net w)
                                 (S (Downloader.requests w)) (Downloader.streams w))).
  destruct (IH (acc ++ content (shard_file sh)) w1) as [r Hr].
  - intros sh' k Hin. destruct (Hl sh' k) as (? & ?); [by right |]. by split.
  - unfold w1, Downloader.append. simpl. by rewrite lookup_insert_eq, Hdest.
  - exists (tt :: r). apply (mapM_cons_ok _ _ _ _ w1).
    + unfold bind, Downloader.shardName. rewrite (truthy_name _ Hne). simpl.
      unfold Downloader.fetch. by rewrite Hsh.
    + rewrite Hr. f_equal.
      unfold w1, Downloader.append, Downloader.set_fs. simpl.
      rewrite insert_insert_eq. unfold shard_bytes. simpl.
      rewrite app_assoc. f_equal. lia.
Qed.

End Assemble.

Section RoundTrip.

Variables (CHUNK_SIZE : Z) (sha : list byte -> string) (keep : bool).

Lemma expected_bytes (fn : string) (content : string -> list byte)
    (sfs : list (list byte)) (i0 : nat) (o : Z) :
  (forall k sf, sfs !! k = Some sf -> content (Packager.shard_name fn (i0 + k)) = sf) ->
  shard_bytes content (expected_shards sha fn i0 o sfs) = concat sfs.
Proof.
  revert i0 o. induction sfs as [| sf sfs IH]; intros i0 o Hc; [done |].
  unfold shard_bytes in *. simpl. f_equal.
  - rewrite <- (Hc 0%nat sf eq_refl). by rewrite Nat.add_0_r.
  - apply IH. intros k sf' Hk. rewrite <- (Hc (S k) sf' Hk). f_equal. f_equal. lia.
Qed.

Lemma expected_files (fn : string) (sfs : list (list byte)) (i0 : nat) (o : Z)
    (sh : shard) :
  sh ∈ expected_shards sha fn i0 o sfs ->
  exists k sf, sfs !! k = Some sf /\ shard_file sh = Packager.shard_name fn (i0 + k).
Proof.
  revert i0 o. induction sfs as [| sf sfs IH]; intros i0 o Hin.
  { by apply elem_of_nil in Hin. }
  simpl in Hin. apply elem_of_cons in Hin as [-> | Hin].
  - exists 0%nat, sf. split; [done |]. simpl. by rewrite Nat.add_0_r.
  - destruct (IH _ _ Hin) as (k & sf' & Hk & Hn). exists (S k), sf'.
    split; [done |]. rewrite Hn. f_equal. lia.
Qed.

Lemma shard_name_nonempty (fn : string) (i : nat) :
  Packager.shard_name fn i <> EmptyString.
Proof.
  intros E. apply (f_equal String.length) in E.
  rewrite shard_name_length in E. simpl in E. lia.
Qed.

(** X11. Pack, then assemble.  Phase 4 processes a file whose flat name
    is fresh and records the entry [e]; a flat directory holds what the
    output directory then held.  [assembleLocal] reports [assembled], and
    once the event loop has run the write stream it queued the
    destination holds the file byte for byte; a call made after that
    reports [cached] and changes nothing.  For a sharded file nothing is
    written before the call returns, and a second call made before the
    event loop runs reports [assembled] again. *)
Theorem packed_file_assembles_to_original (d : Packager.deliverable)
    (out out' : gmap string (list byte)) (entries : list (string * file_entry))
    (e : file_entry) (base dest : string) (w : Downloader.world) :
  Packager.d_flat d <> EmptyString ->
  no_stale_shards (Packager.d_flat d) out ->
  Packager.write_deliverable CHUNK_SIZE sha keep d (out, entries)
  = Some (out', entries ++ [(Packager.d_vp d, e)]) ->
  (forall n b, out' !! n = Some b -> Downloader.fs w !! path_join base n = Some b) ->
  Downloader.is_cached dest e w = false ->
  Downloader.streams w = [] ->
  let r := Downloader.assembleLocal base e dest w in
  let w' := Downloader.drain r.2 in
  r.1 = Ok Downloader.Assembled
  /\ Downloader.fs w' = <[dest := Packager.d_pp d]> (Downloader.fs w)
  /\ Downloader.streams w' = []
  /\ Downloader.assembleLocal base e dest w' = (Ok Downloader.Cached, w')
  /\ (is_Some (entry_shards e) ->
      Downloader.fs r.2 = Downloader.fs w
      /\ (Downloader.assembleLocal base e dest r.2).1 = Ok Downloader.Assembled).
Proof.
  intros Hfn Hfresh Hw Hfs Hnc Hst.
  destruct (write_deliverable_fresh CHUNK_SIZE sha keep d out out' entries e Hfresh Hw)
    as [Hsize Hcases].
  assert (Hcached : forall w',
            Downloader.fs w' = <[dest := Packager.d_pp d]> (Downloader.fs w) ->
            Downloader.assembleLocal base e dest w' = (Ok Downloader.Cached, w')).
  { intros w' Hfs'. unfold Downloader.assembleLocal, Downloader.is_cached.
    rewrite Hfs', lookup_insert_eq, Hsize. unfold Packager.get_size.
    by rewrite Z.eqb_refl. }
  destruct Hcases as [(Hsh & Hcdn & Hin) | (sfs & Hcat & Hsh & Hin)].
  - assert (Hrun : Downloader.assembleLocal base e dest w
                   = (Ok Downloader.Assembled,
                      Downloader.set_fs (<[dest := Packager.d_pp d]> (Downloader.fs w)) w)).
    { unfold Downloader.assembleLocal. rewrite Hnc, Hsh.
      unfold Downloader.cdnName. rewrite Hcdn, (truthy_name _ Hfn).
      unfold bind, Downloader.readFileSync. by rewrite (Hfs _ _ Hin). }
    cbv zeta. rewrite Hrun. simpl. unfold Downloader.drain. simpl. rewrite Hst. simpl.
    split; [done |]. split; [done |]. split; [done |].
    split; [by apply Hcached |]. rewrite Hsh. by intros [x Hx].
  - set (content_of := fun n => default [] (Downloader.fs w !! path_join base n)).
    assert (Hloop : forall w0 older,
              Downloader.fs w0 = Downloader.fs w ->
              Downloader.streams w0 = older ->
              Downloader.is_cached dest e w0 = false
              /\ Downloader.assembleLocal base e dest w0
                 = (Ok Downloader.Assembled,
                    Downloader.set_streams
                      (older ++ [(dest, Packager.d_pp d)]) w0)).
    { intros w0 older Hfs0 Hst0.
      assert (Hnc0 : Downloader.is_cached dest e w0 = false).
      { revert Hnc. unfold Downloader.is_cached. by rewrite Hfs0. }
      split; [done |].
      unfold Downloader.assembleLocal. rewrite Hnc0, Hsh. rewrite bind_modify.
      destruct (assemble_loop base dest content_of
                  (expected_shards sha (Packager.d_flat d) 0 0 sfs) older []
                  (Downloader.open_stream dest w0)) as [r Hr].
      + intros sh Hsh'. apply expected_files in Hsh' as (k & sf & Hk & ->).
        split; [apply shard_name_nonempty |]. simpl.
        rewrite Hfs0. unfold content_of. by rewrite (Hfs _ _ (Hin k sf Hk)).
      + unfold Downloader.open_stream. simpl. by rewrite Hst0.
      + rewrite (bind_ok _ _ _ _ _ Hr). unfold ret. f_equal.
        unfold Downloader.open_stream, Downloader.set_streams. simpl.
        do 2 f_equal. rewrite expected_bytes; [by rewrite Hcat |].
        intros k sf Hk. unfold content_of. simpl.
        by rewrite (Hfs _ _ (Hin k sf Hk)). }
    destruct (Hloop w [] eq_refl Hst) as [_ Hrun]. simpl in Hrun.
    cbv zeta. rewrite Hrun. simpl.
    unfold Downloader.drain. simpl.
    split; [done |]. split; [done |]. split; [done |].
    split; [by apply Hcached |]. intros _. split; [done |].
    destruct (Hloop (Downloader.set_streams [(dest, Packager.d_pp d)] w)
                [(dest, Packager.d_pp d)] eq_refl eq_refl) as [_ ->]. done.
Qed.

(** X12. Pack, then download.  Phase 4 processes a file whose flat name
    is fresh and records the entry [e]; a CDN answers 200 with what the
    output directory then held.  [downloadCdn] rebuilds the file byte
    for byte, with one request per shard listed (one request for an
    unsharded file). *)
Theorem packed_file_downloads_to_original (d : Packager.deliverable)
    (out out' : gmap string (list byte)) (entries : list (string * file_entry))
    (e : file_entry) (baseUrl dest : string) (w : Downloader.world) :
  Packager.d_flat d <> EmptyString ->
  no_stale_shards (Packager.d_flat d) out ->
  Packager.write_deliverable CHUNK_SIZE sha keep d (out, entries)
  = Some (out', entries ++ [(Packager.d_vp d, e)]) ->
  (forall n b k, out' !! n = Some b ->
     Downloader.net w k (baseUrl ++ "/" ++ n)%string None = HttpReply 200 b) ->
  Downloader.is_cached dest e w = false ->
  exists w',
    Downloader.downloadCdn baseUrl e dest w = (Ok Downloader.Downloaded, w')
    /\ Downloader.fs w' = <[dest := Packager.d_pp d]> (Downloader.fs w)
    /\ Downloader.requests w'
       = (Downloader.requests w
          + match entry_shards e with Some l => length l | None => 1 end)%nat.
Proof.
  intros Hfn Hfresh Hw Hnet Hnc.
  destruct (write_deliverable_fresh CHUNK_SIZE sha keep d out out' entries e Hfresh Hw)
    as [Hsize Hcases].
  unfold Downloader.downloadCdn. rewrite Hnc.
  destruct Hcases as [(Hsh & Hcdn & Hin) | (sfs & Hcat & Hsh & Hin)]; rewrite Hsh.
  - unfold Downloader.cdnName. rewrite Hcdn, (truthy_name _ Hfn). simpl.
    unfold bind, Downloader.fetch. rewrite (Hnet _ _ _ Hin). simpl.
    eexists. split; [reflexivity |]. simpl. split; [| lia].
    by rewrite insert_insert_eq, lookup_insert_eq.
  - rewrite bind_modify.
    destruct (download_loop baseUrl dest
                (fun n => match Downloader.net w O (baseUrl ++ "/" ++ n)%string None with
                          | HttpReply _ b => b
                          | NetworkError => []
                          end)
                (expected_shards sha (Packager.d_flat d) 0 0 sfs) []
                (Downloader.create dest w)) as [r Hr].
    + intros sh k Hsh'. apply expected_files in Hsh' as (i & sf & Hi & ->).
      simpl. split; [apply shard_name_nonempty |].
      by rewrite !(Hnet _ _ _ (Hin i sf Hi)).
    + unfold Downloader.create. simpl. apply lookup_insert_eq.
    + rewrite (bind_ok _ _ _ _ _ Hr). unfold ret. eexists.
      split; [reflexivity |]. simpl. split; [| done].
      rewrite insert_insert_eq. f_equal.
      rewrite expected_bytes; [done |].
      intros i sf Hi. simpl. by rewrite (Hnet _ _ _ (Hin i sf Hi)).
Qed.

End RoundTrip.

Lemma demo_packed :
  Packager.write_deliverable 4 Demo.digest false Demo.w_bin (∅, [])
  = Some (Scenario.packed_out, [] ++ [(Packager.d_vp Demo.w_bin, Scenario.packed_entry)]).
Proof. vm_compute. reflexivity. Qed.

Lemma demo_nothing_stale (fn : string) : no_stale_shards fn ∅.
Proof. intros n [b Hb]. by rewrite lookup_empty in Hb. Qed.

Lemma packed_file_assembles_to_original_witness :
  Packager.write_deliverable 4 Demo.digest false Demo.w_bin (∅, [])
  = Some (Scenario.packed_out, [("w.bin"%string, Scenario.packed_entry)])
  /\ Downloader.fs
       (Downloader.drain
          (Downloader.assembleLocal "/flat" Scenario.packed_entry "/out/w.bin"
             Scenario.dl_world).2)
     = <["/out/w.bin"%string := Demo.ramp 0 10]> Scenario.packed_fs.
Proof.
  split; [exact demo_packed |].
  refine (proj1 (proj2 (packed_file_assembles_to_original 4 Demo.digest false
                          Demo.w_bin ∅ Scenario.packed_out [] Scenario.packed_entry
                          "/flat" "/out/w.bin" Scenario.dl_world
                          _ (demo_nothing_stale _) demo_packed _ _ _))).
  - discriminate.
  - intros n b Hn. unfold Scenario.packed_out in Hn.
    repeat (rewrite lookup_insert in Hn; case_decide;
            [subst; injection Hn as <-; reflexivity |]).
    by rewrite lookup_empty in Hn.
  - reflexivity.
  - reflexivity.
Defined.

Lemma packed_file_downloads_to_original_witness :
  exists w',
    Downloader.downloadCdn "https://cdn.example/flat" Scenario.packed_entry
      "/out/w.bin" Scenario.dl_world = (Ok Downloader.Downloaded, w')
    /\ Downloader.fs w' !! "/out/w.bin"%string = Some (Demo.ramp 0 10)
    /\ Downloader.requests w' = 3%nat.
Proof.
  edestruct (packed_file_downloads_to_original 4 Demo.digest false
               Demo.w_bin ∅ Scenario.packed_out [] Scenario.packed_entry
               "https://cdn.example/flat" "/out/w.bin" Scenario.dl_world
               ltac:(discriminate) (demo_nothing_stale _) demo_packed)
    as (w' & Hrun & Hfs & Hreq).
  - intros n b k Hn. unfold Scenario.packed_out in Hn.
    repeat (rewrite lookup_insert in Hn; case_decide;
            [subst; injection Hn as <-; reflexivity |]).
    by rewrite lookup_empty in Hn.
  - reflexivity.
  - exists w'. split; [exact Hrun |].
    split; [by rewrite Hfs, lookup_insert_eq | exact Hreq].
Defined.

(** * The downloader's file list *)

Lemma elem_of_concat {A} (x : A) (ls : list (list A)) :
  x ∈ concat ls <-> exists l, x ∈ l /\ l ∈ ls.
Proof.
  rewrite list_elem_of_In, in_concat. split; intros (l & H1 & H2); exists l.
  - by rewrite !list_elem_of_In.
  - by rewrite <- !list_elem_of_In.
Qed.

Lemma file_keys_elem (fm : filemap) (vp : string) :
  vp ∈ file_keys fm <-> is_Some (fm_files fm !! vp).
Proof.
  unfold file_keys. rewrite list_elem_of_fmap. split.
  - intros ([k e] & -> & Hin). apply elem_of_map_to_list in Hin. by exists e.
  - intros [e He]. exists (vp, e). split; [done |]. by apply elem_of_map_to_list.
Qed.

Lemma code_unit_le_total : Total Downloader.code_unit_le.
Proof. intros a b. apply String.leb_total. Qed.

(** X13. The downloader's file list is sorted and free of duplicates.
    Without [-m] it holds exactly the virtual paths of the filemap; with
    manifest names it holds exactly the paths listed by those of the
    named manifests that exist, a name the filemap does not have
    contributing nothing. *)
Theorem getFileList_sorted_union (fm : filemap) (manifests : list string) :
  Sorted Downloader.code_unit_le (Downloader.getFileList fm manifests)
  /\ NoDup (Downloader.getFileList fm manifests)
  /\ forall vp,
       vp ∈ Downloader.getFileList fm manifests
       <-> match manifests with
           | [] => is_Some (fm_files fm !! vp)
           | _ => exists m man, m ∈ manifests
                    /\ assoc m (manifests_of fm) = Some man
                    /\ vp ∈ manifest_files man
           end.
Proof.
  unfold Downloader.getFileList, Downloader.sort.
  destruct manifests as [| m0 ms].
  - split; [apply Sorted_merge_sort, code_unit_le_total |]. split.
    + rewrite merge_sort_Permutation. apply NoDup_remove_dups.
    + intros vp. rewrite merge_sort_Permutation, elem_of_remove_dups.
      apply file_keys_elem.
  - set (l := m0 :: ms).
    split; [apply Sorted_merge_sort, code_unit_le_total |]. split.
    + rewrite merge_sort_Permutation. apply NoDup_remove_dups.
    + intros vp. rewrite merge_sort_Permutation, elem_of_remove_dups, elem_of_concat.
      split.
      * intros (fl & Hvp & Hfl). apply list_elem_of_fmap in Hfl as (m & -> & Hm).
        destruct (assoc m (manifests_of fm)) as [man|] eqn:Hman.
        -- by exists m, man.
        -- by apply elem_of_nil in Hvp.
      * intros (m & man & Hm & Hman & Hvp). exists (manifest_files man).
        split; [done |]. apply list_elem_of_fmap. exists m. by rewrite Hman.
Qed.

(** * The direct resolve API: progress *)



Lemma climbs_weaken (total lo hi hi' : Z) (evs : list Resolver.event) :
  climbs total lo evs hi -> hi <= hi' -> climbs total lo evs hi'.
Proof.
  revert lo. induction evs as [| e es IH]; intros lo; simpl; [lia |].
  intros (H1 & H2 & H3 & H4 & H5) Hhi. repeat split; try done. by apply IH.
Qed.





Section ResolveProgress.

Variable sha256_hex : string -> string.
Variable sha256_file : list byte -> string.
Variable JSON_parse : list byte -> option filemap.
Variable JSON_stringify : filemap -> list byte.
Variable verifySha256 : bool.

Variables (sourceKey : string) (isLocal : bool).

(** The events reported before the files are processed, and the total
    the events are measured against. *)
Variables (before : list Resolver.event) (total : Z).

Local Abbreviation good B r :=
  (exists evs, Resolver.reported r = before ++ evs
               /\ climbs total 0 evs (Resolver.loadedBytes r)
               /\ 0 <= Resolver.loadedBytes r <= B).








End ResolveProgress.




(** * The direct resolve API: reassembly *)

Lemma pwrite_append (acc buf : list byte) :
  Resolver.pwrite acc (length acc) buf = acc ++ buf.
Proof.
  unfold Resolver.pwrite. rewrite firstn_all, Nat.sub_diag. simpl.
  rewrite drop_ge by lia. by rewrite app_nil_r.
Qed.

Section Reassemble.

Variable sha : string -> string.
Variable sha_file : list byte -> string.
Variable verifySha256 : bool.
Variables (sourceKey : string) (isLocal : bool).
Variable content : string -> list byte.
Variable names : list string.
Variable outPath : string.

Hypothesis key_not_empty : sourceKey <> EmptyString.

Local Abbreviation src := (source_of sourceKey isLocal).

Lemma read_named_read_shard (file : string) :
  Resolver.read_named sha sourceKey isLocal file = Node.read_shard sha src file.
Proof.
  unfold Resolver.read_named, Node.read_shard, source_of.
  destruct isLocal; simpl; [| done]. by rewrite decide_False.
Qed.

(** Reading an object touches the file system at most where the
    resolver keeps that object. *)
Lemma read_named_frame (file p : string) (w w' : Node.world)
    (res : result (list byte)) :
  Resolver.read_named sha sourceKey isLocal file w = (res, w') ->
  Node.cacheDir w' = Node.cacheDir w
  /\ Node.fs_writable w' = Node.fs_writable w
  /\ (p <> source_path sha w sourceKey isLocal file -> Node.fs w' !! p = Node.fs w !! p).
Proof.
  unfold Resolver.read_named, source_path. destruct isLocal.
  - unfold Node._readLocal. destruct (Node.fs w !! _); by intros [= _ <-].
  - unfold Node._fetchShardBuf.
    destruct (Node.fs w !! _); [by intros [= _ <-] |].
    intros Hrun.
    pose proof (Node_retry_loop_effects (sourceKey ++ "/" ++ file)
                  (Node._shardCachePath sha w (sourceKey ++ "/" ++ file))
                  (Node.retries w) "undefined" w) as H.
    cbv zeta in H. rewrite Hrun in H. simpl in H.
    destruct H as (_ & [H2 H2'] & _ & H4 & _).
    split; [done |]. split; [done |]. intros Hp. by apply H4.
Qed.

Lemma Node_serves_write (p : string) (b : list byte) (w : Node.world) :
  (forall file, file ∈ names -> source_path sha w sourceKey isLocal file <> p) ->
  Node_serves sha src content names w ->
  Node_serves sha src content names (Node.set_fs (<[p := b]> (Node.fs w)) w).
Proof.
  intros Hp. unfold Node_serves, source_of, source_path in *.
  destruct isLocal; simpl in *.
  - rewrite !decide_False by done. intros H file Hf.
    rewrite lookup_insert_ne; [by apply H |]. intros E. by apply (Hp file Hf).
  - intros (H1 & H2 & H3 & H4 & H5). repeat split; try done.
    intros file c Hf. unfold Node._shardCachePath in *. simpl.
    rewrite lookup_insert_ne; [by apply H4 |]. intros E. by apply (Hp file Hf).
Qed.

Lemma source_path_cacheDir (w w' : Node.world) (file : string) :
  Node.cacheDir w' = Node.cacheDir w ->
  source_path sha w' sourceKey isLocal file = source_path sha w sourceKey isLocal file.
Proof.
  intros H. unfold source_path, Node._shardCachePath. by rewrite H.
Qed.

Lemma write_shards_bytes (total : Z) (vp : string) (l : list shard) (o : Z)
    (acc : list byte) (cursor : nat) (r : Resolver.run) :
  contiguous_from o l -> sizes_match content l -> Z.of_nat (length acc) = o ->
  (forall sh, sh ∈ l -> shard_file sh ∈ names) ->
  Node_serves sha src content names (Resolver.node r) ->
  (forall file, file ∈ names ->
     source_path sha (Resolver.node r) sourceKey isLocal file <> outPath) ->
  Node.fs (Resolver.node r) !! outPath = Some acc ->
  exists r',
    Resolver.write_shards sha sourceKey isLocal outPath (Resolver.onBytes total vp)
      cursor l r = (Ok tt, r')
    /\ Node.fs (Resolver.node r') !! outPath = Some (acc ++ shard_bytes content l).
Proof.
  revert o acc cursor r.
  induction l as [| sh l IH]; intros o acc cursor r Hc Hm Hlen Hnames Hs Hp Hout.
  { exists r. split; [done |]. unfold shard_bytes. simpl. by rewrite app_nil_r. }
  destruct Hc as (Ho & Hsz & Hc). apply Forall_cons in Hm as [Hm1 Hm].
  assert (Hin : shard_file sh ∈ names) by (apply Hnames; by left).
  destruct (Node_read_shard_serves sha src content names (shard_file sh)
              (Resolver.node r) Hin Hs) as (w1 & Hread & Hs1).
  rewrite <- read_named_read_shard in Hread.
  destruct (read_named_frame (shard_file sh) outPath _ _ _ Hread) as (Hcd & _ & Hfr).
  assert (Hout1 : Node.fs w1 !! outPath = Some acc).
  { rewrite Hfr; [done |]. intros E. by apply (Hp _ Hin). }
  set (buf := content (shard_file sh)) in *.
  set (w2 := Node.set_fs (<[outPath := acc ++ buf]> (Node.fs w1)) w1).
  assert (Hp1 : forall file, file ∈ names ->
            source_path sha w1 sourceKey isLocal file <> outPath).
  { intros file Hf. rewrite (source_path_cacheDir _ _ _ Hcd). by apply Hp. }
  set (r3 := Resolver.onBytes total vp (shard_size sh)
               (Resolver.Run w2 (Resolver.loadedBytes r) (Resolver.reported r))).
  destruct (IH (o + shard_size sh) (acc ++ buf) cursor r3) as (r' & Hrun & Hfs).
  - done.
  - done.
  - rewrite length_app, Nat2Z.inj_add. lia.
  - intros sh' Hsh'. apply Hnames. by right.
  - simpl. by apply Node_serves_write.
  - simpl. intros file Hf. by apply Hp1.
  - simpl. apply lookup_insert_eq.
  - exists r'. split.
    + simpl. unfold bind at 1, Resolver.lift at 1. rewrite Hread.
      unfold bind at 1, Resolver.lift at 1, Resolver.writeSync. simpl.
      rewrite Hout1. simpl.
      assert (Hpos : (0 <=? shard_offset sh) = true) by (apply Z.leb_le; lia).
      rewrite Hpos. rewrite bind_modify.
      replace (Z.to_nat (shard_offset sh)) with (length acc) by lia.
      rewrite pwrite_append. exact Hrun.
    + rewrite Hfs. unfold shard_bytes. simpl. by rewrite app_assoc.
Qed.

(** X15. [_reassembleFile] on a sharded entry whose shard list is
    contiguous from offset 0, reading from a source that serves each
    shard with as many bytes as its record says: the output file
    receives the shard contents written at their offsets, which is
    their concatenation, and the call returns; unless verification is
    on, the entry names a digest and the digest of the output differs,
    in which case the output file is removed and the call throws. *)
Theorem reassembleFile_writes_shards_at_offsets (total : Z) (vp : string)
    (e : file_entry) (l : list shard) (r : Resolver.run) :
  entry_shards e = Some l ->
  shards_wf (entry_size e) l -> sizes_match content l ->
  names = shard_file <$> l ->
  Node_serves sha src content names (Resolver.node r) ->
  Node.fs_writable (Resolver.node r) = true ->
  (forall file, file ∈ names ->
     source_path sha (Resolver.node r) sourceKey isLocal file <> outPath) ->
  let out := Resolver._reassembleFile sha sha_file verifySha256 sourceKey isLocal
               vp e outPath (Resolver.onBytes total vp) r in
  if verifySha256 && negb (String.eqb (entry_sha256 e) EmptyString)
     && negb (String.eqb (sha_file (shard_bytes content l)) (entry_sha256 e))
  then (exists err, out.1 = Throw err)
       /\ Node.fs (Resolver.node out.2) !! outPath = None
  else out.1 = Ok tt
       /\ Node.fs (Resolver.node out.2) !! outPath = Some (shard_bytes content l).
Proof.
  intros Hl [Hc Hsum] Hm Hnames Hs Hw Hp out. subst out.
  destruct (Resolver._reassembleFile _ _ _ _ _ _ _ _ _ r) as [res rf] eqn:Hrun.
  simpl. revert Hrun. unfold Resolver._reassembleFile. rewrite Hl.
  unfold bind at 1, Resolver.lift at 1, Resolver.openSync_w, Resolver.write_file.
  rewrite Hw.
  set (r1 := Resolver.Run _ _ _).
  destruct (write_shards_bytes total vp l 0 [] 0%nat r1) as (r2 & Hloop & Hfs).
  - done.
  - done.
  - done.
  - intros sh Hsh. rewrite Hnames. by apply list_elem_of_fmap_2.
  - simpl. by apply Node_serves_write.
  - exact Hp.
  - apply lookup_insert_eq.
  - unfold bind at 1. rewrite Hloop. simpl in Hfs.
    unfold Resolver.lift, Resolver.verify.
    destruct (verifySha256 && negb (String.eqb (entry_sha256 e) EmptyString)); simpl.
    + rewrite Hfs. simpl.
      destruct (String.eqb (sha_file (shard_bytes content l)) (entry_sha256 e)); simpl.
      * intros [= <- <-]. by split.
      * intros [= <- <-]. simpl. split; [by eexists | apply lookup_delete_eq].
    + intros [= <- <-]. by split.
Qed.

End Reassemble.

Lemma demo_shards_served (w : Node.world) :
  Node.fs w = Demo.local_fs ->
  Node_serves Demo.sha (source_of "/pkg" true) Demo.content
    (shard_file <$> Demo.a_shards) w.
Proof.
  intros Hfs. unfold Node_serves, source_of. simpl.
  intros file Hf. rewrite Hfs.
  destruct (demo_names file Hf) as [-> | [-> | ->]]; reflexivity.
Qed.

Lemma reassembleFile_writes_shards_at_offsets_witness :
  (Resolver._reassembleFile Demo.sha Demo.digest false "/pkg" true "a.bin"
     Demo.a_bin "/out/a.bin" (Resolver.onBytes 25 "a.bin") Scenario.resolve_start).1
  = Ok tt
  /\ (exists err,
        (Resolver._reassembleFile Demo.sha Demo.digest true "/pkg" true "a.bin"
           Demo.a_bin "/out/a.bin" (Resolver.onBytes 25 "a.bin")
           Scenario.resolve_start).1 = Throw err).
Proof.
  assert (Hwf : shards_wf (entry_size Demo.a_bin) Demo.a_shards).
  { unfold shards_wf. simpl. repeat split; lia. }
  assert (Hm : sizes_match Demo.content Demo.a_shards).
  { repeat constructor. }
  assert (Hp : forall file, file ∈ shard_file <$> Demo.a_shards ->
            source_path Demo.sha (Resolver.node Scenario.resolve_start) "/pkg" true file
            <> "/out/a.bin"%string).
  { intros file Hf. destruct (demo_names file Hf) as [-> | [-> | ->]]; discriminate. }
  split.
  - apply (reassembleFile_writes_shards_at_offsets Demo.sha Demo.digest false "/pkg"
             true Demo.content (shard_file <$> Demo.a_shards) "/out/a.bin"
             ltac:(discriminate) 25 "a.bin" Demo.a_bin Demo.a_shards
             Scenario.resolve_start eq_refl Hwf Hm eq_refl
             (demo_shards_served (Resolver.node Scenario.resolve_start) eq_refl) eq_refl Hp).
  - apply (reassembleFile_writes_shards_at_offsets Demo.sha Demo.digest true "/pkg"
             true Demo.content (shard_file <$> Demo.a_shards) "/out/a.bin"
             ltac:(discriminate) 25 "a.bin" Demo.a_bin Demo.a_shards
             Scenario.resolve_start eq_refl Hwf Hm eq_refl
             (demo_shards_served (Resolver.node Scenario.resolve_start) eq_refl) eq_refl Hp).
Defined.

(** * Requests for unsharded files *)

(** X16. The worker serves an unsharded file in full whatever [Range]
    the request carries: the response, the progress recorded and the
    requests made are those of the same request without a [Range]
    header. *)
Theorem unsharded_ignores_range (JSON_parse : list byte -> option filemap)
    (range : option (Z * option Z)) (s : SW.source) (relPath : string)
    (w : SW.world) (fm : filemap) (e : file_entry) :
  (SW.loadFilemap JSON_parse (SW.cdnBase s) w).1 = Some fm ->
  fm_files fm !! relPath = Some e ->
  entry_shards e = None ->
  SW.handleModelFetch JSON_parse range s relPath w
  = SW.handleModelFetch JSON_parse None s relPath w
  /\ forall r, (SW.handleModelFetch JSON_parse range s relPath w).1 = Ok r ->
       resp_status r = 200
       /\ exists body, resp_body r = Some body
            /\ assoc "Content-Length" (resp_headers r)
               = Some (JS.num_to_string (Z.of_nat (length body))).
Proof.
  intros Hload He Hsh. unfold SW.handleModelFetch.
  destruct (SW.loadFilemap JSON_parse (SW.cdnBase s) w) as [map w1].
  simpl in Hload. subst map. simpl. rewrite He, Hsh. split; [done |].
  intros r. unfold try_finally.
  destruct (bind _ _ _) as [res w2] eqn:Hrun. simpl. intros ->.
  revert Hrun. unfold bind at 1.
  destruct (SW.fetchShard _ s _) as [[body|err] w3]; [| done].
  rewrite !bind_modify. unfold ret. intros [= <- _]. simpl.
  split; [done |]. by exists body.
Qed.

Lemma unsharded_ignores_range_witness :
  SW.handleModelFetch (Demo.parse Demo.fm) (Some (0, Some 9)) Demo.adaptive_source
    "b.bin" Scenario.sw_cold
  = SW.handleModelFetch (Demo.parse Demo.fm) None Demo.adaptive_source "b.bin"
      Scenario.sw_cold.
Proof.
  apply (unsharded_ignores_range (Demo.parse Demo.fm) (Some (0, Some 9))
           Demo.adaptive_source "b.bin" Scenario.sw_cold Demo.fm Demo.b_bin);
    reflexivity.
Defined.

(** * Shard fetch deduplication: no entry is left behind *)

Section DedupCleanup.

Import Dedup.

Lemma owned_caller_moves (fl : gmap string nat) (ts ts' : list task)
    (ca ca' : gmap string (list byte)) (cs : list caller) (c : nat) (k : caller)
    (p : pc) :
  cs !! c = Some k -> (forall url pid, ~ owns k url pid) ->
  registered_owned (State ca fl ts cs) ->
  registered_owned (State ca' fl ts' (<[c := Caller (c_slice k) p]> cs)).
Proof.
  intros Hc Hk H url pid Hfl. destruct (H url pid Hfl) as (c1 & k1 & Hc1 & Hown).
  exists c1, k1. split; [| done]. simpl in *.
  rewrite list_lookup_insert_ne; [done |]. intros <-.
  rewrite Hc in Hc1. injection Hc1 as <-. by apply Hk in Hown.
Qed.

Lemma owned_frame (fl : gmap string nat) (ts ts' : list task)
    (ca ca' : gmap string (list byte)) (cs : list caller) :
  registered_owned (State ca fl ts cs) -> registered_owned (State ca' fl ts' cs).
Proof. intros H url pid Hfl. exact (H url pid Hfl). Qed.

Lemma owned_set_task (pid : nat) (ts : task_state) (s : state) :
  registered_owned s -> registered_owned (set_task pid ts s).
Proof.
  unfold set_task. destruct (tasks s !! pid); [| done].
  destruct s. apply owned_frame.
Qed.

Lemma owned_set_caller (c : nat) (p : pc) (s : state) (k : caller) :
  callers s !! c = Some k -> (forall url pid, ~ owns k url pid) ->
  registered_owned s -> registered_owned (set_caller c p s).
Proof.
  intros Hc Hk. rewrite (set_caller_eq c p s k Hc). destruct s.
  by apply owned_caller_moves.
Qed.

Lemma owned_step (l : label) (s s' : state) :
  step l s = Some s' -> registered_owned s -> registered_owned s'.
Proof.
  destruct l as [url | url a b | c ok | pid reply | pid ok | c reply | c]; simpl.
  - intros [= <-] H u p Hfl. destruct (H u p Hfl) as (c1 & k1 & Hc1 & Hown).
    exists c1, k1. split; [| done]. simpl. by apply lookup_app_l_Some.
  - intros [= <-] H u p Hfl. destruct (H u p Hfl) as (c1 & k1 & Hc1 & Hown).
    exists c1, k1. split; [| done]. simpl. by apply lookup_app_l_Some.
  - destruct (callers s !! c) as [k|] eqn:Hc; [| done]. simpl.
    destruct (c_pc k) eqn:Hpc; try done.
    + destruct (if ok then _ else _).
      * intros [= <-]. apply (owned_set_caller _ _ _ k Hc).
        intros u p Ho. unfold owns in Ho. congruence.
      * intros [= <-]. apply (owned_set_caller _ _ _ k Hc).
        intros u p Ho. unfold owns in Ho. congruence.
    + destruct (if ok then _ else _).
      * intros [= <-]. apply (owned_set_caller _ _ _ k Hc).
        intros u p Ho. unfold owns in Ho. congruence.
      * intros [= <-] H. unfold join_or_start.
        destruct (shardInflight s !! url) as [pid|] eqn:Hfl.
        -- apply (owned_set_caller _ _ _ k Hc); [| done].
           intros u p Ho. unfold owns in Ho. congruence.
        -- unfold set_caller. simpl. rewrite Hc. intros u p Hu. simpl in *.
           destruct (decide (url = u)) as [<- | Hne].
           ++ rewrite lookup_insert_eq in Hu. injection Hu as <-.
              exists c, (Caller (c_slice k) (Owner url (length (tasks s)))).
              split; [| done]. apply list_lookup_insert_eq. by eapply lookup_lt_Some.
           ++ rewrite lookup_insert_ne in Hu by done.
              destruct (H u p Hu) as (c1 & k1 & Hc1 & Hown).
              exists c1, k1. split; [| done].
              rewrite list_lookup_insert_ne; [done |]. intros <-.
              rewrite Hc in Hc1. injection Hc1 as <-. unfold owns in Hown. congruence.
  - destruct (tasks s !! pid) as [t|]; [| done]. simpl.
    destruct (t_state t); try done.
    destruct reply as [status body|]; [destruct (reply_ok status) |];
      intros [= <-]; apply owned_set_task.
  - destruct (tasks s !! pid) as [t|]; [| done]. simpl.
    destruct (t_state t); try done. intros [= <-] H. apply owned_set_task.
    destruct ok; [| done]. destruct s. by apply (owned_frame _ _ _ _ _ _ H).
  - destruct (callers s !! c) as [k|] eqn:Hc; [| done]. simpl.
    destruct (c_pc k) eqn:Hpc; try done.
    assert (Hk : forall u p, ~ owns k u p).
    { intros u p Ho. unfold owns in Ho. congruence. }
    destruct reply as [status body|].
    + destruct (status =? 206); [| destruct (reply_ok status)]; intros [= <-] H.
      * by apply (owned_set_caller _ _ _ k Hc).
      * unfold set_caller. simpl. rewrite Hc. destruct s. simpl in *.
        by apply (owned_caller_moves _ tasks0 _ cache0 _ _ _ k).
      * by apply (owned_set_caller _ _ _ k Hc).
    + intros [= <-] H. by apply (owned_set_caller _ _ _ k Hc).
  - destruct (callers s !! c) as [k|] eqn:Hc; [| done]. simpl.
    destruct (c_pc k) eqn:Hpc; try done.
    + destruct (tasks s !! pid) as [t|]; [| done]. simpl.
      destruct (t_state t); try done. intros [= <-].
      apply (owned_set_caller _ _ _ k Hc). intros u p Ho. unfold owns in Ho. congruence.
    + destruct (tasks s !! pid) as [t|]; [| done]. simpl.
      destruct (t_state t); try done. intros [= <-] H.
      unfold set_caller. simpl. rewrite Hc. intros u p Hu. simpl in *.
      destruct (decide (url = u)) as [<- | Hne].
      { by rewrite lookup_delete_eq in Hu. }
      rewrite lookup_delete_ne in Hu by done.
      destruct (H u p Hu) as (c1 & k1 & Hc1 & Hown).
      exists c1, k1. split; [| done].
      rewrite list_lookup_insert_ne; [done |]. intros <-.
      rewrite Hc in Hc1. injection Hc1 as <-. unfold owns in Hown. congruence.
Qed.

Lemma owned_exec (ls : list label) (s s' : state) :
  exec ls s = Some s' -> registered_owned s -> registered_owned s'.
Proof.
  revert s. induction ls as [| l ls IH]; intros s; simpl.
  - by intros [= <-].
  - destruct (step l s) as [s1|] eqn:Hstep; [| done]. simpl.
    intros Hex Hs. apply (IH s1 Hex). by apply (owned_step l s).
Qed.

(** X17. However calls of [fetchShard] and [fetchShardSlice] interleave,
    every URL registered in [shardInflight] has its registering call
    still awaiting the fetch; so once every call made has returned,
    nothing is left in [shardInflight]: a later call for any URL starts
    a fresh fetch rather than joining a stale promise. *)
Theorem inflight_map_drains (c0 : gmap string (list byte)) (ls : list label)
    (s : state) :
  exec ls (initial c0) = Some s ->
  registered_owned s /\ (all_returned s -> shardInflight s = ∅).
Proof.
  intros Hex.
  assert (Hown : registered_owned s).
  { apply (owned_exec ls (initial c0)); [done |]. intros url pid Hfl.
    simpl in Hfl. by rewrite lookup_empty in Hfl. }
  split; [done |]. intros Hret. apply map_eq. intros url. rewrite lookup_empty.
  destruct (shardInflight s !! url) as [pid|] eqn:Hfl; [| done].
  destruct (Hown url pid Hfl) as (c & k & Hc & Ho).
  destruct (Hret k) as [o Hk]; [by eapply list_elem_of_lookup_2 |].
  unfold owns in Ho. congruence.
Qed.

End DedupCleanup.

Lemma inflight_map_drains_witness :
  exists s, Dedup.exec Scenario.one_full_read (Dedup.initial ∅) = Some s
            /\ Dedup.shardInflight s = ∅.
Proof.
  eassert (Hs : Dedup.exec Scenario.one_full_read (Dedup.initial ∅) = Some _)
    by (vm_compute; reflexivity).
  eexists. split; [exact Hs |].
  apply (proj2 (inflight_map_drains ∅ Scenario.one_full_read _ Hs)).
  intros k Hk. apply list_elem_of_singleton in Hk as ->. by eexists.
Defined.

(** * Finalization: what the final event reports *)

Lemma finalize_fold_lookup (l : list string) (fs : gmap string fprog) (vp : string) :
  (foldr SW.finalize_step (fs, 0) l).1 !! vp
  = if decide (vp ∈ l) then (fun f => FProg (f_size f) (f_size f)) <$> fs !! vp
    else fs !! vp.
Proof.
  induction l as [| a l IH]; [done |]. simpl. unfold SW.finalize_step at 1.
  destruct ((foldr SW.finalize_step (fs, 0) l).1 !! a) as [f|] eqn:Hf; simpl.
  - destruct (decide (a = vp)) as [-> | Hne].
    + rewrite lookup_insert_eq. rewrite decide_True by (by left).
      rewrite IH in Hf. destruct (decide (vp ∈ l)).
      * destruct (fs !! vp) as [g|]; [| done]. simpl in *. by injection Hf as <-.
      * by rewrite Hf.
    + rewrite lookup_insert_ne by done. rewrite IH.
      destruct (decide (vp ∈ l)) as [Hin | Hnin].
      * by rewrite decide_True by (by right).
      * rewrite decide_False; [done |]. intros Hc.
        apply elem_of_cons in Hc as [-> | Hc]; done.
  - destruct (decide (a = vp)) as [-> | Hne].
    + rewrite Hf. rewrite decide_True by (by left).
      rewrite IH in Hf. destruct (decide (vp ∈ l)); [| by rewrite Hf].
      by destruct (fs !! vp).
    + rewrite IH. destruct (decide (vp ∈ l)) as [Hin | Hnin].
      * by rewrite decide_True by (by right).
      * rewrite decide_False; [done |]. intros Hc.
        apply elem_of_cons in Hc as [-> | Hc]; done.
Qed.

Lemma percent_of_self (t : Z) : percent_of t t = if t >? 0 then 100 else 0.
Proof.
  destruct (Z.gtb_spec t 0) as [Hpos | Hle].
  - by apply percent_of_full.
  - unfold percent_of. by destruct (Z.gtb_spec t 0); [lia |].
Qed.

(** X18. Finalizing a source that is not yet finalized: the one event
    posted reports [done], [modelLoaded = modelTotal] and 100 percent
    (0 percent when that total is not positive); in the state left
    behind both timers are cleared, every file that was requested is
    marked fully loaded and every other tracked file is as it was. *)
Theorem finalize_reports_completion (pp : string) (w : SW.world) (st : SW.pstate) :
  SW.progressState w !! pp = Some st -> SW.finalized st = false ->
  exists st' m,
    SW.progressState (SW.finalizeProgress pp w) !! pp = Some st'
    /\ SW.posted (SW.finalizeProgress pp w) = SW.posted w ++ [m]
    /\ msg_done m = true
    /\ msg_modelLoaded m = msg_modelTotal m
    /\ msg_percent m = (if msg_modelTotal m >? 0 then 100 else 0)
    /\ SW.finalized st' = true
    /\ SW.idleTimer st' = None /\ SW.broadcastTimer st' = None
    /\ SW.loadedBytes st' = SW.totalBytes st'
    /\ forall vp,
         SW.files st' !! vp
         = if decide (vp ∈ SW.activeFiles st)
           then (fun f => FProg (f_size f) (f_size f)) <$> SW.files st !! vp
           else SW.files st !! vp.
Proof.
  intros Hst Hfin. unfold SW.finalizeProgress. rewrite Hst, Hfin.
  assert (Hst' : SW.progressState (SW.with_state pp SW.finalize_state w) !! pp
                 = Some (SW.finalize_state st)).
  { by rewrite SW_with_state_lookup, decide_True, Hst. }
  destruct (SW_with_state_fields pp SW.finalize_state w) as [Hposted Hnow].
  assert (F1 : SW.loadedBytes (SW.finalize_state st)
               = SW.totalBytes (SW.finalize_state st)) by done.
  assert (F2 : SW.finalized (SW.finalize_state st) = true) by done.
  assert (F3 : SW.idleTimer (SW.finalize_state st) = None) by done.
  assert (F4 : SW.broadcastTimer (SW.finalize_state st) = None) by done.
  assert (F5 : forall vp,
            SW.files (SW.finalize_state st) !! vp
            = if decide (vp ∈ SW.activeFiles st)
              then (fun f => FProg (f_size f) (f_size f)) <$> SW.files st !! vp
              else SW.files st !! vp).
  { intros vp. simpl. rewrite finalize_fold_lookup.
    destruct (decide (vp ∈ elements (SW.activeFiles st))) as [Hin | Hnin].
    - rewrite decide_True; [done |]. by apply elem_of_elements.
    - rewrite decide_False; [done |]. by rewrite <- elem_of_elements. }
  revert Hst' F1 F2 F3 F4 F5. generalize (SW.finalize_state st). intros st1.
  intros Hst' F1 F2 F3 F4 F5.
  exists (SW.set_lastBroadcast (SW.now w) st1),
         (SW.broadcast_message pp (SW.set_lastBroadcast (SW.now w) st1)).
  split; [| split].
  - unfold SW.doBroadcast. rewrite Hst'. simpl. rewrite lookup_insert_eq.
    by rewrite Hnow.
  - rewrite (SW_doBroadcast_posted _ _ _ Hst'). by rewrite Hposted, Hnow.
  - unfold SW.broadcast_message, done_of. simpl. rewrite F1, F2.
    split; [done |]. split; [done |]. split; [apply percent_of_self |].
    by repeat split.
Qed.

Lemma finalize_reports_completion_witness :
  exists st' m,
    SW.progressState (SW.finalizeProgress "/m/" Demo.sw_tracking) !! "/m/"%string
    = Some st'
    /\ SW.posted (SW.finalizeProgress "/m/" Demo.sw_tracking) = [m]
    /\ msg_percent m = 100 /\ SW.files st' !! "a.bin"%string = Some (FProg 25 25).
Proof.
  destruct (finalize_reports_completion "/m/" Demo.sw_tracking
              (SW.PState Adaptive 25 20 {["a.bin"%string := FProg 25 20]}
                         {["a.bin"%string]} ["A"%string] (Some "A"%string)
                         1 None false 0 None "a.bin") eq_refl eq_refl)
    as (st' & m & H1 & H2 & _ & _ & _ & _ & _ & _ & _ & H10).
  exists st', m. split; [exact H1 |]. split; [exact H2 |].
  split.
  - assert (Hm : SW.posted (SW.finalizeProgress "/m/" Demo.sw_tracking)
                 = [ProgressMsg "/m/" "a.bin" 25 25 25 25 100 true (Some "A"%string)
                                Adaptive]) by (vm_compute; reflexivity).
    rewrite Hm in H2. simpl in H2. by injection H2 as <-.
  - rewrite H10. reflexivity.
Defined.

(** * Ranged reads: an end beyond the file *)

Lemma shard_bytes_length (content : string -> list byte) (l : list shard) :
  sizes_match content l ->
  Z.of_nat (length (shard_bytes content l)) = sum_sizes l.
Proof.
  induction 1 as [| sh l Hsh _ IH]; [done |].
  change (shard_bytes content (sh :: l))
    with (content (shard_file sh) ++ shard_bytes content l).
  change (sum_sizes (sh :: l)) with (shard_size sh + sum_sizes l).
  by rewrite length_app, Nat2Z.inj_add, IH, Hsh.
Qed.

(** X19. A ranged read whose end lies at or beyond the last byte (as
    with [Range: bytes=N-], or an end past the file) is clamped to the
    last byte: both resolvers answer 206 with
    [Content-Range: bytes start-(size-1)/size] and the bytes of the
    file from [start] to its end. *)
Theorem range_end_is_clamped (sha : string -> string)
    (content : string -> list byte) (e : file_entry) (l : list shard)
    (sn : Node.source) (ss : SW.source) (start end_ : Z) (relPath : string)
    (wn : Node.world) (ws : SW.world) :
  entry_shards e = Some l ->
  shards_wf (entry_size e) l ->
  sizes_match content l ->
  0 <= start -> start < entry_size e -> entry_size e - 1 <= end_ ->
  Node_serves sha sn content (shard_file <$> l) wn ->
  SW_serves ss content (shard_file <$> l) ws ->
  let body := drop (Z.to_nat start) (shard_bytes content l) in
  (exists wn', Node._respondRange sha e sn start end_ relPath wn
               = (Ok (response_206 ("X-Model-Resolver", "range")%string
                                   start (entry_size e - 1) (entry_size e) body), wn'))
  /\ (exists ws', SW.respondRange e ss start end_ relPath ws
                  = (Ok (response_206 ("X-Model-SW", "range")%string
                                      start (entry_size e - 1) (entry_size e) body), ws')).
Proof.
  intros Hl [Hcont Hsum] Hsizes H0 Hlt Hend Hn Hs body.
  set (last := entry_size e - 1).
  assert (Hmin : Z.min end_ (entry_size e - 1) = last) by (unfold last; lia).
  destruct (valid_range_guard start last (entry_size e) H0) as [_ Hguard];
    [unfold last; lia | unfold last; lia |].
  assert (Hne : range_parts start last l <> []).
  { apply (range_parts_nonempty l 0); [done | lia | unfold last; lia | lia]. }
  assert (Hbody : concat (piece content <$> range_parts start last l) = body).
  { rewrite (range_parts_bytes content l 0); [| done | done | unfold last; lia].
    rewrite !Z.sub_0_r. unfold bytes_between, body. apply take_ge.
    pose proof (shard_bytes_length content l Hsizes) as Hlen.
    rewrite length_drop. unfold last. lia. }
  split.
  - unfold Node._respondRange. rewrite Hmin, Hguard.
    unfold Node.shards_or_throw. rewrite Hl.
    destruct (mapM_invariant (Node_serves sha sn content (shard_file <$> l))
                (Node.read_part sha sn) (piece content) (range_parts start last l))
      with (w := wn) as (w1 & Hread & _); [| done |].
    { intros p w Hp Hw. apply Node_read_part_serves; [| done].
      by eapply range_parts_files. }
    destruct (range_parts start last l) as [| p ps] eqn:Hparts; [done |].
    unfold bind at 1. rewrite Hread. unfold bind, modify, ret. simpl.
    rewrite <- Hbody. eexists. reflexivity.
  - unfold SW.respondRange. rewrite Hmin, Hguard, Hl.
    destruct (mapM_invariant (SW_serves ss content (shard_file <$> l))
                (SW.fetch_part ss) (piece content) (range_parts start last l))
      with (w := ws) as (w1 & Hread & _); [| done |].
    { intros p w Hp Hw. apply SW_fetch_part_serves; [| done].
      by eapply range_parts_files. }
    destruct (range_parts start last l) as [| p ps] eqn:Hparts; [done |].
    unfold bind at 1. rewrite Hread. unfold bind, modify, ret. simpl.
    rewrite <- Hbody. eexists. reflexivity.
Qed.

Lemma demo_node_serves :
  Node_serves Demo.sha (Demo.local_source EmptyString) Demo.content
    (shard_file <$> Demo.a_shards) (Demo.node_local EmptyString).
Proof.
  unfold Node_serves. rewrite decide_False by done.
  intros file [-> | [-> | ->]]%demo_names; reflexivity.
Qed.

Lemma demo_sw_serves :
  SW_serves Demo.adaptive_source Demo.content (shard_file <$> Demo.a_shards)
    Demo.sw_boot.
Proof.
  repeat split.
  - intros n file [-> | [-> | ->]]%demo_names; reflexivity.
  - intros n file a b status body [-> | [-> | ->]]%demo_names [= <- <-];
      reflexivity.
  - intros file c _. simpl. by rewrite lookup_empty.
Qed.

(** [Range: bytes=20-1000] on the 25-byte file. *)
Lemma range_end_is_clamped_witness :
  (exists wn', Node._respondRange Demo.sha Demo.a_bin (Demo.local_source EmptyString)
                 20 1000 "a.bin" (Demo.node_local EmptyString)
               = (Ok (response_206 ("X-Model-Resolver", "range")%string 20 24 25
                                   (Demo.ramp 20 5)), wn'))
  /\ (exists ws', SW.respondRange Demo.a_bin Demo.adaptive_source 20 1000 "a.bin"
                    Demo.sw_boot
                  = (Ok (response_206 ("X-Model-SW", "range")%string 20 24 25
                                      (Demo.ramp 20 5)), ws')).
Proof.
  apply (range_end_is_clamped Demo.sha Demo.content Demo.a_bin Demo.a_shards
           (Demo.local_source EmptyString) Demo.adaptive_source 20 1000 "a.bin"
           (Demo.node_local EmptyString) Demo.sw_boot).
  - reflexivity.
  - split; [simpl; lia | reflexivity].
  - repeat constructor.
  - lia.
  - simpl. lia.
  - simpl. lia.
  - exact demo_node_serves.
  - exact demo_sw_serves.
Defined.

(** * Adaptive narrowing: which manifest is selected *)

Lemma largest_of_spec (ms : list (string * manifest)) (others : list string)
    (first : string) :
  largest_of ms first others ∈ first :: others
  /\ forall n, n ∈ first :: others ->
       size_of_manifest ms n <= size_of_manifest ms (largest_of ms first others).
Proof.
  unfold largest_of. revert first.
  induction others as [| b others IH]; intros first; simpl.
  { split; [by left |]. intros n Hn. apply list_elem_of_singleton in Hn as ->. lia. }
  set (a := if size_of_manifest ms first >=? size_of_manifest ms b then first else b).
  destruct (IH a) as [Hin Hmax].
  assert (Ha : a ∈ [first; b] /\ size_of_manifest ms first <= size_of_manifest ms a
               /\ size_of_manifest ms b <= size_of_manifest ms a).
  { unfold a. destruct (Z.geb_spec (size_of_manifest ms first) (size_of_manifest ms b)).
    - split; [by left | lia].
    - split; [right; by left | lia]. }
  destruct Ha as (Ha & Hf & Hb). split.
  - apply elem_of_cons in Hin as [-> | Hin].
    + apply elem_of_cons in Ha as [-> | Ha]; [by left |].
      apply list_elem_of_singleton in Ha as ->. right. by left.
    + right. by right.
  - intros n Hn. specialize (Hmax a (ltac:(by left))) as Hma.
    apply elem_of_cons in Hn as [-> | Hn]; [lia |].
    apply elem_of_cons in Hn as [-> | Hn]; [lia |].
    apply Hmax. by right.
Qed.

(** X20. Adaptive narrowing on a request for [relPath].  When some but
    not all candidate manifests list the file, the candidates become
    exactly those that list it, in their order, and the selected
    manifest becomes one of them of the largest declared size, the mode
    being kept; in every other case the state is left as it is. *)
Theorem narrowing_selects_largest_remaining (fm : filemap)
    (ms : list (string * manifest)) (relPath : string) (st : SW.pstate) :
  fm_manifests fm = Some ms ->
  let remaining := filter (fun n => SW.lists_file ms relPath n = true)
                          (SW.candidates st) in
  let st' := SW.narrow_state fm relPath st in
  if decide (remaining = [] \/ length remaining = length (SW.candidates st))
  then st' = st
  else SW.candidates st' = remaining
       /\ SW.mode st' = SW.mode st
       /\ exists largest,
            SW.selectedManifest st' = Some largest
            /\ largest ∈ remaining
            /\ forall n, n ∈ remaining ->
                 size_of_manifest ms n <= size_of_manifest ms largest.
Proof.
  intros Hms remaining st'. subst st'. unfold SW.narrow_state. rewrite Hms.
  fold remaining.
  destruct remaining as [| first others] eqn:Hrem.
  { rewrite decide_True by (by left). done. }
  destruct (decide (length (first :: others) = length (SW.candidates st))) as [Hlen|Hlen].
  { rewrite decide_True by (by right). done. }
  rewrite decide_False by (intros [? | ?]; done).
  destruct (largest_of_spec ms others first) as [Hin Hmax].
  case_decide as Hsel.
  - simpl. split; [done |]. split; [done |].
    exists (largest_of ms first others). simpl in Hsel. by rewrite <- Hsel.
  - unfold SW.switch_manifest. simpl. split; [done |]. split; [done |].
    by exists (largest_of ms first others).
Qed.

Lemma narrowing_selects_largest_remaining_witness :
  SW.candidates <$> SW.progressState
                      (SW.narrowManifest "/m/" "a.bin" Demo.before_narrowing)
                      !! "/m/"%string
  = Some ["A"%string]
  /\ SW.candidates (SW.narrow_state Demo.fm "a.bin"
                      (SW.PState Adaptive 350 50 ∅ ∅ ["A"; "B"]%string
                                 (Some "B"%string) 0 None false 0 None EmptyString))
     = ["A"%string].
Proof.
  split; [vm_compute; reflexivity |].
  pose proof (narrowing_selects_largest_remaining Demo.fm
                [("A", Manifest ["a.bin"] 25); ("B", Manifest ["b.bin"] 300)]%string
                "a.bin"
                (SW.PState Adaptive 350 50 ∅ ∅ ["A"; "B"]%string
                           (Some "B"%string) 0 None false 0 None EmptyString)
                eq_refl) as H.
  cbv zeta in H. rewrite decide_False in H.
  - destruct H as [H _]. rewrite H. reflexivity.
  - intros [H1 | H1]; vm_compute in H1; discriminate.
Defined.

(** * A full read and the progress it records *)

Lemma bump_bump (f : fprog) (b1 b2 : Z) :
  0 <= b2 -> bump (bump f b1) b2 = bump f (b1 + b2).
Proof. intros Hb. unfold bump. simpl. f_equal. lia. Qed.

Lemma scheduleProgress_counts (pp : string) (w : SW.world) (st : SW.pstate) :
  SW.progressState w !! pp = Some st ->
  exists st', SW.progressState (SW.scheduleProgress pp w) !! pp = Some st'
              /\ SW.files st' = SW.files st
              /\ SW.loadedBytes st' = SW.loadedBytes st.
Proof.
  intros Hst. unfold SW.scheduleProgress. rewrite Hst.
  assert (Hb : forall w1 st1, SW.progressState w1 !! pp = Some st1 ->
            SW.files st1 = SW.files st -> SW.loadedBytes st1 = SW.loadedBytes st ->
            exists st', SW.progressState (SW.doBroadcast pp w1) !! pp = Some st'
                        /\ SW.files st' = SW.files st
                        /\ SW.loadedBytes st' = SW.loadedBytes st).
  { intros w1 st1 H1 Hf Hl. unfold SW.doBroadcast. rewrite H1. simpl.
    rewrite lookup_insert_eq. by eexists. }
  assert (Ht : forall t, SW.progressState (SW.with_state pp (SW.set_broadcastTimer t) w)
                           !! pp = Some (SW.set_broadcastTimer t st)).
  { intros t. by rewrite SW_with_state_lookup, decide_True, Hst. }
  destruct (done_of _ _ _).
  - by apply (Hb _ _ (Ht None)).
  - destruct (_ >=? _); [by apply (Hb _ _ Hst) |].
    destruct (SW.broadcastTimer st); [by exists st |].
    eexists. split; [apply Ht | done].
Qed.

Section FullRead.

Variables (s : SW.source) (content : string -> list byte) (names : list string).
Variable relPath : string.

Hypothesis progress_on : SW.progress s = true.

Local Abbreviation pp := (SW.pathPrefix s).

Local Abbreviation read_one :=
  (fun sh : shard =>
     buf <- SW.fetchShard (shard_file sh) s ;;
     modify (fun w =>
       if SW.progress s
       then SW.scheduleProgress (SW.pathPrefix s)
              (SW.recordProgress (SW.pathPrefix s) relPath (shard_size sh) w)
       else w) ;;;
     ret buf).

Lemma full_read_loop (l : list shard) (w : SW.world) (st : SW.pstate) (f : fprog) :
  Forall (fun sh => 0 <= shard_size sh) l ->
  (forall sh, sh ∈ l -> shard_file sh ∈ names) ->
  SW_serves s content names w ->
  SW.progressState w !! pp = Some st ->
  SW.files st !! relPath = Some f -> f_loaded f <= f_size f ->
  exists w' st',
    mapM read_one l w = (Ok ((fun sh => content (shard_file sh)) <$> l), w')
    /\ SW_serves s content names w'
    /\ SW.progressState w' !! pp = Some st'
    /\ SW.files st' = <[relPath := bump f (sum_sizes l)]> (SW.files st)
    /\ SW.loadedBytes st'
       = SW.loadedBytes st + (f_loaded (bump f (sum_sizes l)) - f_loaded f).
Proof.
  revert w st f. induction l as [| sh l IH]; intros w st f Hsz Hnames Hs Hst Hf Hb.
  { exists w, st. split; [done |]. split; [done |]. split; [done |].
    assert (Hid : bump f (sum_sizes []) = f).
    { unfold bump. destruct f as [F a]. simpl in *. f_equal. lia. }
    rewrite Hid. split; [by rewrite insert_id | lia]. }
  apply Forall_cons in Hsz as [Hsh Hsz].
  assert (Hnn : 0 <= sum_sizes l).
  { clear -Hsz. induction Hsz as [| x l' Hx _ IHl]; [done |].
    change (sum_sizes (x :: l')) with (shard_size x + sum_sizes l'). lia. }
  destruct (SW_fetchShard_serves s content names (shard_file sh) w) as (w1 & Hr & Hs1);
    [apply Hnames; by left | done |].
  pose proof (fetchShard_view (shard_file sh) s w) as Hv. rewrite Hr in Hv.
  simpl in Hv. injection Hv as Hps _ _.
  set (w2 := SW.recordProgress pp relPath (shard_size sh) w1).
  assert (Hst2 : SW.progressState w2 !! pp
                 = Some (SW.record_state relPath (shard_size sh) st)).
  { unfold w2, SW.recordProgress. by rewrite SW_with_state_lookup, decide_True, Hps, Hst. }
  destruct (SW_files_record relPath (shard_size sh) st f Hf) as [Hfiles Hloaded].
  destruct (scheduleProgress_counts pp w2 _ Hst2) as (st3 & Hst3 & Hf3 & Hl3).
  set (w3 := SW.scheduleProgress pp w2) in *.
  assert (Hs3 : SW_serves s content names w3).
  { eapply SW_serves_frame; [| exact Hs1].
    eapply same_store_trans;
      [apply same_store_recordProgress | apply same_store_scheduleProgress]. }
  destruct (IH w3 st3 (bump f (shard_size sh))) as (w' & st' & Hrun & Hs' & Hst' & Hf' & Hl').
  - done.
  - intros sh' Hin. apply Hnames. by right.
  - done.
  - done.
  - by rewrite Hf3, Hfiles, lookup_insert_eq.
  - apply bump_bounded.
  - exists w', st'. split; [| split; [done | split; [done |]]].
    + apply (mapM_cons_ok _ _ _ _ w3); [| exact Hrun].
      unfold bind at 1. rewrite Hr. rewrite bind_modify. unfold ret.
      by rewrite progress_on.
    + change (sum_sizes (sh :: l)) with (shard_size sh + sum_sizes l).
      rewrite Hf', Hf3, Hfiles, insert_insert_eq, bump_bump by done.
      split; [done |]. rewrite Hl', Hl3, Hloaded, bump_bump by done.
      assert (f_loaded f <= f_loaded (bump f (shard_size sh))).
      { unfold bump. simpl. lia. }
      lia.
Qed.

(** X21. A full read of a sharded file whose shards the CDN serves
    succeeds and counts towards progress exactly what one record of
    the shard sizes' sum would: the file's [loaded] becomes
    [min(loaded + sum, size)], [loadedBytes] grows by the same
    difference, and no other file's count changes.  In particular a
    file tracked from zero whose shard sizes add up to its size ends
    fully loaded. *)
Theorem full_read_counts_whole_file (e : file_entry) (l : list shard)
    (w : SW.world) (st : SW.pstate) (f : fprog) :
  entry_shards e = Some l ->
  Forall (fun sh => 0 <= shard_size sh) l ->
  names = shard_file <$> l ->
  SW_serves s content names w ->
  SW.progressState w !! pp = Some st ->
  SW.files st !! relPath = Some f -> f_loaded f <= f_size f ->
  exists w' st',
    SW.respondFull e s relPath w
    = (Ok (Response 200 (SW.full_headers (entry_size e))
                    (Some (shard_bytes content l))), w')
    /\ SW.progressState w' !! pp = Some st'
    /\ SW.files st' = <[relPath := FProg (f_size f)
                                     (Z.min (f_loaded f + sum_sizes l) (f_size f))]>
                        (SW.files st)
    /\ SW.loadedBytes st'
       = SW.loadedBytes st + (Z.min (f_loaded f + sum_sizes l) (f_size f) - f_loaded f).
Proof.
  intros Hl Hsz Hnames Hs Hst Hf Hb.
  destruct (full_read_loop l w st f Hsz) as (w1 & st1 & Hrun & _ & Hst1 & Hf1 & Hl1);
    try done.
  { intros sh Hin. rewrite Hnames. by apply list_elem_of_fmap_2. }
  unfold SW.respondFull, try_finally. rewrite Hl. simpl.
  unfold bind at 1. rewrite Hrun. unfold ret.
  unfold SW.fetch_end. rewrite progress_on. unfold SW.onFetchEnd.
  eexists. eexists. split; [reflexivity |].
  split; [by rewrite SW_with_state_lookup, decide_True, Hst1 |].
  split; destruct (_ && _); first [exact Hf1 | exact Hl1].
Qed.

End FullRead.

Lemma demo_tracking_serves :
  SW_serves Demo.adaptive_source Demo.content (shard_file <$> Demo.a_shards)
    Demo.sw_tracking.
Proof.
  repeat split.
  - intros n file [-> | [-> | ->]]%demo_names; reflexivity.
  - intros n file a b status body [-> | [-> | ->]]%demo_names [= <- <-];
      reflexivity.
  - intros file c _. simpl. by rewrite lookup_empty.
Qed.

Lemma full_read_counts_whole_file_witness :
  exists w' st',
    SW.respondFull Demo.a_bin Demo.adaptive_source "a.bin" Demo.sw_tracking
    = (Ok (Response 200 (SW.full_headers 25)
                    (Some (shard_bytes Demo.content Demo.a_shards))), w')
    /\ SW.progressState w' !! "/m/"%string = Some st'
    /\ SW.files st' = <["a.bin"%string := FProg 25 25]> {["a.bin"%string := FProg 25 20]}
    /\ SW.loadedBytes st' = 20 + (25 - 20).
Proof.
  destruct (full_read_counts_whole_file Demo.adaptive_source Demo.content
              (shard_file <$> Demo.a_shards) "a.bin" eq_refl Demo.a_bin Demo.a_shards
              Demo.sw_tracking
              (SW.PState Adaptive 25 20 {["a.bin"%string := FProg 25 20]}
                         {["a.bin"%string]} ["A"%string] (Some "A"%string)
                         1 None false 0 None "a.bin")
              (FProg 25 20)) as (w' & st' & H1 & H2 & H3 & H4).
  - reflexivity.
  - repeat constructor; simpl; lia.
  - reflexivity.
  - exact demo_tracking_serves.
  - reflexivity.
  - reflexivity.
  - simpl. lia.
  - exists w', st'. split; [exact H1 |]. split; [exact H2 |].
    split; [rewrite H3; reflexivity | rewrite H4; reflexivity].
Defined.
(** * Progress initialisation in adaptive mode *)







